(** * A shallow embedding of [single-linked-list.h]

    The container is a chain of individually allocated nodes hanging off a
    sentinel node that is embedded in the list object.  The development
    models the free store and the list objects explicitly, runs the member
    functions as state transformers over that memory, and relates them to
    the abstract sequence of elements. *)

From stdpp Require Import gmap list.
From Stdlib Require Import ZArith.
From Stdlib Require PrimFloat.

Local Open Scope Z_scope.

#[local] Set Warnings "-clear-no-such-hyp".

(** ** Machine parameters *)

(** [size_t] and data pointers are 64 bits wide. *)
Definition SIZE_WIDTH : Z := 64.
Definition SIZE_MOD : Z := 2 ^ SIZE_WIDTH.

(** Arithmetic on [size_t] wraps around. *)
Definition size_t_wrap (z : Z) : Z := z mod SIZE_MOD.

(** Addresses of free-store nodes, and addresses of list objects. *)
Abbreviation addr := positive (only parsing).
Abbreviation loc := positive (only parsing).

(** A [Node *].  A node is either a cell of the free store or the sentinel
    [head_] embedded in the list object at [l]. *)
Inductive Node_ptr : Type :=
  | nullptr
  | sentinel (l : loc)
  | cell (a : addr).

#[global] Instance Node_ptr_eq_dec : EqDecision Node_ptr.
Proof. solve_decision. Defined.

(** ** The free store *)

(** [new] hands out the address of a node, or fails.  [capacity] is the
    number of nodes the free store has room for. *)
Record Allocator : Type := mkAllocator {
  capacity : Z;
  new_addr : gset positive → option positive
}.

(** What is assumed of [new]: the node it hands out is not live, its
    address fits a pointer, and below the capacity [new] does not fail. *)
Record allocator_laws (alloc : Allocator) : Prop := {
  new_addr_fresh : ∀ X a, new_addr alloc X = Some a → a ∉ X;
  new_addr_bound : ∀ X a, new_addr alloc X = Some a → Z.pos a < SIZE_MOD;
  new_addr_succeeds : ∀ X, Z.of_nat (size X) < capacity alloc → is_Some (new_addr alloc X)
}.

(** The ways a call can fail to return normally. *)
Inductive error : Type :=
  | bad_alloc            (* [new] threw *)
  | undefined_behavior   (* a null, dangling or sentinel access the language leaves undefined *)
  | out_of_fuel.         (* the loop bound of the model was reached *)

Section Model.

Context {T : Type}.

(** [struct Node]. *)
Record Node : Type := mkNode {
  value : T;
  next_node : Node_ptr
}.

(** The data members of [SingleLinkedList].  Of the sentinel [head_] only
    the link is kept: its [value] is default-initialised and no member
    function reads it. *)
Record SingleLinkedList : Type := mkList {
  head_next_node : Node_ptr;
  size_ : Z
}.

(** The memory: the live nodes of the free store and the live list objects. *)
Record Mem : Type := mkMem {
  nodes : gmap positive Node;
  lists : gmap positive SingleLinkedList
}.

(** ** A state and error monad *)

Definition M (A : Type) : Type := Mem → error + (A * Mem).

Definition ret {A} (a : A) : M A := λ m, inr (a, m).

Definition bind {A B} (c : M A) (k : A → M B) : M B :=
  λ m, match c m with
       | inl e => inl e
       | inr (a, m') => k a m'
       end.

Definition throw {A} (e : error) : M A := λ _, inl e.

End Model.

Arguments Node : clear implicits.
Arguments Mem : clear implicits.
Arguments M : clear implicits.

Declare Scope sll_scope.
Delimit Scope sll_scope with sll.
Notation "'let*' x := c 'in' k" := (bind c (λ x, k))
  (at level 10, x name, c at level 100, k at level 200) : sll_scope.
Notation "c ;;; k" := (bind c (λ _, k))
  (at level 100, k at level 200, right associativity) : sll_scope.

Local Open Scope sll_scope.

(** ** Memory accesses *)

Section Access.

Context {T : Type}.
Context (alloc : Allocator).

(** [p->next_node], as an rvalue. *)
Definition load_next (p : Node_ptr) : M T Node_ptr :=
  λ m, match p with
       | nullptr => inl undefined_behavior
       | sentinel l =>
           match lists m !! l with
           | Some o => inr (head_next_node o, m)
           | None => inl undefined_behavior
           end
       | cell a =>
           match nodes m !! a with
           | Some n => inr (next_node n, m)
           | None => inl undefined_behavior
           end
       end.

(** [p->next_node = q]. *)
Definition store_next (p q : Node_ptr) : M T unit :=
  λ m, match p with
       | nullptr => inl undefined_behavior
       | sentinel l =>
           match lists m !! l with
           | Some o => inr (tt, mkMem (nodes m) (<[l := mkList q (size_ o)]> (lists m)))
           | None => inl undefined_behavior
           end
       | cell a =>
           match nodes m !! a with
           | Some n => inr (tt, mkMem (<[a := mkNode (value n) q]> (nodes m)) (lists m))
           | None => inl undefined_behavior
           end
       end.

(** [p->value], as an rvalue.  The [value] member of the sentinel [head_]
    is default-initialised and never assigned: for a scalar [Type] in a
    list of automatic storage it is indeterminate, and reading it is
    undefined.  The model takes this case for every [Type]; it does not
    say what [*before_begin()] yields for a [Type] with a default
    constructor or for a list of static storage. *)
Definition load_value (p : Node_ptr) : M T T :=
  λ m, match p with
       | cell a =>
           match nodes m !! a with
           | Some n => inr (value n, m)
           | None => inl undefined_behavior
           end
       | _ => inl undefined_behavior
       end.

(** [l.size_], read and written. *)
Definition load_size (l : loc) : M T Z :=
  λ m, match lists m !! l with
       | Some o => inr (size_ o, m)
       | None => inl undefined_behavior
       end.

Definition store_size (l : loc) (z : Z) : M T unit :=
  λ m, match lists m !! l with
       | Some o => inr (tt, mkMem (nodes m) (<[l := mkList (head_next_node o) z]> (lists m)))
       | None => inl undefined_behavior
       end.

(** [new Node(val, next)]. *)
Definition new_Node (val : T) (next : Node_ptr) : M T Node_ptr :=
  λ m, match new_addr alloc (dom (nodes m)) with
       | Some a => inr (cell a, mkMem (<[a := mkNode val next]> (nodes m)) (lists m))
       | None => inl bad_alloc
       end.

(** [delete p]. *)
Definition delete_Node (p : Node_ptr) : M T unit :=
  λ m, match p with
       | nullptr => inr (tt, m)
       | sentinel _ => inl undefined_behavior
       | cell a =>
           match nodes m !! a with
           | Some _ => inr (tt, mkMem (delete a (nodes m)) (lists m))
           | None => inl undefined_behavior
           end
       end.

(** ** [BasicIterator] *)

(** [Iterator] and [ConstIterator] differ in the constness of the reference
    they yield only; both hold one [Node *]. *)
Record BasicIterator : Type := Iterator { node_ : Node_ptr }.

(** [BasicIterator() = default]: [node_] is null. *)
Definition BasicIterator_default : BasicIterator := Iterator nullptr.

(** [operator==] and [operator!=] of the iterators. *)
Definition iter_eq (lhs rhs : BasicIterator) : bool :=
  bool_decide (node_ lhs = node_ rhs).

Definition iter_ne (lhs rhs : BasicIterator) : bool :=
  negb (bool_decide (node_ lhs = node_ rhs)).

(** [operator++()]: the advanced iterator. *)
Definition iter_incr (it : BasicIterator) : M T BasicIterator :=
  let* n := load_next (node_ it) in
  ret (Iterator n).

(** [operator++(int)]: the snapshot and the advanced iterator. *)
Definition iter_post_incr (it : BasicIterator) : M T (BasicIterator * BasicIterator) :=
  let old_value := it in
  let* it' := iter_incr it in
  ret (old_value, it').

(** [operator*]. *)
Definition iter_deref (it : BasicIterator) : M T T :=
  load_value (node_ it).

End Access.

(** ** Requirements on the template arguments *)

(** What [operator==] and [operator<] of the lists ask of the element type. *)
Class ElementOps (T : Type) : Type := {
  elem_eq : T → T → bool;   (* [a == b] *)
  elem_lt : T → T → bool    (* [a < b] *)
}.

(** What [FillLinkedList_] asks of its [CollectionIterator]. *)
Class CollectionIterator (T It : Type) : Type := {
  ci_ne : It → It → bool;       (* [it != it_end] *)
  ci_deref : It → M T T;        (* [*it] *)
  ci_incr : It → M T It         (* [++it] *)
}.

(** The iterators of the list itself. *)
#[global] Instance BasicIterator_CollectionIterator {T} : CollectionIterator T BasicIterator := {
  ci_ne := iter_ne;
  ci_deref := iter_deref;
  ci_incr := iter_incr
}.

(** The iterators of [std::initializer_list<Type>]: pointers into the
    backing array [values], kept as indices.  One past the end may be
    formed but not dereferenced nor advanced. *)
Definition initializer_list_iterator {T} (values : list T) : CollectionIterator T nat := {|
  ci_ne := λ i j, negb (Nat.eqb i j);
  ci_deref := λ i, match values !! i with
                   | Some v => ret v
                   | None => throw undefined_behavior
                   end;
  ci_incr := λ i, if (i <? length values)%nat then ret (S i) else throw undefined_behavior
|}.

(** ** The member functions of [SingleLinkedList] *)

Section Members.

Context {T : Type}.
Context (alloc : Allocator).

(** The default member initialisers: [head_] has a null link, [size_ = 0].
    The storage at [this] must not hold a live list. *)
Definition init_members (this : loc) : M T unit :=
  λ m, match lists m !! this with
       | None => inr (tt, mkMem (nodes m) (<[this := mkList nullptr 0]> (lists m)))
       | Some _ => inl undefined_behavior
       end.

(** The end of an object's lifetime, after its destructor body has run. *)
Definition release (this : loc) : M T unit :=
  λ m, match lists m !! this with
       | Some _ => inr (tt, mkMem (nodes m) (delete this (lists m)))
       | None => inl undefined_behavior
       end.

(** Storage for a local variable of type [SingleLinkedList]. *)
Definition local_storage : M T loc :=
  λ m, inr (fresh (dom (lists m)), m).

(** [SingleLinkedList() {}]. *)
Definition SingleLinkedList_default (this : loc) : M T unit :=
  init_members this.

(** [begin], [end], [cbegin], [cend]. *)
Definition list_begin (this : loc) : M T BasicIterator :=
  let* n := load_next (sentinel this) in
  ret (Iterator n).

Definition list_end (this : loc) : M T BasicIterator :=
  ret BasicIterator_default.

Definition cbegin (this : loc) : M T BasicIterator :=
  let* n := load_next (sentinel this) in
  ret (Iterator n).

Definition cend (this : loc) : M T BasicIterator :=
  ret BasicIterator_default.

(** [before_begin], [cbefore_begin]: [&head_].  The [const] overload of
    [before_begin] passes [head_] itself to a constructor that takes a
    [Node *]; it cannot be instantiated and has no counterpart here. *)
Definition before_begin (this : loc) : M T BasicIterator :=
  ret (Iterator (sentinel this)).

Definition cbefore_begin (this : loc) : M T BasicIterator :=
  ret (Iterator (sentinel this)).

(** [swap]: two [std::swap]s, each a read of both sides and two writes. *)
Definition swap (this other : loc) : M T unit :=
  let* a := load_next (sentinel this) in
  let* b := load_next (sentinel other) in
  store_next (sentinel this) b ;;;
  store_next (sentinel other) a ;;;
  let* s := load_size this in
  let* t := load_size other in
  store_size this t ;;;
  store_size other s.

Definition GetSize (this : loc) : M T Z :=
  load_size this.

Definition IsEmpty (this : loc) : M T bool :=
  let* s := load_size this in
  ret (s =? 0).

(** The [while] loop of [Clear]. *)
Fixpoint Clear_loop (fuel : nat) (this : loc) : M T unit :=
  match fuel with
  | O => throw out_of_fuel
  | S fuel' =>
      let* h := load_next (sentinel this) in
      if bool_decide (h ≠ nullptr) then
        let* current_node := load_next (sentinel this) in
        let* h' := load_next (sentinel this) in
        let* n := load_next h' in
        store_next (sentinel this) n ;;;
        delete_Node current_node ;;;
        Clear_loop fuel' this
      else ret tt
  end.

Definition Clear (fuel : nat) (this : loc) : M T unit :=
  Clear_loop fuel this ;;;
  store_size this 0.

(** [++size_] and [--size_]. *)
Definition incr_size (this : loc) : M T unit :=
  let* s := load_size this in
  store_size this (size_t_wrap (s + 1)).

Definition decr_size (this : loc) : M T unit :=
  let* s := load_size this in
  store_size this (size_t_wrap (s - 1)).

Definition PushFront (this : loc) (val : T) : M T unit :=
  let* h := load_next (sentinel this) in
  let* n := new_Node alloc val h in
  store_next (sentinel this) n ;;;
  incr_size this.

Definition InsertAfter (this : loc) (pos : BasicIterator) (val : T) : M T BasicIterator :=
  let* nx := load_next (node_ pos) in
  let* node := new_Node alloc val nx in
  store_next (node_ pos) node ;;;
  incr_size this ;;;
  let* r := load_next (node_ pos) in
  ret (Iterator r).

Definition PopFront (this : loc) : M T unit :=
  let* front := load_next (sentinel this) in
  let* h := load_next (sentinel this) in
  let* n := load_next h in
  store_next (sentinel this) n ;;;
  delete_Node front ;;;
  decr_size this.

Definition EraseAfter (this : loc) (pos : BasicIterator) : M T BasicIterator :=
  let* node_to_delete := load_next (node_ pos) in
  let* nx := load_next (node_ pos) in
  let* nn := load_next nx in
  store_next (node_ pos) nn ;;;
  delete_Node node_to_delete ;;;
  decr_size this ;;;
  let* r := load_next (node_ pos) in
  ret (Iterator r).

(** [FillLinkedList_].  The [Node **node_ptr] always addresses the
    [next_node] member of a node; it is kept as the pointer to that node. *)
Fixpoint FillLinkedList_loop {It} {CI : CollectionIterator T It}
    (fuel : nat) (linked_list : loc) (node_ptr : Node_ptr) (it it_end : It) : M T unit :=
  match fuel with
  | O => throw out_of_fuel
  | S fuel' =>
      if ci_ne it it_end then
        let* v := ci_deref it in
        let* n := new_Node alloc v nullptr in
        store_next node_ptr n ;;;
        let* node_ptr' := load_next node_ptr in
        incr_size linked_list ;;;
        let* it' := ci_incr it in
        FillLinkedList_loop fuel' linked_list node_ptr' it' it_end
      else ret tt
  end.

Definition FillLinkedList_ {It} {CI : CollectionIterator T It}
    (fuel : nat) (linked_list : loc) (it_begin it_end : It) : M T unit :=
  FillLinkedList_loop fuel linked_list (sentinel linked_list) it_begin it_end.

(** [~SingleLinkedList() { Clear(); }], and the end of the lifetime. *)
Definition SingleLinkedList_destroy (fuel : nat) (this : loc) : M T unit :=
  Clear fuel this ;;;
  release this.

(** [SingleLinkedList(std::initializer_list<Type> values)]. *)
Definition SingleLinkedList_init (fuel : nat) (this : loc) (values : list T) : M T unit :=
  init_members this ;;;
  let* linked_list := local_storage in
  SingleLinkedList_default linked_list ;;;
  FillLinkedList_ (CI := initializer_list_iterator values)
    fuel linked_list 0%nat (length values) ;;;
  swap this linked_list ;;;
  SingleLinkedList_destroy fuel linked_list.

(** [SingleLinkedList(const SingleLinkedList &other)]. *)
Definition SingleLinkedList_copy (fuel : nat) (this other : loc) : M T unit :=
  init_members this ;;;
  let* linked_list := local_storage in
  SingleLinkedList_default linked_list ;;;
  let* b := list_begin other in
  let* e := list_end other in
  FillLinkedList_ fuel linked_list b e ;;;
  swap this linked_list ;;;
  SingleLinkedList_destroy fuel linked_list.

(** [operator=]. *)
Definition assign (fuel : nat) (this rhs : loc) : M T loc :=
  if bool_decide (this = rhs) then ret this
  else
    let* copy := local_storage in
    SingleLinkedList_copy fuel copy rhs ;;;
    swap this copy ;;;
    SingleLinkedList_destroy fuel copy ;;;
    ret this.

End Members.

(** ** The free functions *)

Section FreeFunctions.

Context {T : Type} {E : ElementOps T}.

(** The free [swap]. *)
Definition swap_free (lhs rhs : loc) : M T unit :=
  swap lhs rhs.

(** [std::equal(first1, last1, first2)]: the loop of the standard library,
    which stops at the first mismatch and never looks at an end of the
    second range. *)
Fixpoint std_equal (fuel : nat) (first1 last1 first2 : BasicIterator) : M T bool :=
  match fuel with
  | O => throw out_of_fuel
  | S fuel' =>
      if iter_ne first1 last1 then
        let* a := iter_deref first1 in
        let* b := iter_deref first2 in
        if negb (elem_eq a b) then ret false
        else
          let* first1' := iter_incr first1 in
          let* first2' := iter_incr first2 in
          std_equal fuel' first1' last1 first2'
      else ret true
  end.

(** [std::lexicographical_compare(first1, last1, first2, last2)]. *)
Fixpoint std_lexicographical_compare (fuel : nat)
    (first1 last1 first2 last2 : BasicIterator) : M T bool :=
  match fuel with
  | O => throw out_of_fuel
  | S fuel' =>
      if iter_ne first1 last1 && iter_ne first2 last2 then
        let* a := iter_deref first1 in
        let* b := iter_deref first2 in
        if elem_lt a b then ret true
        else
          let* b' := iter_deref first2 in
          let* a' := iter_deref first1 in
          if elem_lt b' a' then ret false
          else
            let* first1' := iter_incr first1 in
            let* first2' := iter_incr first2 in
            std_lexicographical_compare fuel' first1' last1 first2' last2
      else ret (iter_eq first1 last1 && iter_ne first2 last2)
  end.

Definition operator_eq (fuel : nat) (lhs rhs : loc) : M T bool :=
  let* b1 := list_begin lhs in
  let* e1 := list_end lhs in
  let* b2 := list_begin rhs in
  std_equal fuel b1 e1 b2.

Definition operator_ne (fuel : nat) (lhs rhs : loc) : M T bool :=
  let* r := operator_eq fuel lhs rhs in
  ret (negb r).

Definition operator_lt (fuel : nat) (lhs rhs : loc) : M T bool :=
  let* b1 := list_begin lhs in
  let* e1 := list_end lhs in
  let* b2 := list_begin rhs in
  let* e2 := list_end rhs in
  std_lexicographical_compare fuel b1 e1 b2 e2.

Definition operator_gt (fuel : nat) (lhs rhs : loc) : M T bool :=
  operator_lt fuel rhs lhs.

Definition operator_le (fuel : nat) (lhs rhs : loc) : M T bool :=
  let* r := operator_gt fuel lhs rhs in
  ret (negb r).

Definition operator_ge (fuel : nat) (lhs rhs : loc) : M T bool :=
  let* r := operator_lt fuel lhs rhs in
  ret (negb r).

(** Walking a list from [begin()] to [end()], collecting [*it]. *)
Fixpoint traverse (fuel : nat) (it it_end : BasicIterator) : M T (list T) :=
  match fuel with
  | O => throw out_of_fuel
  | S fuel' =>
      if iter_ne it it_end then
        let* v := iter_deref it in
        let* it' := iter_incr it in
        let* vs := traverse fuel' it' it_end in
        ret (v :: vs)
      else ret []
  end.

Definition elements (fuel : nat) (this : loc) : M T (list T) :=
  let* b := list_begin this in
  let* e := list_end this in
  traverse fuel b e.

End FreeFunctions.

(** ** Client code: cursors and mutations *)

Section Clients.

Context {T : Type}.
Context (alloc : Allocator).

(** [std::next(it, k)]: [k] applications of [operator++]. *)
Fixpoint advance (k : nat) (it : BasicIterator) : M T BasicIterator :=
  match k with
  | O => ret it
  | S k' =>
      let* it' := iter_incr it in
      advance k' it'
  end.

(** The four mutators, with the cursor given as the number of steps from
    [before_begin()]. *)
Inductive mutation : Type :=
  | DoPushFront (x : T)
  | DoPopFront
  | DoInsertAfter (k : nat) (x : T)
  | DoEraseAfter (k : nat).

Definition mutate (this : loc) (μ : mutation) : M T unit :=
  match μ with
  | DoPushFront x => PushFront alloc this x
  | DoPopFront => PopFront this
  | DoInsertAfter k x =>
      let* b := before_begin this in
      let* pos := advance k b in
      InsertAfter alloc this pos x ;;;
      ret tt
  | DoEraseAfter k =>
      let* b := before_begin this in
      let* pos := advance k b in
      EraseAfter this pos ;;;
      ret tt
  end.

(** A mutation meets the contract of its mutator on a list of [n]
    elements: [PopFront] needs an element, [InsertAfter] a cursor of the
    list, [EraseAfter] a cursor with a successor. *)
Definition mutation_allowed (n : nat) (μ : mutation) : Prop :=
  match μ with
  | DoPushFront _ => True
  | DoPopFront => (0 < n)%nat
  | DoInsertAfter k _ => (k ≤ n)%nat
  | DoEraseAfter k => (k < n)%nat
  end.

(** What a mutation does to the sequence of elements. *)
Definition mutated (μ : mutation) (vs : list T) : list T :=
  match μ with
  | DoPushFront x => x :: vs
  | DoPopFront => tail vs
  | DoInsertAfter k x => take k vs ++ x :: drop k vs
  | DoEraseAfter k => take k vs ++ drop (S k) vs
  end.

(** The mutations that call [new]. *)
Definition allocates (μ : mutation) : bool :=
  match μ with
  | DoPushFront _ | DoInsertAfter _ _ => true
  | DoPopFront | DoEraseAfter _ => false
  end.

(** Mutations one after the other. *)
Fixpoint mutate_all (this : loc) (μs : list mutation) : M T unit :=
  match μs with
  | [] => ret tt
  | μ :: μs' =>
      mutate this μ ;;;
      mutate_all this μs'
  end.

Fixpoint mutations_allowed (vs : list T) (μs : list mutation) : Prop :=
  match μs with
  | [] => True
  | μ :: μs' => mutation_allowed (length vs) μ ∧ mutations_allowed (mutated μ vs) μs'
  end.

Fixpoint mutated_all (μs : list mutation) (vs : list T) : list T :=
  match μs with
  | [] => vs
  | μ :: μs' => mutated_all μs' (mutated μ vs)
  end.

(** The operations of the container. *)
Inductive operation : Type :=
  | OpDefault (this : loc)
  | OpInitializerList (this : loc) (values : list T)
  | OpCopy (this other : loc)
  | OpAssign (this rhs : loc)
  | OpMutate (this : loc) (μ : mutation)
  | OpClear (this : loc)
  | OpSwap (this other : loc).

Definition perform (fuel : nat) (op : operation) : M T unit :=
  match op with
  | OpDefault this => SingleLinkedList_default this
  | OpInitializerList this values => SingleLinkedList_init alloc fuel this values
  | OpCopy this other => SingleLinkedList_copy alloc fuel this other
  | OpAssign this rhs => assign alloc fuel this rhs ;;; ret tt
  | OpMutate this μ => mutate this μ
  | OpClear this => Clear fuel this
  | OpSwap this other => swap this other
  end.

(** The list at [l] is live and holds [n] elements. *)
Definition live (m : Mem T) (l : loc) (n : nat) : Prop :=
  GetSize l m = inr (Z.of_nat n, m).

(** The free store has room for [k] more nodes. *)
Definition room (m : Mem T) (k : nat) : Prop :=
  Z.of_nat (size (nodes m)) + Z.of_nat k ≤ capacity alloc.

(** The contract of each operation: constructors get storage that holds
    no list, the other operations live lists; the mutators their own
    contracts; [new] must not fail; and the loops of the model get
    enough fuel. *)
Definition operation_allowed (fuel : nat) (m : Mem T) (op : operation) : Prop :=
  match op with
  | OpDefault this => lists m !! this = None
  | OpInitializerList this values =>
      lists m !! this = None ∧ room m (length values) ∧ (length values < fuel)%nat
  | OpCopy this other =>
      lists m !! this = None ∧ ∃ n, live m other n ∧ room m n ∧ (n < fuel)%nat
  | OpAssign this rhs =>
      ∃ n k, live m this n ∧ live m rhs k ∧ room m k ∧ (n < fuel)%nat ∧ (k < fuel)%nat
  | OpMutate this μ =>
      ∃ n, live m this n ∧ mutation_allowed n μ ∧ (allocates μ = true → room m 1)
  | OpClear this => ∃ n, live m this n ∧ (n < fuel)%nat
  | OpSwap this other => (∃ n, live m this n) ∧ (∃ k, live m other k)
  end.

(** The two ways to make [this] a copy of [other]. *)
Inductive copy_how : Type := ByCopyConstruction | ByCopyAssignment.

Definition copy_into (fuel : nat) (how : copy_how) (this other : loc) : M T unit :=
  match how with
  | ByCopyConstruction => SingleLinkedList_copy alloc fuel this other
  | ByCopyAssignment => assign alloc fuel this other ;;; ret tt
  end.

Definition copy_target_allowed (fuel : nat) (how : copy_how) (m : Mem T) (this : loc) : Prop :=
  match how with
  | ByCopyConstruction => lists m !! this = None
  | ByCopyAssignment => ∃ n, live m this n ∧ (n < fuel)%nat
  end.

End Clients.

Arguments mutation : clear implicits.
Arguments operation : clear implicits.

(** ** What a client observes, and what the specification speaks of *)

Section Observations.

Context {T : Type} {E : ElementOps T}.

(** The list at [l] reads as the sequence [vs]: [GetSize()] is its length
    and a walk from [begin()] to [end()] yields it. *)
Definition reads_as (m : Mem T) (l : loc) (vs : list T) : Prop :=
  GetSize l m = inr (Z.of_nat (length vs), m)
  ∧ ∀ fuel, (length vs < fuel)%nat → elements fuel l m = inr (vs, m).

(** Same length and element-wise equal values in order, under the
    [operator==] of the element type. *)
Definition values_equal (xs ys : list T) : Prop :=
  Forall2 (λ x y, elem_eq x y = true) xs ys.


(** Lexicographic order under the [operator<] of the element type: at
    the first position where one element is less than the other the
    lesser one decides; a sequence that runs out first is the lesser. *)
Inductive lex_less : list T → list T → Prop :=
  | lex_less_nil y ys : lex_less [] (y :: ys)
  | lex_less_head x xs y ys :
      elem_lt x y = true → lex_less (x :: xs) (y :: ys)
  | lex_less_tail x xs y ys :
      elem_lt x y = false → elem_lt y x = false →
      lex_less xs ys → lex_less (x :: xs) (y :: ys).

(** What [std::equal] does on two sequences of values. *)
Fixpoint equal_outcome (xs ys : list T) : error + bool :=
  match xs, ys with
  | [], _ => inr true
  | _ :: _, [] => inl undefined_behavior
  | x :: xs', y :: ys' =>
      if negb (elem_eq x y) then inr false else equal_outcome xs' ys'
  end.

(** What [std::lexicographical_compare] does on two sequences of values. *)
Fixpoint lexicographical_outcome (xs ys : list T) : bool :=
  match xs, ys with
  | _, [] => false
  | [], _ :: _ => true
  | x :: xs', y :: ys' =>
      if elem_lt x y then true
      else if elem_lt y x then false
      else lexicographical_outcome xs' ys'
  end.

End Observations.

(** ** The abstract state *)

(** The chain of a list: the address and the value of each real node,
    from the first to the last. *)
Abbreviation chain T := (list (positive * T)).

Section Representation.

Context {T : Type}.

(** The pointer to the first node of a chain that is followed by [q]. *)
Definition first_ptr (q : Node_ptr) (cs : chain T) : Node_ptr :=
  match cs with
  | [] => q
  | (a, _) :: _ => cell a
  end.

(** The nodes of [cs] are live, hold the values of [cs], each links to
    the next one and the last one links to [q]. *)
Fixpoint linked (h : gmap positive (Node T)) (q : Node_ptr) (cs : chain T) : Prop :=
  match cs with
  | [] => True
  | (a, v) :: cs' => h !! a = Some (mkNode v (first_ptr q cs')) ∧ linked h q cs'
  end.

(** The list object that stands for a chain: the sentinel links to the
    first node, and the cached count is the number of nodes. *)
Definition list_repr (cs : chain T) : SingleLinkedList :=
  mkList (first_ptr nullptr cs) (Z.of_nat (length cs)).

(** [represents m σ]: the memory [m] holds exactly the lists of [σ], each
    as a null-terminated acyclic chain with the right count; no node
    belongs to two lists; every live node has a pointer-sized address. *)
Record represents (m : Mem T) (σ : gmap positive (chain T)) : Prop := {
  rep_lists : lists m = list_repr <$> σ;
  rep_linked : ∀ l cs, σ !! l = Some cs → linked (nodes m) nullptr cs;
  rep_nodup : ∀ l cs, σ !! l = Some cs → NoDup cs.*1;
  rep_disjoint : ∀ l1 l2 cs1 cs2 a,
    σ !! l1 = Some cs1 → σ !! l2 = Some cs2 → a ∈ cs1.*1 → a ∈ cs2.*1 → l1 = l2;
  rep_bound : ∀ a, is_Some (nodes m !! a) → Z.pos a < SIZE_MOD
}.

(** The invariant of the memory: it represents some abstract state. *)
Definition mem_invariant (m : Mem T) : Prop := ∃ σ, represents m σ.

(** [GetSize()] of the list at [l] is the number of real nodes reachable
    from the link of its sentinel. *)
Definition count_matches_chain (m : Mem T) (l : loc) : Prop :=
  ∃ cs, load_next (sentinel l) m = inr (first_ptr nullptr cs, m)
        ∧ linked (nodes m) nullptr cs
        ∧ GetSize l m = inr (Z.of_nat (length cs), m).

(** The node a valid cursor of a list refers to: the sentinel, or the
    real node just before index [k] of the chain. *)
Definition node_before (l : loc) (cs : chain T) (k : nat) : Node_ptr :=
  match k with
  | O => sentinel l
  | S j => first_ptr nullptr (drop j cs)
  end.

End Representation.

(** ** A first-fit allocator *)

(** Among the addresses [1 .. size X + 1] one is not in [X]; first fit
    takes the least. *)
Definition first_fit_candidates (X : gset positive) : list positive :=
  Pos.of_succ_nat <$> seq 0 (S (size X)).

Definition first_fit (X : gset positive) : option positive :=
  if bool_decide (Z.of_nat (size X) < SIZE_MOD - 1)
  then List.find (λ a, bool_decide (a ∉ X)) (first_fit_candidates X)
  else None.

Definition first_fit_allocator : Allocator := {|
  capacity := SIZE_MOD - 1;
  new_addr := first_fit
|}.

(** [int] elements. *)
#[global] Instance Z_ElementOps : ElementOps Z := {
  elem_eq := Z.eqb;
  elem_lt := Z.ltb
}.

(** [double] elements: the comparisons of IEEE 754 binary64, under which
    a NaN is equal to nothing, itself included. *)
#[global] Instance double_ElementOps : ElementOps PrimFloat.float := {
  elem_eq := PrimFloat.eqb;
  elem_lt := PrimFloat.ltb
}.

(** The memory before anything was constructed. *)
Definition empty_mem {T} : Mem T := mkMem ∅ ∅.

(** ** Concrete runs *)

(** The outcome of a run, without the final memory. *)
Definition result_of {T A} (r : error + A * Mem T) : error + A :=
  match r with
  | inl e => inl e
  | inr (a, _) => inr a
  end.

(** Two lists of integers, built from initializer lists at the addresses
    1 and 2 of an empty memory. *)
Definition two_lists (xs ys : list Z) : M Z unit :=
  SingleLinkedList_init first_fit_allocator (S (length xs)) 1%positive xs ;;;
  SingleLinkedList_init first_fit_allocator (S (length ys)) 2%positive ys.

(** A list of [double]s built from an initializer list at the address 1
    of an empty memory, and a copy of it made at the address 2: by the
    copy constructor, or by copy assignment to a list that was
    default-constructed there. *)
Definition list_and_copy (how : copy_how) (xs : list PrimFloat.float)
    : M PrimFloat.float unit :=
  SingleLinkedList_init first_fit_allocator (S (length xs)) 1%positive xs ;;;
  match how with
  | ByCopyConstruction => ret tt
  | ByCopyAssignment => SingleLinkedList_default 2%positive
  end ;;;
  copy_into first_fit_allocator (S (length xs)) how 2%positive 1%positive.

(** * The first-fit allocator keeps the laws *)

Lemma first_fit_fresh X a : first_fit X = Some a → a ∉ X.
Proof.
  unfold first_fit. case_bool_decide; [|done].
  intros [_ Hf]%List.find_some. by apply bool_decide_eq_true in Hf.
Qed.

Lemma first_fit_bound X a : first_fit X = Some a → Z.pos a < SIZE_MOD.
Proof.
  unfold first_fit, first_fit_candidates. case_bool_decide as Hsz; [|done].
  intros [Hin _]%List.find_some.
  apply list_elem_of_In, list_elem_of_fmap in Hin as (k & -> & Hk).
  apply elem_of_seq in Hk. lia.
Qed.

Lemma first_fit_succeeds X :
  Z.of_nat (size X) < SIZE_MOD - 1 → is_Some (first_fit X).
Proof.
  intros Hsz. unfold first_fit. rewrite bool_decide_eq_true_2 by done.
  destruct (List.find _ _) as [a|] eqn:Hfind; [by eexists|exfalso].
  assert (Hall : ∀ a, a ∈ first_fit_candidates X → a ∈ X).
  { intros a Ha%list_elem_of_In.
    pose proof (List.find_none _ _ Hfind a Ha) as Hf. simpl in Hf.
    apply bool_decide_eq_false in Hf. by apply dec_stable. }
  assert (Hnd : NoDup (first_fit_candidates X)).
  { apply NoDup_fmap_2; [intros ?? ?%SuccNat2Pos.inj; done | apply NoDup_seq]. }
  assert (Hle : (length (first_fit_candidates X) ≤ size X)%nat).
  { rewrite <- (size_list_to_set (C := gset positive)) by done.
    apply subseteq_size. intros a Ha%elem_of_list_to_set. auto. }
  unfold first_fit_candidates in Hle.
  rewrite length_fmap, length_seq in Hle. lia.
Qed.

Lemma first_fit_laws : allocator_laws first_fit_allocator.
Proof.
  split; [exact first_fit_fresh | exact first_fit_bound | exact first_fit_succeeds].
Qed.

(** * Properties of chains *)

Section ChainLemmas.

Context {T : Type}.
Implicit Types (h : gmap positive (Node T)) (cs : chain T) (q : Node_ptr).

Lemma first_ptr_app q cs1 cs2 :
  first_ptr q (cs1 ++ cs2) = first_ptr (first_ptr q cs2) cs1.
Proof. by destruct cs1 as [|[a v] cs1]. Qed.

Lemma linked_app h q cs1 cs2 :
  linked h q (cs1 ++ cs2) ↔ linked h (first_ptr q cs2) cs1 ∧ linked h q cs2.
Proof.
  induction cs1 as [|[a v] cs1 IH]; simpl; [tauto|].
  rewrite IH, first_ptr_app. tauto.
Qed.

(** A chain only depends on its own nodes. *)
Lemma linked_agree h h' q cs :
  linked h q cs → (∀ a, a ∈ cs.*1 → h' !! a = h !! a) → linked h' q cs.
Proof.
  induction cs as [|[a v] cs IH]; simpl; [done|].
  intros [Ha Hcs] Hagree. split.
  - rewrite Hagree; [done|]. by left.
  - apply IH; [done|]. intros b Hb. apply Hagree. by right.
Qed.

Lemma linked_live h q cs a :
  linked h q cs → a ∈ cs.*1 → is_Some (h !! a).
Proof.
  induction cs as [|[b v] cs IH]; simpl; [set_solver|].
  intros [Hb Hcs] Hin. apply elem_of_cons in Hin as [Heq|Ha]; [|auto].
  subst a. by eexists.
Qed.

Lemma linked_lookup h q cs k a v :
  linked h q cs → cs !! k = Some (a, v) →
  h !! a = Some (mkNode v (first_ptr q (drop (S k) cs))).
Proof.
  revert k. induction cs as [|[b w] cs IH]; intros k; [done|].
  simpl. intros [Hb Hcs]. destruct k as [|k]; simpl.
  - intros [= -> ->]. by rewrite drop_0.
  - intros Hk. by apply IH.
Qed.

Lemma linked_middle h q pre b v post :
  linked h q (pre ++ (b, v) :: post) ↔
  linked h (cell b) pre ∧ h !! b = Some (mkNode v (first_ptr q post)) ∧ linked h q post.
Proof. by rewrite linked_app. Qed.

Lemma NoDup_middle (pre post : chain T) b v :
  NoDup (pre ++ (b, v) :: post).*1 →
  (b ∉ pre.*1) ∧ (b ∉ post.*1) ∧ NoDup (pre ++ post).*1.
Proof.
  rewrite !fmap_app, fmap_cons. simpl.
  intros (Hpre & Hdj & [Hb Hpost]%NoDup_cons)%NoDup_app.
  split_and!; [| done |].
  - intros Hin. apply (Hdj b Hin). by left.
  - apply NoDup_app. split_and!; [done | | done].
    intros a Ha Ha'. apply (Hdj a Ha). by right.
Qed.

(** Distinct pointer-sized addresses are fewer than [SIZE_MOD]. *)
Lemma distinct_addresses_bound (l : list positive) :
  NoDup l → (∀ a, a ∈ l → Z.pos a < SIZE_MOD) → Z.of_nat (length l) < SIZE_MOD - 1 + 1.
Proof.
  intros Hnd Hb.
  set (n := Z.to_nat (SIZE_MOD - 1)).
  assert (Hsub : Pos.to_nat <$> l ⊆+ seq 1 n).
  { apply NoDup_submseteq.
    - apply NoDup_fmap_2; [exact Pos2Nat.inj | done].
    - intros x (a & -> & Ha)%list_elem_of_fmap. apply elem_of_seq.
      specialize (Hb a Ha). subst n. lia. }
  apply submseteq_length in Hsub.
  rewrite length_fmap, length_seq in Hsub. subst n.
  assert (0 < SIZE_MOD) by done. lia.
Qed.

End ChainLemmas.

(** * Updating the abstract state *)

Section RepresentsLemmas.

Context {T : Type}.
Implicit Types (h : gmap positive (Node T)) (ls : gmap positive SingleLinkedList).
Implicit Types (cs : chain T) (σ : gmap positive (chain T)).

Lemma represents_lookup m σ l cs :
  represents m σ → σ !! l = Some cs → lists m !! l = Some (list_repr cs).
Proof. intros [-> _ _ _ _] Hl. by rewrite lookup_fmap, Hl. Qed.

Lemma represents_lookup_None m σ l :
  represents m σ → σ !! l = None → lists m !! l = None.
Proof. intros [-> _ _ _ _] Hl. by rewrite lookup_fmap, Hl. Qed.

(** The chain of one list is replaced; the live nodes outside its old
    chain are left alone and the new nodes were not live. *)
Lemma represents_update h ls σ l cs cs' h' :
  represents (mkMem h ls) σ →
  σ !! l = Some cs →
  linked h' nullptr cs' →
  NoDup cs'.*1 →
  (∀ a, a ∈ cs'.*1 → a ∈ cs.*1 ∨ h !! a = None) →
  (∀ a, a ∉ cs.*1 → is_Some (h !! a) → h' !! a = h !! a) →
  (∀ a, is_Some (h' !! a) → Z.pos a < SIZE_MOD) →
  represents (mkMem h' (<[l := list_repr cs']> ls)) (<[l := cs']> σ).
Proof.
  intros [Hls Hlk Hnd Hdj Hbd] Hl Hlk' Hnd' Hnew Hframe Hbd'. simpl in *.
  assert (Hother : ∀ l0 cs0 a, l0 ≠ l → σ !! l0 = Some cs0 → a ∈ cs0.*1 →
                   (a ∉ cs.*1) ∧ is_Some (h !! a)).
  { intros l0 cs0 a Hne Hl0 Ha. split.
    - intros Hin. by apply Hne, (Hdj l0 l cs0 cs a).
    - eapply linked_live; eauto. }
  split; simpl.
  - by rewrite fmap_insert, Hls.
  - intros l0 cs0. destruct (decide (l0 = l)) as [->|Hne].
    + rewrite lookup_insert_eq. by intros [= <-].
    + rewrite lookup_insert_ne by done. intros Hl0.
      eapply linked_agree; [by eapply Hlk|].
      intros a Ha. destruct (Hother l0 cs0 a) as [? ?]; auto.
  - intros l0 cs0. destruct (decide (l0 = l)) as [->|Hne].
    + rewrite lookup_insert_eq. by intros [= <-].
    + rewrite lookup_insert_ne by done. eauto.
  - intros l1 l2 cs1 cs2 a.
    destruct (decide (l1 = l)) as [->|Hne1], (decide (l2 = l)) as [->|Hne2];
      rewrite ?lookup_insert_eq, ?lookup_insert_ne by done; try done.
    + intros [= <-] Hl2 Ha1 Ha2. exfalso.
      destruct (Hother l2 cs2 a) as [Hnin [x Hx]]; auto.
      destruct (Hnew a Ha1); [done|congruence].
    + intros Hl1 [= <-] Ha1 Ha2. exfalso.
      destruct (Hother l1 cs1 a) as [Hnin [x Hx]]; auto.
      destruct (Hnew a Ha2); [done|congruence].
    + eauto.
  - done.
Qed.

(** A new, empty list. *)
Lemma represents_new h ls σ l :
  represents (mkMem h ls) σ →
  σ !! l = None →
  represents (mkMem h (<[l := mkList nullptr 0]> ls)) (<[l := []]> σ).
Proof.
  intros [Hls Hlk Hnd Hdj Hbd] Hl. simpl in *. split; simpl.
  - by rewrite fmap_insert, Hls.
  - intros l0 cs0. destruct (decide (l0 = l)) as [->|Hne].
    + rewrite lookup_insert_eq. by intros [= <-].
    + rewrite lookup_insert_ne by done. eauto.
  - intros l0 cs0. destruct (decide (l0 = l)) as [->|Hne].
    + rewrite lookup_insert_eq. intros [= <-]. constructor.
    + rewrite lookup_insert_ne by done. eauto.
  - intros l1 l2 cs1 cs2 a.
    destruct (decide (l1 = l)) as [->|Hne1], (decide (l2 = l)) as [->|Hne2];
      rewrite ?lookup_insert_eq, ?lookup_insert_ne by done; try done.
    + intros [= <-] _ Ha. by apply elem_of_nil in Ha.
    + intros _ [= <-] _ Ha. by apply elem_of_nil in Ha.
    + eauto.
  - done.
Qed.

(** A list object goes away. *)
Lemma represents_release h ls σ l :
  represents (mkMem h ls) σ →
  represents (mkMem h (delete l ls)) (delete l σ).
Proof.
  intros [Hls Hlk Hnd Hdj Hbd]. simpl in *. split; simpl.
  - by rewrite fmap_delete, Hls.
  - intros l0 cs0 [_ Hl0]%lookup_delete_Some. eauto.
  - intros l0 cs0 [_ Hl0]%lookup_delete_Some. eauto.
  - intros l1 l2 cs1 cs2 a [_ Hl1]%lookup_delete_Some [_ Hl2]%lookup_delete_Some. eauto.
  - done.
Qed.

(** Two lists exchange their chains. *)
Lemma represents_swap h ls σ l1 l2 cs1 cs2 :
  represents (mkMem h ls) σ →
  σ !! l1 = Some cs1 →
  σ !! l2 = Some cs2 →
  represents (mkMem h (<[l2 := list_repr cs1]> (<[l1 := list_repr cs2]> ls)))
             (<[l2 := cs1]> (<[l1 := cs2]> σ)).
Proof.
  intros [Hls Hlk Hnd Hdj Hbd] Hl1 Hl2. simpl in *.
  set (π := λ l : positive, if decide (l = l2) then l1 else if decide (l = l1) then l2 else l).
  assert (Hπ : ∀ l, <[l2 := cs1]> (<[l1 := cs2]> σ) !! l = σ !! π l).
  { intros l. unfold π. destruct (decide (l = l2)) as [->|?].
    - by rewrite lookup_insert_eq.
    - rewrite lookup_insert_ne by done. destruct (decide (l = l1)) as [->|?].
      + by rewrite lookup_insert_eq.
      + by rewrite lookup_insert_ne. }
  assert (Hinj : ∀ l l', π l = π l' → l = l').
  { intros l l'. unfold π. repeat case_decide; congruence. }
  split; simpl.
  - by rewrite !fmap_insert, Hls.
  - intros l cs. rewrite Hπ. eauto.
  - intros l cs. rewrite Hπ. eauto.
  - intros la lb csa csb a. rewrite !Hπ. intros. apply Hinj. eauto.
  - done.
Qed.

End RepresentsLemmas.

(** * The member functions against the abstract state *)

Lemma size_t_wrap_small z : 0 ≤ z < SIZE_MOD → size_t_wrap z = z.
Proof. intros. unfold size_t_wrap. by apply Z.mod_small. Qed.

(** Running a member function on a memory whose lookups are known. *)
Ltac run_lookup :=
  first
    [ rewrite lookup_insert_eq
    | rewrite lookup_insert_ne by done
    | rewrite lookup_delete_eq
    | rewrite lookup_delete_ne by done
    | match goal with
      | H : ?m !! ?k = _ |- context [?m !! ?k] => rewrite H
      end ];
  simpl.

(** Reading a list object back as the representation of a chain. *)
Ltac fold_list_repr cs :=
  match goal with
  | |- represents (mkMem _ (<[_ := ?o]> _)) _ =>
      replace o with (list_repr cs);
      [| unfold list_repr; f_equal;
         rewrite ?first_ptr_app, ?length_app; simpl; try done; try lia ]
  end.

Ltac run :=
  unfold bind, ret, throw, load_next, store_next, load_value, load_size,
    store_size, new_Node, delete_Node; simpl;
  repeat run_lookup.

(** Equality of abstract states built from inserts and deletes. *)
Ltac solve_map_eq :=
  apply map_eq; intros ?;
  repeat first [rewrite lookup_insert | rewrite lookup_delete | case_decide];
  simplify_eq; try done; try congruence.

Section MemberSpecs.

Context {T : Type}.
Implicit Types (h : gmap positive (Node T)) (ls : gmap positive SingleLinkedList).
Implicit Types (cs : chain T) (σ : gmap positive (chain T)) (m : Mem T).

Lemma chain_length_lt m σ l cs :
  represents m σ → σ !! l = Some cs → Z.of_nat (length cs) < SIZE_MOD.
Proof.
  intros Hr Hl.
  pose proof (distinct_addresses_bound (cs.*1)) as Hb.
  rewrite length_fmap in Hb.
  assert (Z.of_nat (length cs) < SIZE_MOD - 1 + 1); [|lia].
  apply Hb; [by eapply rep_nodup|].
  intros a Ha. eapply rep_bound; [done|]. eapply linked_live; [|done].
  by eapply rep_linked.
Qed.

Lemma chain_length_succ_lt m σ l cs a :
  represents m σ → σ !! l = Some cs →
  nodes m !! a = None → Z.pos a < SIZE_MOD →
  Z.of_nat (length cs) + 1 < SIZE_MOD.
Proof.
  intros Hr Hl Ha Hba.
  pose proof (distinct_addresses_bound (a :: cs.*1)) as Hb.
  simpl in Hb. rewrite length_fmap in Hb.
  assert (Z.of_nat (S (length cs)) < SIZE_MOD - 1 + 1); [|lia].
  assert (Hlive : ∀ b, b ∈ cs.*1 → is_Some (nodes m !! b)).
  { intros b Hin. eapply linked_live; [|done]. by eapply rep_linked. }
  apply Hb.
  - constructor; [|by eapply rep_nodup].
    intros Hin. apply Hlive in Hin as [? ?]. congruence.
  - intros b [->|Hin]%elem_of_cons; [done|].
    eapply rep_bound; eauto.
Qed.

Lemma PopFront_spec m σ l c w rest :
  represents m σ → σ !! l = Some ((c, w) :: rest) →
  ∃ m', PopFront l m = inr (tt, m')
        ∧ nodes m' = delete c (nodes m)
        ∧ represents m' (<[l := rest]> σ).
Proof.
  intros Hr Hl.
  pose proof (represents_lookup _ _ _ _ Hr Hl) as Hls.
  pose proof (chain_length_lt _ _ _ _ Hr Hl) as Hlen.
  pose proof (rep_linked _ _ Hr _ _ Hl) as [Hc Hlk].
  pose proof (rep_nodup _ _ Hr _ _ Hl) as [Hcrest Hnd]%NoDup_cons.
  destruct m as [h ls]; simpl in *.
  eexists. split; [|split].
  - unfold PopFront, decr_size. run. reflexivity.
  - done.
  - simpl. rewrite insert_insert_eq, size_t_wrap_small by lia.
    fold_list_repr rest.
    eapply (represents_update h ls σ l _ rest); try done.
    + eapply linked_agree; [done|]. intros a Ha.
      rewrite lookup_delete_ne; [done|]. by intros ->.
    + intros a Ha. left. by right.
    + intros a Ha _. rewrite lookup_delete_ne; [done|].
      intros ->. apply Ha. by left.
    + intros a [? Ha]. apply lookup_delete_Some in Ha as [_ Ha].
      eapply (rep_bound _ _ Hr). by eexists.
Qed.

(** [EraseAfter] at the sentinel runs the statements of [PopFront]. *)
Lemma EraseAfter_sentinel l m :
  EraseAfter l (Iterator (sentinel l)) m = (PopFront l ;;; list_begin l) m.
Proof.
  destruct m as [h ls].
  unfold EraseAfter, PopFront, list_begin, decr_size.
  destruct (ls !! l) as [o|] eqn:Hl; run; [|done].
  destruct (head_next_node o) as [|l'|c] eqn:Ho; run; [done| |].
  - destruct (ls !! l') as [o'|] eqn:Hl'; by run.
  - destruct (h !! c) as [n|] eqn:Hc; by run.
Qed.

Lemma EraseAfter_cell_spec m σ l pre b v c w post :
  represents m σ → σ !! l = Some (pre ++ (b, v) :: (c, w) :: post) →
  ∃ m', EraseAfter l (Iterator (cell b)) m
          = inr (Iterator (first_ptr nullptr post), m')
        ∧ nodes m' = delete c (<[b := mkNode v (first_ptr nullptr post)]> (nodes m))
        ∧ represents m' (<[l := pre ++ (b, v) :: post]> σ).
Proof.
  intros Hr Hl.
  pose proof (represents_lookup _ _ _ _ Hr Hl) as Hls.
  pose proof (chain_length_lt _ _ _ _ Hr Hl) as Hlen.
  pose proof (rep_linked _ _ Hr _ _ Hl) as Hlk.
  pose proof (rep_nodup _ _ Hr _ _ Hl) as Hnd.
  destruct m as [h ls]; simpl in *.
  pose proof Hlk as (Hpre & Hb & Hc & Hpost)%linked_middle.
  simpl in Hb.
  apply NoDup_middle in Hnd as (Hbpre & Hbpost & Hnd).
  assert (Hbc : b ≠ c).
  { intros ->. apply Hbpost. by left. }
  assert (Hbpost' : b ∉ post.*1).
  { intros Hin. apply Hbpost. by right. }
  rewrite fmap_app, fmap_cons in Hnd. simpl in Hnd.
  apply NoDup_app in Hnd as (Hn1 & Hdj & [Hcpost Hn2]%NoDup_cons).
  assert (Hcpre : c ∉ pre.*1).
  { intros Hin. apply (Hdj c Hin). by left. }
  rewrite length_app in Hlen. simpl in Hlen.
  eexists. split; [|split].
  - unfold EraseAfter, decr_size. run. reflexivity.
  - done.
  - simpl. rewrite length_app. simpl. rewrite size_t_wrap_small by lia.
    fold_list_repr (pre ++ (b, v) :: post).
    eapply (represents_update h ls σ l _ (pre ++ (b, v) :: post)); try done.
    + apply linked_middle. split_and!.
      * eapply linked_agree; [done|]. intros a Ha.
        rewrite lookup_delete_ne by (by intros ->).
        rewrite lookup_insert_ne by (by intros ->). done.
      * rewrite lookup_delete_ne by done. by rewrite lookup_insert_eq.
      * eapply linked_agree; [done|]. intros a Ha.
        rewrite lookup_delete_ne by (by intros ->).
        rewrite lookup_insert_ne by (by intros ->). done.
    + rewrite fmap_app, fmap_cons. simpl. apply NoDup_app. split_and!; [done| |].
      * intros a Ha [->|Ha']%elem_of_cons; [done|].
        apply (Hdj a Ha). by right.
      * by constructor.
    + intros a. rewrite !fmap_app, !fmap_cons. simpl.
      rewrite !elem_of_app, !elem_of_cons. naive_solver.
    + intros a Ha _.
      rewrite lookup_delete_ne, lookup_insert_ne; [done| |];
        intros ->; apply Ha; rewrite fmap_app, !fmap_cons; set_solver.
    + intros a [? Ha]. apply lookup_delete_Some in Ha as [_ Ha].
      destruct (decide (a = b)) as [->|?].
      * eapply (rep_bound _ _ Hr). by eexists.
      * rewrite lookup_insert_ne in Ha by done. eapply (rep_bound _ _ Hr). by eexists.
Qed.

(** The cursor [k] steps after [before_begin()]. *)
Lemma advance_in_chain m σ l cs j k :
  represents m σ → σ !! l = Some cs → (j + k ≤ length cs)%nat →
  advance k (Iterator (first_ptr nullptr (drop j cs))) m
  = inr (Iterator (first_ptr nullptr (drop (j + k) cs)), m).
Proof.
  intros Hr Hl. revert j. induction k as [|k IH]; intros j Hjk; simpl.
  - by rewrite Nat.add_0_r.
  - destruct (lookup_lt_is_Some_2 cs j) as [[b v] Hj]; [lia|].
    pose proof (linked_lookup _ _ _ _ _ _ (rep_linked _ _ Hr _ _ Hl) Hj) as Hb.
    rewrite (drop_S _ _ _ Hj). simpl.
    unfold iter_incr. run.
    rewrite IH by lia. by replace (S j + k)%nat with (j + S k)%nat by lia.
Qed.

Lemma advance_before_begin m σ l cs k :
  represents m σ → σ !! l = Some cs → (k ≤ length cs)%nat →
  advance k (Iterator (sentinel l)) m = inr (Iterator (node_before l cs k), m).
Proof.
  intros Hr Hl Hk. destruct k as [|k]; [done|]. simpl.
  unfold iter_incr. run. rewrite (represents_lookup _ _ _ _ Hr Hl). simpl.
  rewrite <- (drop_0 cs) at 1.
  rewrite (advance_in_chain m σ l cs 0 k) by (done || lia). done.
Qed.

Lemma EraseAfter_spec m σ l cs k :
  represents m σ → σ !! l = Some cs → (k < length cs)%nat →
  ∃ m', EraseAfter l (Iterator (node_before l cs k)) m
          = inr (Iterator (first_ptr nullptr (drop (S k) cs)), m')
        ∧ (size (nodes m') < size (nodes m))%nat
        ∧ represents m' (<[l := take k cs ++ drop (S k) cs]> σ).
Proof.
  intros Hr Hl Hk.
  destruct (lookup_lt_is_Some_2 cs k) as [[c w] Hc]; [lia|].
  pose proof (linked_lookup _ _ _ _ _ _ (rep_linked _ _ Hr _ _ Hl) Hc) as Hlc.
  destruct k as [|j].
  - destruct cs as [|[c' w'] rest]; simplify_eq/=.
    destruct (PopFront_spec m σ l c w rest) as (m' & Hrun & Hn & Hr'); try done.
    exists m'. rewrite drop_0. split_and!; [| |done].
    + rewrite EraseAfter_sentinel. unfold bind. rewrite Hrun.
      unfold list_begin. run.
      rewrite (represents_lookup _ _ l _ Hr') by apply lookup_insert_eq. done.
    + rewrite Hn. rewrite map_size_delete, Hlc.
      pose proof (map_size_non_empty_iff (nodes m)) as Hne.
      assert (size (nodes m) ≠ 0%nat); [|lia].
      apply Hne. intros Hempty. rewrite Hempty in Hlc. done.
  - destruct (lookup_lt_is_Some_2 cs j) as [[b v] Hj]; [lia|].
    simpl. rewrite (drop_S _ _ _ Hj). simpl.
    pose proof (take_drop_middle _ _ _ Hj) as Hsplit.
    rewrite (drop_S _ _ _ Hc) in Hsplit.
    destruct (EraseAfter_cell_spec m σ l (take j cs) b v c w (drop (S (S j)) cs))
      as (m' & Hrun & Hn & Hr'); try done.
    { by rewrite Hsplit. }
    exists m'. split_and!; [done| |].
    + rewrite Hn. rewrite map_size_delete.
      pose proof (linked_lookup _ _ _ _ _ _ (rep_linked _ _ Hr _ _ Hl) Hj) as Hb.
      assert (Hbc : b ≠ c).
      { intros Heq. pose proof (rep_nodup _ _ Hr _ _ Hl) as Hnd.
        assert (H1 : cs.*1 !! j = Some b) by (by rewrite list_lookup_fmap, Hj).
        assert (H2 : cs.*1 !! S j = Some b) by (by rewrite list_lookup_fmap, Hc, Heq).
        pose proof (NoDup_lookup _ _ _ _ Hnd H1 H2). lia. }
      rewrite lookup_insert_ne, Hlc by done.
      rewrite map_size_insert_Some by (by eexists).
      pose proof (map_size_non_empty_iff (nodes m)) as Hne.
      assert (size (nodes m) ≠ 0%nat); [|lia].
      apply Hne. intros Hempty. rewrite Hempty in Hlc. done.
    + rewrite (take_S_r _ _ _ Hj), <- app_assoc. done.
Qed.

Lemma swap_spec m σ l1 l2 cs1 cs2 :
  represents m σ → σ !! l1 = Some cs1 → σ !! l2 = Some cs2 →
  ∃ m', swap l1 l2 m = inr (tt, m')
        ∧ nodes m' = nodes m
        ∧ represents m' (<[l2 := cs1]> (<[l1 := cs2]> σ)).
Proof.
  intros Hr Hl1 Hl2.
  pose proof (represents_lookup _ _ _ _ Hr Hl1) as Hls1.
  pose proof (represents_lookup _ _ _ _ Hr Hl2) as Hls2.
  destruct m as [h ls]; simpl in *.
  exists (mkMem h (<[l2 := list_repr cs1]> (<[l1 := list_repr cs2]> ls))).
  split; [|split; [done|by apply represents_swap]].
  unfold swap. destruct (decide (l1 = l2)) as [->|Hne].
  - simplify_eq. run. by rewrite !insert_insert_eq.
  - run.
    match goal with
    | |- inr (_, mkMem _ ?x) = inr (_, mkMem _ ?y) => assert (x = y) as ->; [|done]
    end.
    apply map_eq. intros k.
    destruct (decide (k = l2)) as [Hk2|?], (decide (k = l1)) as [Hk1|?];
      subst; by repeat run_lookup.
Qed.

Lemma init_members_spec m σ l :
  represents m σ → σ !! l = None →
  ∃ m', init_members l m = inr (tt, m')
        ∧ nodes m' = nodes m
        ∧ represents m' (<[l := []]> σ).
Proof.
  intros Hr Hl.
  pose proof (represents_lookup_None _ _ _ Hr Hl) as Hls.
  destruct m as [h ls]; simpl in *.
  eexists. split; [|split].
  - unfold init_members. run. reflexivity.
  - done.
  - by apply represents_new.
Qed.

Lemma release_spec m σ l cs :
  represents m σ → σ !! l = Some cs →
  ∃ m', release l m = inr (tt, m')
        ∧ nodes m' = nodes m
        ∧ represents m' (delete l σ).
Proof.
  intros Hr Hl.
  pose proof (represents_lookup _ _ _ _ Hr Hl) as Hls.
  destruct m as [h ls]; simpl in *.
  eexists. split; [|split].
  - unfold release. run. reflexivity.
  - done.
  - by apply represents_release.
Qed.

Lemma local_storage_fresh m σ :
  represents m σ → σ !! fresh (dom (lists m)) = None.
Proof.
  intros Hr. apply not_elem_of_dom.
  replace (dom σ) with (dom (lists m)); [apply is_fresh|].
  by rewrite (rep_lists _ _ Hr), dom_fmap_L.
Qed.

(** The nodes that are left when a chain has been freed from the front. *)
Lemma Clear_loop_run l cs : ∀ fuel h ls o,
  linked h nullptr cs → NoDup cs.*1 → (length cs < fuel)%nat →
  ls !! l = Some o → head_next_node o = first_ptr nullptr cs →
  ∃ h', Clear_loop fuel l (mkMem h ls)
          = inr (tt, mkMem h' (<[l := mkList nullptr (size_ o)]> ls))
        ∧ ∀ a, h' !! a = if decide (a ∈ cs.*1) then None else h !! a.
Proof.
  induction cs as [|[c w] cs IH]; intros fuel h ls [p z] Hlk Hnd Hfuel Hl Ho;
    (destruct fuel as [|fuel]; [simpl in Hfuel; lia|]); simpl in *; subst p.
  - exists h. split; [|done].
    run. by rewrite insert_id.
  - destruct Hlk as [Hc Hlk]. apply NoDup_cons in Hnd as [Hccs Hnd].
    destruct (IH fuel (delete c h)
                (<[l := mkList (first_ptr nullptr cs) z]> ls)
                (mkList (first_ptr nullptr cs) z)) as (h' & Hrun & Hh').
    + eapply linked_agree; [done|]. intros a Ha.
      rewrite lookup_delete_ne; [done|]. by intros ->.
    + done.
    + lia.
    + apply lookup_insert_eq.
    + done.
    + exists h'. split.
      * run. simpl in Hrun.
        rewrite Hrun. by rewrite insert_insert_eq.
      * intros a. rewrite Hh'. destruct (decide (a = c)) as [->|Hne].
        -- rewrite lookup_delete_eq.
           repeat case_decide; try done.
           all: exfalso; match goal with H : _ ∉ _ :: _ |- _ => apply H end; by left.
        -- rewrite lookup_delete_ne by done.
           repeat case_decide; try done; exfalso.
           ++ match goal with H : _ ∉ _ :: _ |- _ => apply H end. by right.
           ++ match goal with H : _ ∈ _ :: _ |- _ => apply elem_of_cons in H as [?|?] end;
                done.
Qed.

Lemma Clear_spec m σ l cs fuel :
  represents m σ → σ !! l = Some cs → (length cs < fuel)%nat →
  ∃ m', Clear fuel l m = inr (tt, m')
        ∧ (size (nodes m') ≤ size (nodes m))%nat
        ∧ represents m' (<[l := []]> σ).
Proof.
  intros Hr Hl Hfuel.
  pose proof (represents_lookup _ _ _ _ Hr Hl) as Hls.
  pose proof (rep_linked _ _ Hr _ _ Hl) as Hlk.
  pose proof (rep_nodup _ _ Hr _ _ Hl) as Hnd.
  destruct m as [h ls]; simpl in *.
  destruct (Clear_loop_run l cs fuel h ls _ Hlk Hnd Hfuel Hls eq_refl)
    as (h' & Hrun & Hh').
  eexists. split; [|split].
  - unfold Clear, bind. rewrite Hrun. run. reflexivity.
  - simpl. apply map_subseteq_size, map_subseteq_spec.
    intros a n. rewrite Hh'. by case_decide.
  - simpl. rewrite insert_insert_eq. fold_list_repr (@nil (positive * T)).
    eapply (represents_update h ls σ l cs []); try done.
    + constructor.
    + intros a Ha. by apply elem_of_nil in Ha.
    + intros a Ha _. rewrite Hh'. by rewrite decide_False.
    + intros a [n Ha]. rewrite Hh' in Ha. case_decide; [done|].
      eapply (rep_bound _ _ Hr). by eexists.
Qed.

(** Reading a link back after it was written, and across a change of
    the count. *)
Lemma load_next_store_next p q m m' :
  store_next p q m = inr (tt, m') → load_next p m' = inr (q, m').
Proof.
  destruct m as [h ls], p as [|l|a]; unfold store_next, load_next; simpl; [done| |].
  - destruct (ls !! l); [|done]. intros [= <-]. simpl. by rewrite lookup_insert_eq.
  - destruct (h !! a); [|done]. intros [= <-]. simpl. by rewrite lookup_insert_eq.
Qed.

Lemma load_next_incr_size p q l m m' :
  incr_size l m = inr (tt, m') → load_next p m = inr (q, m) →
  load_next p m' = inr (q, m').
Proof.
  destruct m as [h ls]. unfold incr_size, bind, load_size, store_size. simpl.
  destruct (ls !! l) as [o|] eqn:Hl; simpl; [|done]. rewrite Hl.
  intros [= <-]. destruct p as [|l'|a]; unfold load_next; simpl; [done| |].
  - destruct (decide (l' = l)) as [->|?].
    + rewrite Hl, lookup_insert_eq. simpl. by intros [= <-].
    + rewrite lookup_insert_ne by done. destruct (ls !! l'); [|done]. by intros [= <-].
  - destruct (h !! a); [|done]. by intros [= <-].
Qed.

Lemma load_next_node_before m σ l cs k :
  represents m σ → σ !! l = Some cs → (k ≤ length cs)%nat →
  load_next (node_before l cs k) m = inr (first_ptr nullptr (drop k cs), m).
Proof.
  intros Hr Hl Hk. destruct k as [|j]; simpl.
  - unfold load_next. by rewrite (represents_lookup _ _ _ _ Hr Hl), drop_0.
  - destruct (lookup_lt_is_Some_2 cs j) as [[b v] Hj]; [lia|].
    rewrite (drop_S _ _ _ Hj). simpl. unfold load_next.
    by rewrite (linked_lookup _ _ _ _ _ _ (rep_linked _ _ Hr _ _ Hl) Hj).
Qed.

Lemma node_before_snoc l cs a v :
  node_before l (cs ++ [(a, v)]) (length (cs ++ [(a, v)])) = cell a.
Proof.
  rewrite length_app, Nat.add_comm. simpl.
  by rewrite drop_app_length.
Qed.

Lemma SingleLinkedList_destroy_spec m σ l cs fuel :
  represents m σ → σ !! l = Some cs → (length cs < fuel)%nat →
  ∃ m', SingleLinkedList_destroy fuel l m = inr (tt, m')
        ∧ (size (nodes m') ≤ size (nodes m))%nat
        ∧ represents m' (delete l σ).
Proof.
  intros Hr Hl Hfuel.
  destruct (Clear_spec m σ l cs fuel) as (m1 & Hrun1 & Hsz1 & Hr1); try done.
  destruct (release_spec m1 _ l [] Hr1) as (m2 & Hrun2 & Hn2 & Hr2).
  { apply lookup_insert_eq. }
  exists m2. split_and!.
  - unfold SingleLinkedList_destroy, bind. by rewrite Hrun1.
  - by rewrite Hn2.
  - by rewrite delete_insert_eq in Hr2.
Qed.

End MemberSpecs.

(** * The member functions that allocate *)

Section AllocatingMemberSpecs.

Context {T : Type}.
Context (alloc : Allocator) (alloc_ok : allocator_laws alloc).
Implicit Types (h : gmap positive (Node T)) (ls : gmap positive SingleLinkedList).
Implicit Types (cs : chain T) (σ : gmap positive (chain T)) (m : Mem T).

Lemma PushFront_spec m σ l cs x :
  represents m σ → σ !! l = Some cs →
  Z.of_nat (size (nodes m)) < capacity alloc →
  ∃ a m', new_addr alloc (dom (nodes m)) = Some a
          ∧ PushFront alloc l x m = inr (tt, m')
          ∧ nodes m' = <[a := mkNode x (first_ptr nullptr cs)]> (nodes m)
          ∧ represents m' (<[l := (a, x) :: cs]> σ).
Proof using alloc_ok.
  intros Hr Hl Hcap.
  pose proof (represents_lookup _ _ _ _ Hr Hl) as Hls.
  destruct (new_addr_succeeds alloc alloc_ok (dom (nodes m))) as [a Ha].
  { by rewrite size_dom. }
  pose proof (new_addr_fresh alloc alloc_ok _ _ Ha) as Hfresh%not_elem_of_dom.
  pose proof (new_addr_bound alloc alloc_ok _ _ Ha) as Hbound.
  pose proof (chain_length_succ_lt _ _ _ _ _ Hr Hl Hfresh Hbound) as Hlen.
  destruct m as [h ls]; simpl in *.
  exists a. eexists. split; [done|]. split; [|split].
  - unfold PushFront, incr_size. run. rewrite Ha. run. reflexivity.
  - done.
  - simpl. rewrite insert_insert_eq, size_t_wrap_small by lia.
    fold_list_repr ((a, x) :: cs).
    eapply (represents_update h ls σ l cs ((a, x) :: cs)); try done.
    + simpl. split; [by rewrite lookup_insert_eq|].
      eapply linked_agree; [by eapply (rep_linked _ _ Hr)|].
      intros b Hb. rewrite lookup_insert_ne; [done|].
      intros ->. eapply linked_live in Hb as [? ?]; [|by eapply (rep_linked _ _ Hr)].
      simpl in *. congruence.
    + simpl. constructor; [|by eapply rep_nodup].
      intros Hb. eapply linked_live in Hb as [? ?]; [|by eapply (rep_linked _ _ Hr)].
      simpl in *. congruence.
    + simpl. intros b [->|?]%elem_of_cons; auto.
    + intros b _ [? Hb]. rewrite lookup_insert_ne; [done|]. congruence.
    + intros b [? Hb]. destruct (decide (b = a)) as [->|?]; [done|].
      rewrite lookup_insert_ne in Hb by done. eapply (rep_bound _ _ Hr). by eexists.
Qed.

(** [InsertAfter] at the sentinel runs the statements of [PushFront]. *)
Lemma InsertAfter_sentinel l x m :
  InsertAfter alloc l (Iterator (sentinel l)) x m
  = (PushFront alloc l x ;;; list_begin l) m.
Proof using Type.
  destruct m as [h ls].
  unfold InsertAfter, PushFront, list_begin, incr_size.
  destruct (ls !! l) as [o|] eqn:Hl; run; [|done].
  destruct (new_addr alloc (dom h)) as [a|]; by run.
Qed.

Lemma InsertAfter_cell_spec m σ l pre b v post x :
  represents m σ → σ !! l = Some (pre ++ (b, v) :: post) →
  Z.of_nat (size (nodes m)) < capacity alloc →
  ∃ a m', new_addr alloc (dom (nodes m)) = Some a
          ∧ InsertAfter alloc l (Iterator (cell b)) x m = inr (Iterator (cell a), m')
          ∧ nodes m' = <[b := mkNode v (cell a)]>
                         (<[a := mkNode x (first_ptr nullptr post)]> (nodes m))
          ∧ represents m' (<[l := pre ++ (b, v) :: (a, x) :: post]> σ).
Proof using alloc_ok.
  intros Hr Hl Hcap.
  pose proof (represents_lookup _ _ _ _ Hr Hl) as Hls.
  destruct (new_addr_succeeds alloc alloc_ok (dom (nodes m))) as [a Ha].
  { by rewrite size_dom. }
  pose proof (new_addr_fresh alloc alloc_ok _ _ Ha) as Hfresh%not_elem_of_dom.
  pose proof (new_addr_bound alloc alloc_ok _ _ Ha) as Hbound.
  pose proof (chain_length_succ_lt _ _ _ _ _ Hr Hl Hfresh Hbound) as Hlen.
  pose proof (rep_linked _ _ Hr _ _ Hl) as Hlk.
  pose proof (rep_nodup _ _ Hr _ _ Hl) as Hnd.
  destruct m as [h ls]; simpl in *.
  pose proof Hlk as (Hpre & Hb & Hpost)%linked_middle.
  apply NoDup_middle in Hnd as (Hbpre & Hbpost & Hnd).
  assert (Hab : a ≠ b) by congruence.
  assert (Hlive : ∀ c, c ∈ (pre ++ (b, v) :: post).*1 → c ≠ a).
  { intros c Hc ->. eapply linked_live in Hc as [? ?]; [|done]. congruence. }
  exists a. eexists. split; [done|]. split; [|split].
  - unfold InsertAfter, incr_size. run. rewrite Ha. run. reflexivity.
  - done.
  - simpl. rewrite size_t_wrap_small by lia.
    fold_list_repr (pre ++ (b, v) :: (a, x) :: post).
    eapply (represents_update h ls σ l _ (pre ++ (b, v) :: (a, x) :: post)); try done.
    + apply linked_middle. split_and!.
      * eapply linked_agree; [done|]. intros c Hc.
        rewrite !lookup_insert_ne; [done| |].
        -- intros ->. apply (Hlive c); [|done]. rewrite fmap_app. set_solver.
        -- by intros ->.
      * by rewrite lookup_insert_eq.
      * simpl. split.
        -- rewrite lookup_insert_ne by done. by rewrite lookup_insert_eq.
        -- eapply linked_agree; [done|]. intros c Hc.
           rewrite !lookup_insert_ne; [done| |].
           ++ intros ->. apply (Hlive c); [|done]. rewrite fmap_app, fmap_cons. set_solver.
           ++ by intros ->.
    + rewrite fmap_app, !fmap_cons. simpl.
      rewrite fmap_app in Hnd. apply NoDup_app in Hnd as (Hn1 & Hdj & Hn2).
      assert ((a ∉ pre.*1) ∧ (a ∉ post.*1)) as [Hapre Hapost].
      { split; intros Hin; eapply (Hlive a); try done;
          rewrite fmap_app, fmap_cons; set_solver. }
      apply NoDup_app. split_and!; [done| |].
      * intros c Hc [->|[->|Hc']%elem_of_cons]%elem_of_cons; [done|done|].
        by apply (Hdj c).
      * constructor; [|constructor; done]. set_solver.
    + intros c. rewrite !fmap_app, !fmap_cons. simpl.
      rewrite !elem_of_app, !elem_of_cons. naive_solver.
    + intros c Hc [? Hc']. rewrite !lookup_insert_ne; [done| |].
      * intros ->. congruence.
      * intros ->. apply Hc. rewrite fmap_app, fmap_cons. set_solver.
    + intros c [? Hc]. destruct (decide (c = a)) as [->|?]; [done|].
      destruct (decide (c = b)) as [->|?].
      * eapply (rep_bound _ _ Hr). by eexists.
      * rewrite !lookup_insert_ne in Hc by done. eapply (rep_bound _ _ Hr). by eexists.
Qed.

Lemma InsertAfter_spec m σ l cs k x :
  represents m σ → σ !! l = Some cs → (k ≤ length cs)%nat →
  Z.of_nat (size (nodes m)) < capacity alloc →
  ∃ a m', InsertAfter alloc l (Iterator (node_before l cs k)) x m
            = inr (Iterator (cell a), m')
          ∧ size (nodes m') = S (size (nodes m))
          ∧ represents m' (<[l := take k cs ++ (a, x) :: drop k cs]> σ).
Proof using alloc_ok.
  intros Hr Hl Hk Hcap. destruct k as [|j].
  - destruct (PushFront_spec m σ l cs x) as (a & m' & Ha & Hrun & Hn & Hr'); try done.
    exists a, m'. rewrite drop_0. simpl. split_and!; [| |done].
    + rewrite InsertAfter_sentinel. unfold bind. rewrite Hrun.
      unfold list_begin. run.
      rewrite (represents_lookup _ _ l _ Hr') by apply lookup_insert_eq. done.
    + rewrite Hn. apply map_size_insert_None, not_elem_of_dom.
      by eapply (new_addr_fresh alloc alloc_ok).
  - destruct (lookup_lt_is_Some_2 cs j) as [[b v] Hj]; [lia|].
    simpl. rewrite (drop_S _ _ _ Hj). simpl.
    pose proof (take_drop_middle _ _ _ Hj) as Hsplit.
    destruct (InsertAfter_cell_spec m σ l (take j cs) b v (drop (S j) cs) x)
      as (a & m' & Ha & Hrun & Hn & Hr'); try done.
    { by rewrite Hsplit. }
    exists a, m'. split_and!; [done| |].
    + rewrite Hn.
      pose proof (linked_lookup _ _ _ _ _ _ (rep_linked _ _ Hr _ _ Hl) Hj) as Hb.
      assert (Hfresh : nodes m !! a = None).
      { by eapply not_elem_of_dom, (new_addr_fresh alloc alloc_ok). }
      rewrite map_size_insert_Some.
      * by apply map_size_insert_None.
      * rewrite lookup_insert_ne by congruence. by eexists.
    + rewrite (take_S_r _ _ _ Hj), <- app_assoc. done.
Qed.

(** One round of the loop of [FillLinkedList_]: a node is appended to
    the chain under construction. *)
Lemma FillLinkedList_step m σ l built v :
  represents m σ → σ !! l = Some built →
  Z.of_nat (size (nodes m)) < capacity alloc →
  ∃ a m', size (nodes m') = S (size (nodes m))
          ∧ represents m' (<[l := built ++ [(a, v)]]> σ)
          ∧ ∀ A (k : Node_ptr → M T A),
              (let* n := new_Node alloc v nullptr in
               store_next (node_before l built (length built)) n ;;;
               let* node_ptr' := load_next (node_before l built (length built)) in
               incr_size l ;;;
               k node_ptr') m
              = k (cell a) m'.
Proof using alloc_ok.
  intros Hr Hl Hcap.
  destruct (InsertAfter_spec m σ l built (length built) v)
    as (a & m' & Hrun & Hsz & Hr'); try done.
  rewrite take_ge, drop_ge in Hr' by done.
  exists a, m'. split_and!; [done|done|]. intros A k.
  pose proof (load_next_node_before m σ l built (length built) Hr Hl) as Hnull.
  rewrite drop_ge in Hnull by done. specialize (Hnull (reflexivity _)).
  revert Hrun. unfold InsertAfter, bind. simpl in *. rewrite Hnull.
  destruct (new_Node alloc v nullptr m) as [e|[n m1]]; [done|].
  destruct (store_next _ n m1) as [e|[[] m2]] eqn:Hstore; [done|].
  pose proof (load_next_store_next _ _ _ _ Hstore) as Hload. rewrite Hload.
  destruct (incr_size l m2) as [e|[[] m3]] eqn:Hincr; [done|].
  rewrite (load_next_incr_size _ _ _ _ _ Hincr Hload). by intros [= -> ->].
Qed.

Lemma FillLinkedList_loop_unfold {It} {CI : CollectionIterator T It}
    fuel l node_ptr (it it_end : It) :
  FillLinkedList_loop alloc (S fuel) l node_ptr it it_end
  = if ci_ne it it_end then
      let* v := ci_deref it in
      let* n := new_Node alloc v nullptr in
      store_next node_ptr n ;;;
      let* node_ptr' := load_next node_ptr in
      incr_size l ;;;
      let* it' := ci_incr it in
      FillLinkedList_loop alloc fuel l node_ptr' it' it_end
    else ret tt.
Proof using Type. reflexivity. Qed.

(** Filling from an initializer list. *)
Lemma FillLinkedList_loop_initializer_list values l : ∀ vs i built σ m fuel,
  represents m σ → σ !! l = Some built →
  drop i values = vs → (i ≤ length values)%nat →
  Z.of_nat (size (nodes m)) + Z.of_nat (length vs) ≤ capacity alloc →
  (length vs < fuel)%nat →
  ∃ m' new,
    FillLinkedList_loop alloc (CI := initializer_list_iterator values) fuel l
      (node_before l built (length built)) i (length values) m = inr (tt, m')
    ∧ size (nodes m') = (size (nodes m) + length vs)%nat
    ∧ new.*2 = vs
    ∧ represents m' (<[l := built ++ new]> σ).
Proof using alloc_ok.
  induction vs as [|v vs IH]; intros i built σ m fuel Hr Hl Hdrop Hi Hcap Hfuel;
    (destruct fuel as [|fuel]; [simpl in Hfuel; lia|]);
    rewrite FillLinkedList_loop_unfold; simpl in *.
  - apply (f_equal length) in Hdrop. rewrite length_drop in Hdrop. simpl in Hdrop.
    replace i with (length values) by lia. rewrite Nat.eqb_refl. simpl.
    exists m, []. split_and!; [done|lia|done|].
    by rewrite app_nil_r, insert_id.
  - assert (Hv : values !! i = Some v).
    { rewrite <- (Nat.add_0_r i), <- lookup_drop, Hdrop. done. }
    pose proof (lookup_lt_Some _ _ _ Hv) as Hlt.
    rewrite (drop_S _ _ _ Hv) in Hdrop. simplify_eq.
    destruct (FillLinkedList_step m σ l built v) as (a & m1 & Hsz & Hr1 & Hstep);
      [done|done|lia|].
    destruct (IH (S i) (built ++ [(a, v)]) (<[l := built ++ [(a, v)]]> σ) m1 fuel)
      as (m' & new & Hrun & Hsz' & Hnew & Hr'); try done.
    { apply lookup_insert_eq. } { lia. } { lia. }
    exists m', ((a, v) :: new). split_and!.
    + rewrite (proj2 (Nat.eqb_neq i (length values))) by lia. simpl.
      unfold bind at 1. rewrite Hv. unfold ret at 1.
      rewrite Hstep. unfold bind at 1.
      rewrite (proj2 (Nat.ltb_lt i (length values))) by done. unfold ret at 1.
      by rewrite <- node_before_snoc with (l := l) (cs := built) (v := v).
    + lia.
    + rewrite fmap_cons. simpl. by f_equal.
    + by rewrite insert_insert_eq, <- app_assoc in Hr'.
Qed.

(** Filling from the chain of another list. *)
Lemma FillLinkedList_loop_chain l other : ∀ rest copied built σ m fuel,
  represents m σ → σ !! l = Some built →
  σ !! other = Some (copied ++ rest) → l ≠ other →
  Z.of_nat (size (nodes m)) + Z.of_nat (length rest) ≤ capacity alloc →
  (length rest < fuel)%nat →
  ∃ m' new,
    FillLinkedList_loop alloc fuel l (node_before l built (length built))
      (Iterator (first_ptr nullptr rest)) (Iterator nullptr) m = inr (tt, m')
    ∧ size (nodes m') = (size (nodes m) + length rest)%nat
    ∧ new.*2 = rest.*2
    ∧ represents m' (<[l := built ++ new]> σ).
Proof using alloc_ok.
  induction rest as [|[c w] rest IH];
    intros copied built σ m fuel Hr Hl Ho Hne Hcap Hfuel;
    (destruct fuel as [|fuel]; [simpl in Hfuel; lia|]);
    rewrite FillLinkedList_loop_unfold; simpl in *.
  - exists m, []. split_and!; [done|lia|done|].
    by rewrite app_nil_r, insert_id.
  - pose proof (rep_linked _ _ Hr _ _ Ho) as (_ & Hc & _)%linked_middle.
    destruct (FillLinkedList_step m σ l built w) as (a & m1 & Hsz & Hr1 & Hstep);
      [done|done|lia|].
    assert (Ho1 : <[l := built ++ [(a, w)]]> σ !! other = Some (copied ++ (c, w) :: rest)).
    { by rewrite lookup_insert_ne. }
    pose proof (rep_linked _ _ Hr1 _ _ Ho1) as (_ & Hc1 & _)%linked_middle.
    destruct (IH (copied ++ [(c, w)]) (built ++ [(a, w)])
                (<[l := built ++ [(a, w)]]> σ) m1 fuel)
      as (m' & new & Hrun & Hsz' & Hnew & Hr'); try done.
    { apply lookup_insert_eq. } { by rewrite <- app_assoc. } { lia. } { lia. }
    exists m', ((a, w) :: new). split_and!.
    + unfold bind at 1, iter_deref, load_value. simpl. rewrite Hc. simpl.
      rewrite Hstep. unfold bind at 1, iter_incr, bind, load_next. simpl.
      rewrite Hc1. simpl.
      by rewrite <- node_before_snoc with (l := l) (cs := built) (v := w).
    + lia.
    + rewrite fmap_cons. simpl. by f_equal.
    + by rewrite insert_insert_eq, <- app_assoc in Hr'.
Qed.

Lemma SingleLinkedList_init_spec m σ this values fuel :
  represents m σ → σ !! this = None →
  Z.of_nat (size (nodes m)) + Z.of_nat (length values) ≤ capacity alloc →
  (length values < fuel)%nat →
  ∃ m' cs, SingleLinkedList_init alloc fuel this values m = inr (tt, m')
           ∧ cs.*2 = values
           ∧ (size (nodes m') ≤ size (nodes m) + length values)%nat
           ∧ represents m' (<[this := cs]> σ).
Proof using alloc_ok.
  intros Hr Hthis Hcap Hfuel.
  destruct (init_members_spec m σ this) as (m1 & Hrun1 & Hn1 & Hr1); try done.
  pose proof (local_storage_fresh _ _ Hr1) as Hfresh.
  set (l := fresh (dom (lists m1))) in *.
  destruct (init_members_spec m1 _ l Hr1 Hfresh) as (m2 & Hrun2 & Hn2 & Hr2).
  destruct (FillLinkedList_loop_initializer_list values l values 0 [] _ m2 fuel Hr2)
    as (m3 & cs & Hrun3 & Hsz3 & Hcs & Hr3); try done.
  { apply lookup_insert_eq. } { lia. } { rewrite Hn2, Hn1. lia. }
  rewrite insert_insert_eq in Hr3. simpl in Hr3, Hrun3.
  assert (Hne : l ≠ this).
  { intros Heq. rewrite Heq, lookup_insert_eq in Hfresh. done. }
  destruct (swap_spec m3 _ this l [] cs Hr3) as (m4 & Hrun4 & Hn4 & Hr4).
  { rewrite lookup_insert_ne by done. apply lookup_insert_eq. }
  { apply lookup_insert_eq. }
  destruct (SingleLinkedList_destroy_spec m4 _ l [] fuel Hr4)
    as (m5 & Hrun5 & Hsz5 & Hr5).
  { apply lookup_insert_eq. } { simpl. lia. }
  exists m5, cs. split_and!.
  - unfold SingleLinkedList_init, SingleLinkedList_default, FillLinkedList_, bind.
    rewrite Hrun1. unfold local_storage. fold l. rewrite Hrun2, Hrun3, Hrun4. done.
  - done.
  - rewrite Hn4, Hn2, Hn1 in *. lia.
  - replace (<[this := cs]> σ) with
      (delete l (<[l := []]> (<[this := cs]> (<[l := cs]> (<[this := []]> σ))))); [done|].
    rewrite lookup_insert_ne in Hfresh by done. solve_map_eq.
Qed.

Lemma SingleLinkedList_copy_spec m σ this other cs fuel :
  represents m σ → σ !! this = None → σ !! other = Some cs →
  Z.of_nat (size (nodes m)) + Z.of_nat (length cs) ≤ capacity alloc →
  (length cs < fuel)%nat →
  ∃ m' cs', SingleLinkedList_copy alloc fuel this other m = inr (tt, m')
            ∧ cs'.*2 = cs.*2
            ∧ (size (nodes m') ≤ size (nodes m) + length cs)%nat
            ∧ represents m' (<[this := cs']> σ).
Proof using alloc_ok.
  intros Hr Hthis Hother Hcap Hfuel.
  destruct (init_members_spec m σ this) as (m1 & Hrun1 & Hn1 & Hr1); try done.
  pose proof (local_storage_fresh _ _ Hr1) as Hfresh.
  set (l := fresh (dom (lists m1))) in *.
  destruct (init_members_spec m1 _ l Hr1 Hfresh) as (m2 & Hrun2 & Hn2 & Hr2).
  assert (Hne : l ≠ this).
  { intros Heq. rewrite Heq, lookup_insert_eq in Hfresh. done. }
  rewrite lookup_insert_ne in Hfresh by done.
  assert (Hne' : l ≠ other) by congruence.
  assert (Hne'' : this ≠ other) by congruence.
  assert (Ho2 : <[l := []]> (<[this := []]> σ) !! other = Some cs).
  { by rewrite !lookup_insert_ne. }
  destruct (FillLinkedList_loop_chain l other cs [] [] _ m2 fuel Hr2)
    as (m3 & cs' & Hrun3 & Hsz3 & Hcs & Hr3); try done.
  { apply lookup_insert_eq. } { rewrite Hn2, Hn1. lia. }
  rewrite insert_insert_eq in Hr3. simpl in Hr3, Hrun3.
  destruct (swap_spec m3 _ this l [] cs' Hr3) as (m4 & Hrun4 & Hn4 & Hr4).
  { rewrite lookup_insert_ne by done. apply lookup_insert_eq. }
  { apply lookup_insert_eq. }
  destruct (SingleLinkedList_destroy_spec m4 _ l [] fuel Hr4)
    as (m5 & Hrun5 & Hsz5 & Hr5).
  { apply lookup_insert_eq. } { simpl. lia. }
  exists m5, cs'. split_and!.
  - unfold SingleLinkedList_copy, SingleLinkedList_default, FillLinkedList_,
      list_begin, list_end, BasicIterator_default, bind.
    rewrite Hrun1. unfold local_storage. fold l. rewrite Hrun2.
    unfold load_next, ret. rewrite (represents_lookup _ _ _ _ Hr2 Ho2). simpl.
    rewrite Hrun3, Hrun4. done.
  - done.
  - rewrite Hn4, Hn2, Hn1 in *. lia.
  - replace (<[this := cs']> σ) with
      (delete l (<[l := []]> (<[this := cs']> (<[l := cs']> (<[this := []]> σ))))); [done|].
    solve_map_eq.
Qed.

Lemma assign_spec m σ this rhs cs_this cs_rhs fuel :
  represents m σ → σ !! this = Some cs_this → σ !! rhs = Some cs_rhs →
  this ≠ rhs →
  Z.of_nat (size (nodes m)) + Z.of_nat (length cs_rhs) ≤ capacity alloc →
  (length cs_this < fuel)%nat → (length cs_rhs < fuel)%nat →
  ∃ m' cs', assign alloc fuel this rhs m = inr (this, m')
            ∧ cs'.*2 = cs_rhs.*2
            ∧ (size (nodes m') ≤ size (nodes m) + length cs_rhs)%nat
            ∧ represents m' (<[this := cs']> σ).
Proof using alloc_ok.
  intros Hr Hthis Hrhs Hne Hcap Hfuel1 Hfuel2.
  pose proof (local_storage_fresh _ _ Hr) as Hfresh.
  set (copy := fresh (dom (lists m))) in *.
  assert (Hne1 : copy ≠ this) by congruence.
  assert (Hne2 : copy ≠ rhs) by congruence.
  destruct (SingleLinkedList_copy_spec m σ copy rhs cs_rhs fuel)
    as (m1 & cs' & Hrun1 & Hcs & Hsz1 & Hr1); try done.
  destruct (swap_spec m1 _ this copy cs_this cs' Hr1) as (m2 & Hrun2 & Hn2 & Hr2).
  { by rewrite lookup_insert_ne. } { apply lookup_insert_eq. }
  destruct (SingleLinkedList_destroy_spec m2 _ copy cs_this fuel Hr2)
    as (m3 & Hrun3 & Hsz3 & Hr3); [apply lookup_insert_eq|done|].
  exists m3, cs'. split_and!.
  - unfold assign. rewrite bool_decide_eq_false_2 by done.
    unfold bind, local_storage. fold copy. rewrite Hrun1, Hrun2, Hrun3. done.
  - done.
  - rewrite Hn2 in *. lia.
  - replace (<[this := cs']> σ) with
      (delete copy (<[copy := cs_this]> (<[this := cs']> (<[copy := cs']> σ)))); [done|].
    solve_map_eq.
Qed.

(** Self-assignment returns at once. *)
Lemma assign_self fuel this (m : Mem T) :
  assign alloc fuel this this m = inr (this, m).
Proof using Type. unfold assign. by rewrite bool_decide_eq_true_2. Qed.

End AllocatingMemberSpecs.

(** * Observing a list *)

Section ObservationLemmas.

Context {T : Type} {E : ElementOps T}.
Implicit Types (cs : chain T) (σ : gmap positive (chain T)) (m : Mem T).

Lemma GetSize_spec m σ l cs :
  represents m σ → σ !! l = Some cs →
  GetSize l m = inr (Z.of_nat (length cs), m).
Proof.
  intros Hr Hl. unfold GetSize, load_size.
  by rewrite (represents_lookup _ _ _ _ Hr Hl).
Qed.

Lemma list_begin_spec m σ l cs :
  represents m σ → σ !! l = Some cs →
  list_begin l m = inr (Iterator (first_ptr nullptr cs), m).
Proof.
  intros Hr Hl. unfold list_begin, bind, load_next.
  by rewrite (represents_lookup _ _ _ _ Hr Hl).
Qed.

Lemma traverse_spec m cs : ∀ fuel,
  linked (nodes m) nullptr cs → (length cs < fuel)%nat →
  traverse fuel (Iterator (first_ptr nullptr cs)) (Iterator nullptr) m
  = inr (cs.*2, m).
Proof.
  induction cs as [|[a v] cs IH]; intros fuel Hlk Hfuel;
    (destruct fuel as [|fuel]; [simpl in Hfuel; lia|]); simpl in *; [done|].
  destruct Hlk as [Ha Hlk].
  unfold iter_deref, iter_incr. run.
  rewrite IH by (done || lia). done.
Qed.

Lemma elements_spec m σ l cs fuel :
  represents m σ → σ !! l = Some cs → (length cs < fuel)%nat →
  elements fuel l m = inr (cs.*2, m).
Proof.
  intros Hr Hl Hfuel. unfold elements, bind.
  rewrite (list_begin_spec _ _ _ _ Hr Hl). unfold list_end, BasicIterator_default, ret.
  apply traverse_spec; [by eapply rep_linked|done].
Qed.

Lemma reads_as_intro m σ l cs :
  represents m σ → σ !! l = Some cs → reads_as m l cs.*2.
Proof.
  intros Hr Hl. split.
  - rewrite length_fmap. by eapply GetSize_spec.
  - intros fuel Hfuel. rewrite length_fmap in Hfuel. by eapply elements_spec.
Qed.

Lemma GetSize_live m σ l z m' :
  represents m σ → GetSize l m = inr (z, m') →
  ∃ cs, σ !! l = Some cs ∧ z = Z.of_nat (length cs).
Proof.
  intros Hr. unfold GetSize, load_size.
  destruct (σ !! l) as [cs|] eqn:Hl.
  - rewrite (represents_lookup _ _ _ _ Hr Hl). simpl. intros [= <- _]. eauto.
  - by rewrite (represents_lookup_None _ _ _ Hr Hl).
Qed.

Lemma reads_as_inv m σ l vs :
  represents m σ → reads_as m l vs → ∃ cs, σ !! l = Some cs ∧ cs.*2 = vs.
Proof.
  intros Hr [Hsz Hel].
  destruct (GetSize_live _ _ _ _ _ Hr Hsz) as (cs & Hl & Hlen).
  exists cs. split; [done|].
  specialize (Hel (S (length vs)) (Nat.lt_succ_diag_r _)).
  rewrite (elements_spec _ _ _ _ _ Hr Hl) in Hel by lia. by simplify_eq.
Qed.

Lemma std_equal_spec m cs1 : ∀ cs2 fuel,
  linked (nodes m) nullptr cs1 → linked (nodes m) nullptr cs2 →
  (length cs1 < fuel)%nat →
  std_equal fuel (Iterator (first_ptr nullptr cs1)) (Iterator nullptr)
    (Iterator (first_ptr nullptr cs2)) m
  = match equal_outcome cs1.*2 cs2.*2 with
    | inl e => inl e
    | inr b => inr (b, m)
    end.
Proof.
  induction cs1 as [|[a x] cs1 IH]; intros cs2 fuel Hlk1 Hlk2 Hfuel;
    (destruct fuel as [|fuel]; [simpl in Hfuel; lia|]); simpl in *; [done|].
  destruct Hlk1 as [Ha Hlk1].
  unfold iter_deref, iter_incr.
  destruct cs2 as [|[b y] cs2]; simpl in *; [by run|].
  destruct Hlk2 as [Hb Hlk2]. run.
  destruct (elem_eq x y); simpl; [|done].
  run. apply IH; (done || lia).
Qed.

Lemma operator_eq_spec m σ lhs rhs cs1 cs2 fuel :
  represents m σ → σ !! lhs = Some cs1 → σ !! rhs = Some cs2 →
  (length cs1 < fuel)%nat →
  operator_eq fuel lhs rhs m
  = match equal_outcome cs1.*2 cs2.*2 with
    | inl e => inl e
    | inr b => inr (b, m)
    end.
Proof.
  intros Hr Hl1 Hl2 Hfuel. unfold operator_eq, bind.
  rewrite (list_begin_spec _ _ _ _ Hr Hl1). unfold list_end, BasicIterator_default, ret.
  rewrite (list_begin_spec _ _ _ _ Hr Hl2).
  apply std_equal_spec; (done || by eapply rep_linked).
Qed.

Lemma std_lexicographical_compare_spec m cs1 : ∀ cs2 fuel,
  linked (nodes m) nullptr cs1 → linked (nodes m) nullptr cs2 →
  (length cs1 < fuel)%nat →
  std_lexicographical_compare fuel
    (Iterator (first_ptr nullptr cs1)) (Iterator nullptr)
    (Iterator (first_ptr nullptr cs2)) (Iterator nullptr) m
  = inr (lexicographical_outcome cs1.*2 cs2.*2, m).
Proof.
  induction cs1 as [|[a x] cs1 IH]; intros cs2 fuel Hlk1 Hlk2 Hfuel;
    (destruct fuel as [|fuel]; [simpl in Hfuel; lia|]); simpl in *.
  - by destruct cs2 as [|[b y] cs2].
  - destruct Hlk1 as [Ha Hlk1].
    destruct cs2 as [|[b y] cs2]; simpl in *; [done|].
    destruct Hlk2 as [Hb Hlk2].
    unfold iter_deref, iter_incr. run.
    destruct (elem_lt x y); simpl; [done|]. run.
    destruct (elem_lt y x); simpl; [done|]. run.
    apply IH; (done || lia).
Qed.

Lemma operator_lt_spec m σ lhs rhs cs1 cs2 fuel :
  represents m σ → σ !! lhs = Some cs1 → σ !! rhs = Some cs2 →
  (length cs1 < fuel)%nat →
  operator_lt fuel lhs rhs m = inr (lexicographical_outcome cs1.*2 cs2.*2, m).
Proof.
  intros Hr Hl1 Hl2 Hfuel. unfold operator_lt, bind.
  rewrite (list_begin_spec _ _ _ _ Hr Hl1). unfold list_end, BasicIterator_default, ret.
  rewrite (list_begin_spec _ _ _ _ Hr Hl2).
  apply std_lexicographical_compare_spec; (done || by eapply rep_linked).
Qed.

Lemma lexicographical_outcome_lex_less xs ys :
  lexicographical_outcome xs ys = true ↔ lex_less xs ys.
Proof.
  split.
  - revert ys. induction xs as [|x xs IH]; intros [|y ys]; simpl; try done.
    + intros _. constructor.
    + destruct (elem_lt x y) eqn:Hxy; [intros _; by constructor|].
      destruct (elem_lt y x) eqn:Hyx; [done|].
      intros H. apply lex_less_tail; auto.
  - induction 1 as [y ys|x xs y ys Hxy|x xs y ys Hxy Hyx Hlt IH]; simpl.
    + done.
    + by rewrite Hxy.
    + by rewrite Hxy, Hyx.
Qed.


(** [std::equal] reads past the end of the second range exactly when
    the second sequence is shorter and agrees with the first as far as
    it goes. *)
Lemma equal_outcome_undefined xs : ∀ ys,
  equal_outcome xs ys = inl undefined_behavior
  ↔ (length ys < length xs)%nat ∧ values_equal (take (length ys) xs) ys.
Proof.
  induction xs as [|x xs IH]; intros ys; simpl.
  - split; [done|]. intros [? _]. lia.
  - destruct ys as [|y ys]; simpl.
    + split; [|done]. intros _. split; [lia|constructor].
    + destruct (elem_eq x y) eqn:Hxy; simpl.
      * rewrite IH. split.
        -- intros [? ?]. split; [lia|by constructor].
        -- intros [? Heq]. inversion Heq; subst. split; [lia|done].
      * split; [done|]. intros [_ Heq]. inversion Heq; subst. congruence.
Qed.

Lemma equal_outcome_cases xs ys :
  equal_outcome xs ys = inl undefined_behavior ∨ ∃ b, equal_outcome xs ys = inr b.
Proof.
  revert ys. induction xs as [|x xs IH]; intros [|y ys]; simpl; eauto.
  destruct (elem_eq x y); simpl; eauto.
Qed.

(** [std::equal] answers [true] only if the second sequence reaches as
    far as the first. *)
Lemma equal_outcome_true_length xs : ∀ ys,
  equal_outcome xs ys = inr true → (length xs ≤ length ys)%nat.
Proof.
  induction xs as [|x xs IH]; intros [|y ys]; simpl; try done; try (intros; lia).
  destruct (elem_eq x y); simpl; [|done]. intros H. apply IH in H. lia.
Qed.

(** [std::equal] on a sequence and itself. *)
Lemma equal_outcome_self xs :
  ∃ b, equal_outcome xs xs = inr b
       ∧ (b = true ↔ Forall (λ x, elem_eq x x = true) xs).
Proof.
  induction xs as [|x xs (b & Hb & Hiff)]; simpl.
  - exists true. split; [done|]. split; [constructor|done].
  - destruct (elem_eq x x) eqn:Hx; simpl.
    + exists b. split; [done|]. rewrite Hiff. split.
      * by constructor.
      * by inversion 1.
    + exists false. split; [done|]. split; [done|]. inversion 1; congruence.
Qed.

Lemma equal_outcome_refl xs :
  (∀ x, elem_eq x x = true) → equal_outcome xs xs = inr true.
Proof.
  intros Hrefl. induction xs as [|x xs IH]; simpl; [done|]. by rewrite Hrefl.
Qed.

End ObservationLemmas.

(** * Mutations and operations against the abstract state *)

Section InvariantLemmas.

Context {T : Type}.
Implicit Types (cs : chain T) (σ : gmap positive (chain T)) (m : Mem T).

Lemma live_inv m σ l n :
  represents m σ → live m l n → ∃ cs, σ !! l = Some cs ∧ length cs = n.
Proof.
  intros Hr Hlive. destruct (GetSize_live _ _ _ _ _ Hr Hlive) as (cs & Hl & Hn).
  exists cs. split; [done|lia].
Qed.

Lemma represents_empty : represents (T := T) empty_mem ∅.
Proof.
  split; simpl.
  - by rewrite fmap_empty.
  - intros l cs Hl. by rewrite lookup_empty in Hl.
  - intros l cs Hl. by rewrite lookup_empty in Hl.
  - intros l1 l2 cs1 cs2 a Hl. by rewrite lookup_empty in Hl.
  - intros a [n Ha]. by rewrite lookup_empty in Ha.
Qed.

Lemma count_matches_chain_intro m σ l :
  represents m σ → is_Some (lists m !! l) → count_matches_chain m l.
Proof.
  intros Hr [o Ho].
  destruct (σ !! l) as [cs|] eqn:Hl.
  - exists cs. split_and!.
    + unfold load_next. by rewrite (represents_lookup _ _ _ _ Hr Hl).
    + by eapply rep_linked.
    + by eapply GetSize_spec.
  - rewrite (represents_lookup_None _ _ _ Hr Hl) in Ho. done.
Qed.

Lemma lists_None_inv m σ l :
  represents m σ → lists m !! l = None → σ !! l = None.
Proof.
  intros Hr. rewrite (rep_lists _ _ Hr), lookup_fmap.
  by destruct (σ !! l).
Qed.

End InvariantLemmas.

Section ClientLemmas.

Context {T : Type}.
Context (alloc : Allocator) (alloc_ok : allocator_laws alloc).
Implicit Types (cs : chain T) (σ : gmap positive (chain T)) (m : Mem T).

Lemma mutate_spec m σ l cs μ :
  represents m σ → σ !! l = Some cs →
  mutation_allowed (length cs) μ →
  (allocates μ = true → room alloc m 1) →
  ∃ m' cs', mutate alloc l μ m = inr (tt, m')
            ∧ cs'.*2 = mutated μ cs.*2
            ∧ (size (nodes m') ≤ S (size (nodes m)))%nat
            ∧ represents m' (<[l := cs']> σ).
Proof using alloc_ok.
  intros Hr Hl Hok Hroom. unfold room in Hroom.
  destruct μ as [x| |k x|k]; simpl in *.
  - destruct (PushFront_spec alloc alloc_ok m σ l cs x) as (a & m' & Ha & Hrun & Hn & Hr');
      [done|done|lia|].
    exists m', ((a, x) :: cs). split_and!; [done|done| |done].
    rewrite Hn, map_size_insert_None; [done|].
    by eapply not_elem_of_dom, (new_addr_fresh alloc alloc_ok).
  - destruct cs as [|[c w] rest]; simpl in *; [lia|].
    destruct (PopFront_spec m σ l c w rest) as (m' & Hrun & Hn & Hr'); try done.
    exists m', rest. split_and!; [done|done| |done].
    rewrite Hn. etrans; [apply map_subseteq_size, delete_subseteq|lia].
  - destruct (InsertAfter_spec alloc alloc_ok m σ l cs k x) as (a & m' & Hrun & Hsz & Hr');
      [done|done|done|lia|].
    exists m', (take k cs ++ (a, x) :: drop k cs). split_and!; [|  |lia|done].
    + unfold before_begin, bind, ret.
      rewrite (advance_before_begin m σ l cs k) by done. by rewrite Hrun.
    + by rewrite fmap_app, fmap_cons, fmap_take, fmap_drop.
  - destruct (EraseAfter_spec m σ l cs k) as (m' & Hrun & Hsz & Hr'); try done.
    exists m', (take k cs ++ drop (S k) cs). split_and!; [| |lia|done].
    + unfold before_begin, bind, ret.
      rewrite (advance_before_begin m σ l cs k) by (done || lia). by rewrite Hrun.
    + by rewrite fmap_app, fmap_take, fmap_drop.
Qed.

Lemma mutate_all_spec l μs : ∀ m σ cs,
  represents m σ → σ !! l = Some cs →
  mutations_allowed cs.*2 μs →
  room alloc m (length μs) →
  ∃ m' cs', mutate_all alloc l μs m = inr (tt, m')
            ∧ cs'.*2 = mutated_all μs cs.*2
            ∧ represents m' (<[l := cs']> σ).
Proof using alloc_ok.
  induction μs as [|μ μs IH]; intros m σ cs Hr Hl Hok Hroom; simpl in *.
  - exists m, cs. split_and!; [done|done|]. by rewrite insert_id.
  - destruct Hok as [Hμ Hμs]. rewrite length_fmap in Hμ. unfold room in *.
    destruct (mutate_spec m σ l cs μ) as (m1 & cs1 & Hrun1 & Hcs1 & Hsz1 & Hr1);
      [done|done|done|unfold room; lia|].
    destruct (IH m1 (<[l := cs1]> σ) cs1) as (m2 & cs2 & Hrun2 & Hcs2 & Hr2);
      [done|apply lookup_insert_eq|by rewrite Hcs1|lia|].
    exists m2, cs2. split_and!.
    + unfold bind. by rewrite Hrun1.
    + by rewrite Hcs2, Hcs1.
    + by rewrite insert_insert_eq in Hr2.
Qed.

(** Every operation, run within its contract, returns and takes a
    represented memory to a represented memory. *)
Lemma perform_represents fuel m σ op :
  represents m σ → operation_allowed alloc fuel m op →
  ∃ m' σ', perform alloc fuel op m = inr (tt, m') ∧ represents m' σ'.
Proof using alloc_ok.
  intros Hr Hok. destruct op as [this|this values|this other|this rhs|this μ|this|this other];
    simpl in *.
  - pose proof (lists_None_inv _ _ _ Hr Hok) as Hthis.
    destruct (init_members_spec m σ this Hr Hthis) as (m' & Hrun & _ & Hr'). eauto.
  - destruct Hok as (Hnone & Hroom & Hfuel).
    pose proof (lists_None_inv _ _ _ Hr Hnone) as Hthis.
    destruct (SingleLinkedList_init_spec alloc alloc_ok m σ this values fuel)
      as (m' & cs & Hrun & _ & _ & Hr'); eauto.
  - destruct Hok as (Hnone & n & Hlive & Hroom & Hfuel).
    pose proof (lists_None_inv _ _ _ Hr Hnone) as Hthis.
    destruct (live_inv _ _ _ _ Hr Hlive) as (cs & Hother & <-).
    destruct (SingleLinkedList_copy_spec alloc alloc_ok m σ this other cs fuel)
      as (m' & cs' & Hrun & _ & _ & Hr'); eauto.
  - destruct Hok as (n & k & Hlive1 & Hlive2 & Hroom & Hfuel1 & Hfuel2).
    destruct (live_inv _ _ _ _ Hr Hlive1) as (cs1 & Hthis & <-).
    destruct (live_inv _ _ _ _ Hr Hlive2) as (cs2 & Hrhs & <-).
    destruct (decide (this = rhs)) as [->|Hne].
    + exists m, σ. unfold bind. by rewrite assign_self.
    + destruct (assign_spec alloc alloc_ok m σ this rhs cs1 cs2 fuel)
        as (m' & cs' & Hrun & _ & _ & Hr'); try done.
      exists m', (<[this := cs']> σ). unfold bind. by rewrite Hrun.
  - destruct Hok as (n & Hlive & Hμ & Hroom).
    destruct (live_inv _ _ _ _ Hr Hlive) as (cs & Hthis & <-).
    destruct (mutate_spec m σ this cs μ) as (m' & cs' & Hrun & _ & _ & Hr'); eauto.
  - destruct Hok as (n & Hlive & Hfuel).
    destruct (live_inv _ _ _ _ Hr Hlive) as (cs & Hthis & <-).
    destruct (Clear_spec m σ this cs fuel) as (m' & Hrun & _ & Hr'); eauto.
  - destruct Hok as [[n Hlive1] [k Hlive2]].
    destruct (live_inv _ _ _ _ Hr Hlive1) as (cs1 & Hthis & <-).
    destruct (live_inv _ _ _ _ Hr Hlive2) as (cs2 & Hother & <-).
    destruct (swap_spec m σ this other cs1 cs2) as (m' & Hrun & _ & Hr'); eauto.
Qed.

End ClientLemmas.

(** * The claims *)

Lemma mem_invariant_empty {T} : mem_invariant (T := T) empty_mem.
Proof. exists ∅. apply represents_empty. Qed.

Lemma two_lists_spec xs ys :
  Z.of_nat (length xs) + Z.of_nat (length ys) ≤ capacity first_fit_allocator →
  ∃ m, two_lists xs ys empty_mem = inr (tt, m)
       ∧ mem_invariant m
       ∧ reads_as m 1%positive xs
       ∧ reads_as m 2%positive ys
       ∧ (size (nodes m) ≤ length xs + length ys)%nat.
Proof.
  intros Hcap.
  assert (Hempty : size (nodes (T := Z) empty_mem) = 0%nat) by apply map_size_empty.
  destruct (SingleLinkedList_init_spec first_fit_allocator first_fit_laws
              empty_mem ∅ 1%positive xs (S (length xs)))
    as (m1 & cs1 & Hrun1 & Hcs1 & Hsz1 & Hr1);
    [apply represents_empty|done|lia|lia|].
  destruct (SingleLinkedList_init_spec first_fit_allocator first_fit_laws
              m1 _ 2%positive ys (S (length ys)) Hr1)
    as (m2 & cs2 & Hrun2 & Hcs2 & Hsz2 & Hr2);
    [done|lia|lia|].
  exists m2. split_and!.
  - unfold two_lists, bind. by rewrite Hrun1.
  - by eexists.
  - rewrite <- Hcs1. eapply reads_as_intro; [done|].
    by rewrite lookup_insert_ne, lookup_insert_eq.
  - rewrite <- Hcs2. eapply reads_as_intro; [done|]. by rewrite lookup_insert_eq.
  - lia.
Qed.

(** C2: constructing a list from a sequence [vs] returns, and the new
    list has [GetSize() == length vs] and a walk from [begin()] to
    [end()] yields exactly the elements of [vs] in source order. *)
Theorem initializer_list_constructor_yields_sequence {T} (alloc : Allocator)
    (m : Mem T) (this : loc) (vs : list T) (fuel : nat) :
  allocator_laws alloc →
  mem_invariant m →
  lists m !! this = None →
  room alloc m (length vs) →
  (length vs < fuel)%nat →
  ∃ m', SingleLinkedList_init alloc fuel this vs m = inr (tt, m')
        ∧ GetSize this m' = inr (Z.of_nat (length vs), m')
        ∧ ∀ fuel', (length vs < fuel')%nat → elements fuel' this m' = inr (vs, m').
Proof.
  intros Hlaws [σ Hr] Hnone Hroom Hfuel.
  pose proof (lists_None_inv _ _ _ Hr Hnone) as Hthis.
  destruct (SingleLinkedList_init_spec alloc Hlaws m σ this vs fuel)
    as (m' & cs & Hrun & Hcs & _ & Hr'); try done.
  exists m'. split; [done|].
  rewrite <- Hcs. eapply reads_as_intro; [done|]. apply lookup_insert_eq.
Qed.

Lemma initializer_list_constructor_yields_sequence_witness :
  ∃ m', SingleLinkedList_init first_fit_allocator 4 1%positive [10; 20; 30] empty_mem
          = inr (tt, m')
        ∧ GetSize 1%positive m' = inr (3, m')
        ∧ ∀ fuel', (3 < fuel')%nat → elements fuel' 1%positive m' = inr ([10; 20; 30], m').
Proof.
  apply (initializer_list_constructor_yields_sequence first_fit_allocator
           empty_mem 1%positive [10; 20; 30] 4).
  - exact first_fit_laws.
  - apply mem_invariant_empty.
  - reflexivity.
  - unfold room. vm_compute. discriminate.
  - simpl. lia.
Defined.

(** C4: on every list, [InsertAfter(before_begin(), x)] and [PushFront(x)]
    both return and leave the same memory, in which the list has [x] in
    front of its former elements and its size is one more. *)
Theorem InsertAfter_before_begin_equals_PushFront {T} (alloc : Allocator)
    (m : Mem T) (L : loc) (vs : list T) (x : T) :
  allocator_laws alloc →
  mem_invariant m →
  reads_as m L vs →
  room alloc m 1 →
  ∃ m' it,
    (let* pos := before_begin L in InsertAfter alloc L pos x) m = inr (it, m')
    ∧ PushFront alloc L x m = inr (tt, m')
    ∧ GetSize L m' = inr (Z.of_nat (length vs) + 1, m')
    ∧ ∀ fuel, (S (length vs) < fuel)%nat → elements fuel L m' = inr (x :: vs, m').
Proof.
  intros Hlaws [σ Hr] Hreads Hroom. unfold room in Hroom.
  destruct (reads_as_inv _ _ _ _ Hr Hreads) as (cs & Hl & <-).
  destruct (PushFront_spec alloc Hlaws m σ L cs x) as (a & m' & _ & Hrun & _ & Hr');
    [done|done|lia|].
  pose proof (reads_as_intro m' _ L _ Hr' (lookup_insert_eq _ _ _)) as [Hsz Hel].
  exists m', (Iterator (cell a)). split_and!.
  - unfold before_begin, bind, ret. rewrite InsertAfter_sentinel.
    unfold bind. rewrite Hrun. by rewrite (list_begin_spec _ _ _ _ Hr' (lookup_insert_eq _ _ _)).
  - done.
  - rewrite Hsz.
    replace (Z.of_nat (length ((a, x) :: cs).*2)) with (Z.of_nat (length cs.*2) + 1);
      [done|rewrite fmap_cons, length_cons; lia].
  - intros fuel Hfuel. apply Hel. by rewrite fmap_cons, length_cons.
Qed.

Lemma InsertAfter_before_begin_equals_PushFront_witness :
  ∃ m, two_lists [20; 30] [] empty_mem = inr (tt, m)
       ∧ ∃ m' it,
           (let* pos := before_begin 1%positive in
            InsertAfter first_fit_allocator 1%positive pos 10) m = inr (it, m')
           ∧ PushFront first_fit_allocator 1%positive 10 m = inr (tt, m')
           ∧ GetSize 1%positive m' = inr (3, m')
           ∧ ∀ fuel, (3 < fuel)%nat → elements fuel 1%positive m' = inr ([10; 20; 30], m').
Proof.
  destruct (two_lists_spec [20; 30] []) as (m & Hrun & Hinv & HA & _ & Hsz).
  { vm_compute. discriminate. }
  exists m. split; [exact Hrun|].
  apply (InsertAfter_before_begin_equals_PushFront first_fit_allocator m 1%positive
           [20; 30] 10 first_fit_laws Hinv HA).
  unfold room. simpl in *. change (capacity first_fit_allocator) with (SIZE_MOD - 1).
  assert (1 < SIZE_MOD - 1 - 2) by (vm_compute; reflexivity). lia.
Defined.

(** C5: on every non-empty list, [EraseAfter(before_begin())] and
    [PopFront()] both return and leave the same memory, in which the list
    has lost its first element and its size is one less. *)
Theorem EraseAfter_before_begin_equals_PopFront {T}
    (m : Mem T) (L : loc) (v : T) (vs : list T) :
  mem_invariant m →
  reads_as m L (v :: vs) →
  ∃ m' it,
    (let* pos := before_begin L in EraseAfter L pos) m = inr (it, m')
    ∧ PopFront L m = inr (tt, m')
    ∧ GetSize L m' = inr (Z.of_nat (length vs), m')
    ∧ ∀ fuel, (length vs < fuel)%nat → elements fuel L m' = inr (vs, m').
Proof.
  intros [σ Hr] Hreads.
  destruct (reads_as_inv _ _ _ _ Hr Hreads) as (cs & Hl & Hcs).
  destruct cs as [|[c w] rest]; simplify_eq/=.
  destruct (PopFront_spec m σ L c v rest) as (m' & Hrun & _ & Hr'); [done|done|].
  pose proof (reads_as_intro m' _ L _ Hr' (lookup_insert_eq _ _ _)) as [Hsz Hel].
  exists m', (Iterator (first_ptr nullptr rest)). split_and!.
  - unfold before_begin, bind, ret. rewrite EraseAfter_sentinel.
    unfold bind. rewrite Hrun. by rewrite (list_begin_spec _ _ _ _ Hr' (lookup_insert_eq _ _ _)).
  - done.
  - done.
  - done.
Qed.

Lemma EraseAfter_before_begin_equals_PopFront_witness :
  ∃ m, two_lists [10; 20; 30] [] empty_mem = inr (tt, m)
       ∧ ∃ m' it,
           (let* pos := before_begin 1%positive in EraseAfter 1%positive pos) m
             = inr (it, m')
           ∧ PopFront 1%positive m = inr (tt, m')
           ∧ GetSize 1%positive m' = inr (2, m')
           ∧ ∀ fuel, (2 < fuel)%nat → elements fuel 1%positive m' = inr ([20; 30], m').
Proof.
  destruct (two_lists_spec [10; 20; 30] []) as (m & Hrun & Hinv & HA & _ & Hsz).
  { vm_compute. discriminate. }
  exists m. split; [exact Hrun|].
  exact (EraseAfter_before_begin_equals_PopFront m 1%positive 10 [20; 30] Hinv HA).
Defined.

(** C6: in a memory that satisfies the invariant, [GetSize()] of every
    list is the number of real nodes reachable from the link of its
    sentinel; and every operation (the constructors, [PushFront],
    [PopFront] on a non-empty list, [InsertAfter] with a cursor of the
    list, [EraseAfter] with a cursor that has a successor, [Clear],
    [swap], copy assignment), run within its contract, returns and
    leaves a memory that satisfies the invariant again. *)
Theorem count_invariant_preserved {T} (alloc : Allocator) (fuel : nat)
    (m : Mem T) (op : operation T) :
  allocator_laws alloc →
  mem_invariant m →
  operation_allowed alloc fuel m op →
  (∀ l, is_Some (lists m !! l) → count_matches_chain m l)
  ∧ ∃ m', perform alloc fuel op m = inr (tt, m')
          ∧ mem_invariant m'
          ∧ ∀ l, is_Some (lists m' !! l) → count_matches_chain m' l.
Proof.
  intros Hlaws [σ Hr] Hok. split.
  - intros l. by eapply count_matches_chain_intro.
  - destruct (perform_represents alloc Hlaws fuel m σ op Hr Hok) as (m' & σ' & Hrun & Hr').
    exists m'. split_and!; [done|by eexists|].
    intros l. by eapply count_matches_chain_intro.
Qed.

Lemma count_invariant_preserved_witness :
  (∀ l, is_Some (lists (T := Z) empty_mem !! l) → count_matches_chain (T := Z) empty_mem l)
  ∧ ∃ m', perform first_fit_allocator 4 (OpInitializerList 1%positive [10; 20; 30]) empty_mem
            = inr (tt, m')
          ∧ mem_invariant m'
          ∧ ∀ l, is_Some (lists m' !! l) → count_matches_chain m' l.
Proof.
  apply (count_invariant_preserved first_fit_allocator 4 empty_mem
           (OpInitializerList 1%positive [10; 20; 30])).
  - exact first_fit_laws.
  - apply mem_invariant_empty.
  - simpl. split; [reflexivity|]. split; [|lia].
    unfold room. vm_compute. discriminate.
Defined.

Lemma mutate_all_frame {T} (alloc : Allocator) (m : Mem T) σ l l' cs cs' μs :
  allocator_laws alloc →
  represents m σ → σ !! l = Some cs → σ !! l' = Some cs' → l ≠ l' →
  mutations_allowed cs.*2 μs →
  room alloc m (length μs) →
  ∃ m2, mutate_all alloc l μs m = inr (tt, m2)
        ∧ reads_as m2 l (mutated_all μs cs.*2)
        ∧ reads_as m2 l' cs'.*2.
Proof.
  intros Hlaws Hr Hl Hl' Hne Hok Hroom.
  destruct (mutate_all_spec alloc Hlaws l μs m σ cs) as (m2 & cs2 & Hrun & Hcs2 & Hr2);
    try done.
  exists m2. split_and!; [done| |].
  - rewrite <- Hcs2. eapply reads_as_intro; [done|]. apply lookup_insert_eq.
  - eapply reads_as_intro; [done|]. by rewrite lookup_insert_ne.
Qed.

(** C7, as stated, fails on the list [{NaN}] of [double]s: its copy, made
    by the copy constructor or by copy assignment, has the one element of
    the list, and [A == B] returns [false], since [NaN == NaN] is false. *)
Lemma copy_of_nan_list_compares_unequal :
  result_of ((list_and_copy ByCopyConstruction [PrimFloat.nan] ;;; GetSize 2%positive)
               empty_mem) = inr 1
  ∧ result_of ((list_and_copy ByCopyConstruction [PrimFloat.nan] ;;;
                operator_eq 10 1%positive 2%positive) empty_mem) = inr false
  ∧ result_of ((list_and_copy ByCopyAssignment [PrimFloat.nan] ;;; GetSize 2%positive)
                 empty_mem) = inr 1
  ∧ result_of ((list_and_copy ByCopyAssignment [PrimFloat.nan] ;;;
                operator_eq 10 1%positive 2%positive) empty_mem) = inr false.
Proof. split_and!; vm_compute; reflexivity. Qed.

(** C7, amended: a copy [B] of a list [A], made by copy construction or by
    copy assignment, has the length and the elements of [A] in the same
    order; [A == B] returns, and it returns [true] if and only if every
    element of [A] is equal to itself under the [operator==] of the
    element type, so always when that operator is reflexive; mutating
    [B] afterwards (push, pop, insert, erase, any number of times) leaves
    the sequence of [A] as it was, and the other way round; and the
    self-assignment [A = A] leaves the memory, hence the size, the order
    and the values of [A], untouched. *)
Theorem copy_is_equal_and_independent {T} {E : ElementOps T} (alloc : Allocator)
    (fuel : nat) (how : copy_how) (m : Mem T) (A B : loc) (vs : list T) :
  allocator_laws alloc →
  mem_invariant m →
  reads_as m A vs →
  A ≠ B →
  copy_target_allowed fuel how m B →
  room alloc m (length vs) →
  (length vs < fuel)%nat →
  ∃ m1,
    copy_into alloc fuel how B A m = inr (tt, m1)
    ∧ reads_as m1 A vs
    ∧ reads_as m1 B vs
    ∧ (∀ fuel', (length vs < fuel')%nat →
       ∃ b, operator_eq fuel' A B m1 = inr (b, m1)
            ∧ (b = true ↔ Forall (λ x, elem_eq x x = true) vs)
            ∧ ((∀ x, elem_eq x x = true) → b = true))
    ∧ (∀ μs, mutations_allowed vs μs → room alloc m1 (length μs) →
       ∃ m2, mutate_all alloc B μs m1 = inr (tt, m2)
             ∧ reads_as m2 A vs
             ∧ reads_as m2 B (mutated_all μs vs))
    ∧ (∀ μs, mutations_allowed vs μs → room alloc m1 (length μs) →
       ∃ m2, mutate_all alloc A μs m1 = inr (tt, m2)
             ∧ reads_as m2 B vs
             ∧ reads_as m2 A (mutated_all μs vs))
    ∧ assign alloc fuel A A m = inr (A, m).
Proof.
  intros Hlaws [σ Hr] Hreads Hne Htarget Hroom Hfuel. unfold room in Hroom.
  destruct (reads_as_inv _ _ _ _ Hr Hreads) as (csA & HA & <-).
  rewrite length_fmap in *.
  assert (∃ m1 csB, copy_into alloc fuel how B A m = inr (tt, m1)
                    ∧ csB.*2 = csA.*2
                    ∧ represents m1 (<[B := csB]> σ)) as (m1 & csB & Hrun & HcsB & Hr1).
  { destruct how; simpl in *.
    - pose proof (lists_None_inv _ _ _ Hr Htarget) as HB.
      destruct (SingleLinkedList_copy_spec alloc Hlaws m σ B A csA fuel)
        as (m1 & csB & Hrun & HcsB & _ & Hr1); eauto.
    - destruct Htarget as (n & Hlive & Hn).
      destruct (live_inv _ _ _ _ Hr Hlive) as (cs0 & HB & <-).
      destruct (assign_spec alloc Hlaws m σ B A cs0 csA fuel)
        as (m1 & csB & Hrun & HcsB & _ & Hr1); try done.
      exists m1, csB. split_and!; [|done|done]. unfold bind. by rewrite Hrun. }
  assert (HA1 : <[B := csB]> σ !! A = Some csA) by (by rewrite lookup_insert_ne).
  assert (HB1 : <[B := csB]> σ !! B = Some csB) by apply lookup_insert_eq.
  exists m1. split_and!.
  - done.
  - by eapply reads_as_intro.
  - rewrite <- HcsB. by eapply reads_as_intro.
  - intros fuel' Hfuel'.
    destruct (equal_outcome_self csA.*2) as (b & Hb & Hiff).
    exists b. split_and!; [|done|].
    + rewrite (operator_eq_spec m1 _ A B csA csB fuel' Hr1 HA1 HB1 Hfuel').
      by rewrite HcsB, Hb.
    + intros Hrefl. apply Hiff, Forall_forall. intros x _. apply Hrefl.
  - intros μs Hok Hroom1. rewrite <- HcsB in Hok.
    destruct (mutate_all_frame alloc m1 _ B A csB csA μs Hlaws Hr1 HB1 HA1)
      as (m2 & Hrun2 & HB2 & HA2); try done.
    exists m2. rewrite HcsB in HB2. by split_and!.
  - intros μs Hok Hroom1.
    destruct (mutate_all_frame alloc m1 _ A B csA csB μs Hlaws Hr1 HA1 HB1)
      as (m2 & Hrun2 & HA2 & HB2); try done.
    exists m2. rewrite HcsB in HB2. by split_and!.
  - apply assign_self.
Qed.

Lemma copy_is_equal_and_independent_witness :
  ∃ m, two_lists [10; 20; 30] [7] empty_mem = inr (tt, m)
       ∧ ∃ m1,
           copy_into first_fit_allocator 4 ByCopyAssignment 2%positive 1%positive m
             = inr (tt, m1)
           ∧ reads_as m1 1%positive [10; 20; 30]
           ∧ reads_as m1 2%positive [10; 20; 30]
           ∧ operator_eq 4 1%positive 2%positive m1 = inr (true, m1).
Proof.
  destruct (two_lists_spec [10; 20; 30] [7]) as (m & Hrun & Hinv & HA & HB & Hsz).
  { vm_compute. discriminate. }
  exists m. split; [exact Hrun|].
  destruct (copy_is_equal_and_independent first_fit_allocator 4 ByCopyAssignment
              m 1%positive 2%positive [10; 20; 30] first_fit_laws Hinv HA)
    as (m1 & Hcopy & HA1 & HB1 & Heq & _).
  - discriminate.
  - exists 1%nat. split; [exact (proj1 HB)|lia].
  - unfold room. simpl in *. change (capacity first_fit_allocator) with (SIZE_MOD - 1).
    assert (3 < SIZE_MOD - 1 - 4) by (vm_compute; reflexivity). lia.
  - simpl. lia.
  - exists m1. split_and!; [done|done|done|].
    destruct (Heq 4%nat) as (b & Hb & _ & Hrefl); [simpl; lia|].
    rewrite (Hrefl Z.eqb_refl) in Hb. exact Hb.
Defined.

(** C8: [A != B] returns [!(A == B)]; [A > B] returns what [B < A]
    returns; [A <= B] returns [!(A > B)]; [A >= B] returns [!(A < B)]:
    the derived operators call nothing but [operator==] and [operator<],
    and fail exactly when those do. *)
Theorem derived_operators {T} {E : ElementOps T} (fuel : nat) (m : Mem T) (A B : loc) :
  operator_ne fuel A B m
    = match operator_eq fuel A B m with
      | inl e => inl e
      | inr (b, m') => inr (negb b, m')
      end
  ∧ operator_gt fuel A B m = operator_lt fuel B A m
  ∧ operator_le fuel A B m
    = match operator_gt fuel A B m with
      | inl e => inl e
      | inr (b, m') => inr (negb b, m')
      end
  ∧ operator_ge fuel A B m
    = match operator_lt fuel A B m with
      | inl e => inl e
      | inr (b, m') => inr (negb b, m')
      end.
Proof.
  split_and!.
  - unfold operator_ne, bind. by destruct (operator_eq fuel A B m) as [e|[b m']].
  - reflexivity.
  - unfold operator_le, bind. by destruct (operator_gt fuel A B m) as [e|[b m']].
  - unfold operator_ge, bind. by destruct (operator_lt fuel A B m) as [e|[b m']].
Qed.



(** C1, on the input [{1, 2}] and [{1, 2, 3}]: the lists have the sizes 2
    and 3, and [operator==] returns [true]; with the operands exchanged
    it reads through the null end cursor of the shorter list. *)
Theorem operator_eq_ignores_length :
  result_of ((two_lists [1; 2] [1; 2; 3] ;;; GetSize 1%positive) empty_mem) = inr 2
  ∧ result_of ((two_lists [1; 2] [1; 2; 3] ;;; GetSize 2%positive) empty_mem) = inr 3
  ∧ result_of ((two_lists [1; 2] [1; 2; 3] ;;; operator_eq 10 1%positive 2%positive)
                 empty_mem) = inr true
  ∧ result_of ((two_lists [1; 2] [1; 2; 3] ;;; operator_eq 10 2%positive 1%positive)
                 empty_mem) = inl undefined_behavior.
Proof. split_and!; vm_compute; reflexivity. Qed.

(** C10, as stated, fails on [{1, 2, 3}] and [{9}]: the first list is the
    longer one, and [operator==] returns [false] at the first pair of
    elements without reading past the end of the second. *)
Lemma operator_eq_longer_lhs_can_return :
  result_of ((two_lists [1; 2; 3] [9] ;;; GetSize 1%positive) empty_mem) = inr 3
  ∧ result_of ((two_lists [1; 2; 3] [9] ;;; GetSize 2%positive) empty_mem) = inr 1
  ∧ result_of ((two_lists [1; 2; 3] [9] ;;; operator_eq 10 1%positive 2%positive)
                 empty_mem) = inr false.
Proof. split_and!; vm_compute; reflexivity. Qed.

(** C10, amended: [operator==(A, B)] reads through the null end cursor of
    [B] exactly when [B] is shorter than [A] and the elements of [B] are
    pairwise equal to the first [GetSize(B)] elements of [A]; when [B] is
    shorter than [A] and one of those pairs differs it returns [false],
    the memory unchanged; in every case in which it does not read through
    the null cursor it returns, so it does whenever
    [GetSize(A) <= GetSize(B)]. *)
Theorem operator_eq_out_of_range {T} {E : ElementOps T}
    (m : Mem T) (A B : loc) (xs ys : list T) (fuel : nat) :
  mem_invariant m →
  reads_as m A xs →
  reads_as m B ys →
  (length xs < fuel)%nat →
  (operator_eq fuel A B m = inl undefined_behavior
   ↔ (length ys < length xs)%nat ∧ values_equal (take (length ys) xs) ys)
  ∧ ((length ys < length xs)%nat →
     ¬ values_equal (take (length ys) xs) ys →
     operator_eq fuel A B m = inr (false, m))
  ∧ (operator_eq fuel A B m ≠ inl undefined_behavior →
     ∃ b, operator_eq fuel A B m = inr (b, m))
  ∧ ((length xs ≤ length ys)%nat → ∃ b, operator_eq fuel A B m = inr (b, m)).
Proof.
  intros [σ Hr] HA HB Hfuel.
  destruct (reads_as_inv _ _ _ _ Hr HA) as (cs1 & Hl1 & <-).
  destruct (reads_as_inv _ _ _ _ Hr HB) as (cs2 & Hl2 & <-).
  rewrite length_fmap in Hfuel.
  rewrite (operator_eq_spec m σ A B cs1 cs2 fuel Hr Hl1 Hl2 Hfuel).
  pose proof (equal_outcome_undefined cs1.*2 cs2.*2) as Hub.
  pose proof (equal_outcome_true_length cs1.*2 cs2.*2) as Htrue.
  destruct (equal_outcome_cases cs1.*2 cs2.*2) as [Hcase|[b Hcase]]; rewrite Hcase in *.
  - destruct (proj1 Hub eq_refl) as [Hlt Heq].
    split_and!; [done| |done|].
    + by intros _ Hne.
    + intros Hlen. rewrite !length_fmap in *. lia.
  - split_and!; [| |by eauto|by eauto].
    + split; [done|]. intros H. by apply Hub in H.
    + intros Hlt _. destruct b; [|done].
      specialize (Htrue eq_refl). lia.
Qed.

Lemma operator_eq_out_of_range_witness :
  (∃ m, two_lists [1; 2; 3] [1; 2] empty_mem = inr (tt, m)
        ∧ operator_eq 4 1%positive 2%positive m = inl undefined_behavior)
  ∧ (∃ m, two_lists [1; 2; 3] [9] empty_mem = inr (tt, m)
          ∧ operator_eq 4 1%positive 2%positive m = inr (false, m)).
Proof.
  split.
  - destruct (two_lists_spec [1; 2; 3] [1; 2]) as (m & Hrun & Hinv & HA & HB & Hsz).
    { vm_compute. discriminate. }
    exists m. split; [exact Hrun|].
    destruct (operator_eq_out_of_range m 1%positive 2%positive [1; 2; 3] [1; 2] 4
                Hinv HA HB) as [Hiff _].
    + simpl. lia.
    + apply Hiff. split; [simpl; lia|]. repeat constructor.
  - destruct (two_lists_spec [1; 2; 3] [9]) as (m & Hrun & Hinv & HA & HB & Hsz).
    { vm_compute. discriminate. }
    exists m. split; [exact Hrun|].
    destruct (operator_eq_out_of_range m 1%positive 2%positive [1; 2; 3] [9] 4
                Hinv HA HB) as (_ & Hfalse & _).
    + simpl. lia.
    + apply Hfalse; [simpl; lia|]. simpl.
      intros Heq. inversion Heq as [|? ? ? ? H19 _]; subst. discriminate H19.
Defined.

(** C3: [operator<(A, B)] returns, and it returns [true] if and only if
    the elements of [A] are lexicographically less than the elements of
    [B] under the [operator<] of the element type. *)
Theorem operator_lt_is_lexicographic {T} {E : ElementOps T}
    (m : Mem T) (A B : loc) (xs ys : list T) (fuel : nat) :
  mem_invariant m →
  reads_as m A xs →
  reads_as m B ys →
  (length xs < fuel)%nat →
  ∃ b, operator_lt fuel A B m = inr (b, m) ∧ (b = true ↔ lex_less xs ys).
Proof.
  intros [σ Hr] HA HB Hfuel.
  destruct (reads_as_inv _ _ _ _ Hr HA) as (cs1 & Hl1 & <-).
  destruct (reads_as_inv _ _ _ _ Hr HB) as (cs2 & Hl2 & <-).
  rewrite length_fmap in Hfuel.
  exists (lexicographical_outcome cs1.*2 cs2.*2). split.
  - by apply (operator_lt_spec m σ).
  - apply lexicographical_outcome_lex_less.
Qed.

Lemma operator_lt_is_lexicographic_witness :
  (∃ m, two_lists [1; 2] [1; 3] empty_mem = inr (tt, m)
        ∧ operator_lt 3 1%positive 2%positive m = inr (true, m))
  ∧ (∃ m, two_lists [1] [1; 2] empty_mem = inr (tt, m)
          ∧ operator_lt 2 1%positive 2%positive m = inr (true, m))
  ∧ (∃ m, two_lists [] [1] empty_mem = inr (tt, m)
          ∧ operator_lt 1 1%positive 2%positive m = inr (true, m)).
Proof.
  split_and!.
  - destruct (two_lists_spec [1; 2] [1; 3]) as (m & Hrun & Hinv & HA & HB & Hsz).
    { vm_compute. discriminate. }
    exists m. split; [exact Hrun|].
    destruct (operator_lt_is_lexicographic m 1%positive 2%positive [1; 2] [1; 3] 3
                Hinv HA HB) as (b & Hb & Hiff); [simpl; lia|].
    replace b with true in Hb; [exact Hb|].
    symmetry. apply Hiff.
    apply lex_less_tail; [reflexivity|reflexivity|]. by apply lex_less_head.
  - destruct (two_lists_spec [1] [1; 2]) as (m & Hrun & Hinv & HA & HB & Hsz).
    { vm_compute. discriminate. }
    exists m. split; [exact Hrun|].
    destruct (operator_lt_is_lexicographic m 1%positive 2%positive [1] [1; 2] 2
                Hinv HA HB) as (b & Hb & Hiff); [simpl; lia|].
    replace b with true in Hb; [exact Hb|].
    symmetry. apply Hiff.
    apply lex_less_tail; [reflexivity|reflexivity|]. apply lex_less_nil.
  - destruct (two_lists_spec [] [1]) as (m & Hrun & Hinv & HA & HB & Hsz).
    { vm_compute. discriminate. }
    exists m. split; [exact Hrun|].
    destruct (operator_lt_is_lexicographic m 1%positive 2%positive [] [1] 1
                Hinv HA HB) as (b & Hb & Hiff); [simpl; lia|].
    replace b with true in Hb; [exact Hb|].
    symmetry. apply Hiff. apply lex_less_nil.
Defined.

(** * The scenario of the specification *)

(** [List{10, 20, 30}]; [InsertAfter(cursor to 20, 25)]; [EraseAfter(cursor
    to 20)]; [PopFront()]: the elements and the size after each step. *)
Example end_to_end_scenario :
  result_of
    ((two_lists [10; 20; 30] [] ;;;
      mutate first_fit_allocator 1%positive (DoInsertAfter 2 25) ;;;
      let* e1 := elements 10 1%positive in
      let* s1 := GetSize 1%positive in
      mutate first_fit_allocator 1%positive (DoEraseAfter 2) ;;;
      let* e2 := elements 10 1%positive in
      let* s2 := GetSize 1%positive in
      PopFront 1%positive ;;;
      let* e3 := elements 10 1%positive in
      let* s3 := GetSize 1%positive in
      ret (e1, s1, e2, s2, e3, s3)) empty_mem)
  = inr ([10; 20; 25; 30], 4, [10; 20; 30], 3, [20; 30], 2).
Proof. vm_compute. reflexivity. Qed.

(** [Clear()] empties a list and leaves it usable. *)
Example clear_then_push :
  result_of
    ((two_lists [10; 20; 30] [] ;;;
      Clear 10 1%positive ;;;
      let* b := IsEmpty 1%positive in
      let* s := GetSize 1%positive in
      PushFront first_fit_allocator 1%positive 7 ;;;
      let* e := elements 10 1%positive in
      ret (b, s, e)) empty_mem)
  = inr (true, 0, [7]).
Proof. vm_compute. reflexivity. Qed.

(** * Further properties of the member functions *)

Lemma mem_eq {T} (m m' : Mem T) :
  nodes m = nodes m' → lists m = lists m' → m = m'.
Proof. destruct m, m'. simpl. by intros -> ->. Qed.

Lemma represents_lists_eq {T} (m m' : Mem T) σ :
  represents m σ → represents m' σ → lists m = lists m'.
Proof. intros Hr Hr'. by rewrite (rep_lists _ _ Hr), (rep_lists _ _ Hr'). Qed.

Lemma reads_as_live {T} (m : Mem T) l vs : reads_as m l vs → live m l (length vs).
Proof. by intros [? _]. Qed.

(** X1: [PushFront(x)] followed by [PopFront()] gives back the memory as
    it was: the list, its count, and the free store, where the node that
    was allocated has been freed again. *)
Theorem PushFront_PopFront_restores_memory {T} (alloc : Allocator)
    (m : Mem T) (L : loc) (n : nat) (x : T) :
  allocator_laws alloc →
  mem_invariant m →
  live m L n →
  room alloc m 1 →
  (PushFront alloc L x ;;; PopFront L) m = inr (tt, m).
Proof.
  intros Hlaws [σ Hr] Hlive Hroom. unfold room in Hroom.
  destruct (live_inv _ _ _ _ Hr Hlive) as (cs & Hl & _).
  destruct (PushFront_spec alloc Hlaws m σ L cs x) as (a & m1 & Ha & Hrun1 & Hn1 & Hr1);
    [done|done|lia|].
  destruct (PopFront_spec m1 _ L a x cs Hr1) as (m2 & Hrun2 & Hn2 & Hr2);
    [apply lookup_insert_eq|].
  rewrite insert_insert_eq, insert_id in Hr2 by done.
  unfold bind. rewrite Hrun1, Hrun2. do 2 f_equal. apply mem_eq.
  - rewrite Hn2, Hn1. apply delete_insert_id.
    by eapply not_elem_of_dom, (new_addr_fresh alloc Hlaws).
  - by eapply represents_lists_eq.
Qed.

Lemma PushFront_PopFront_restores_memory_witness :
  ∃ m, two_lists [20; 30] [] empty_mem = inr (tt, m)
       ∧ (PushFront first_fit_allocator 1%positive 10 ;;; PopFront 1%positive) m
         = inr (tt, m).
Proof.
  destruct (two_lists_spec [20; 30] []) as (m & Hrun & Hinv & HA & _ & Hsz).
  { vm_compute. discriminate. }
  exists m. split; [exact Hrun|].
  apply (PushFront_PopFront_restores_memory first_fit_allocator m 1%positive 2 10
           first_fit_laws Hinv (proj1 HA)).
  unfold room. simpl in *. change (capacity first_fit_allocator) with (SIZE_MOD - 1).
  assert (1 < SIZE_MOD - 1 - 2) by (vm_compute; reflexivity). lia.
Defined.

(** X2: [PopFront()] is undefined exactly on the empty list: there it
    follows the null link of the sentinel, and on every other list it
    returns. *)
Theorem PopFront_undefined_iff_empty {T} (m : Mem T) (L : loc) (vs : list T) :
  mem_invariant m →
  reads_as m L vs →
  (PopFront L m = inl undefined_behavior ↔ vs = [])
  ∧ (vs ≠ [] → ∃ m', PopFront L m = inr (tt, m')).
Proof.
  intros [σ Hr] Hreads.
  destruct (reads_as_inv _ _ _ _ Hr Hreads) as (cs & Hl & <-).
  destruct cs as [|[c w] rest].
  - split; [|done]. split; [done|]. intros _.
    pose proof (represents_lookup _ _ _ _ Hr Hl) as Hls.
    destruct m as [h ls]. simpl in *. unfold PopFront. by run.
  - destruct (PopFront_spec m σ L c w rest Hr Hl) as (m' & Hrun & _).
    rewrite Hrun. split; [|by eauto]. split; discriminate.
Qed.

Lemma PopFront_undefined_iff_empty_witness :
  ∃ m, two_lists [] [7] empty_mem = inr (tt, m)
       ∧ PopFront 1%positive m = inl undefined_behavior
       ∧ ∃ m', PopFront 2%positive m = inr (tt, m').
Proof.
  destruct (two_lists_spec [] [7]) as (m & Hrun & Hinv & HA & HB & Hsz).
  { vm_compute. discriminate. }
  exists m. split; [exact Hrun|]. split.
  - apply (PopFront_undefined_iff_empty m 1%positive [] Hinv HA). reflexivity.
  - apply (PopFront_undefined_iff_empty m 2%positive [7] Hinv HB). discriminate.
Defined.

Lemma linked_elem_of {T} (h : gmap positive (Node T)) q (cs : chain T) b v :
  linked h q cs → (b, v) ∈ cs → ∃ n, h !! b = Some (mkNode v n).
Proof.
  induction cs as [|[c w] cs IH]; simpl; [by intros _ ?%elem_of_nil|].
  intros [Hc Hlk] [Heq|Hin]%elem_of_cons; [|by auto].
  simplify_eq. by eexists.
Qed.

Lemma node_before_take_drop {T} l (cs rest : chain T) k :
  (k ≤ length cs)%nat →
  node_before l (take k cs ++ rest) k = node_before l cs k.
Proof.
  intros Hk. destruct k as [|j]; [done|]. simpl.
  destruct (lookup_lt_is_Some_2 cs j) as [[b v] Hj]; [lia|].
  rewrite (take_S_r _ _ _ Hj), <- !app_assoc.
  rewrite drop_app_length' by (rewrite length_take; lia).
  by rewrite (drop_S _ _ _ Hj).
Qed.

Lemma cursor_spec {T} (m : Mem T) σ l cs k :
  represents m σ → σ !! l = Some cs → (k ≤ length cs)%nat →
  (let* b := before_begin l in advance k b) m
  = inr (Iterator (node_before l cs k), m).
Proof.
  intros Hr Hl Hk. unfold before_begin, bind, ret.
  by apply (advance_before_begin m σ).
Qed.

(** A cursor of a list that refers to a real node reads the value of
    that node in every memory in which the node is still in a chain. *)
Lemma cursor_deref_stable {T} (m' : Mem T) l (cs cs' : chain T) j b v :
  cs !! j = Some (b, v) → (b, v) ∈ cs' → linked (nodes m') nullptr cs' →
  iter_deref (Iterator (node_before l cs (S j))) m' = inr (v, m').
Proof.
  intros Hj Hin Hlk. simpl. rewrite (drop_S _ _ _ Hj). simpl.
  destruct (linked_elem_of _ _ _ _ _ Hlk Hin) as [n Hn].
  unfold iter_deref, load_value. simpl. by rewrite Hn.
Qed.

(** X3: [InsertAfter] with the cursor [k] steps after [before_begin()]
    puts [x] behind the first [k] elements and returns a cursor to the
    new node: dereferencing it yields [x], and it is what [++pos] now
    gives.  Every cursor to an element of the list still reads the same
    value afterwards. *)
Theorem InsertAfter_at_cursor {T} (alloc : Allocator)
    (m : Mem T) (L : loc) (vs : list T) (k : nat) (x : T) :
  allocator_laws alloc →
  mem_invariant m →
  reads_as m L vs →
  (k ≤ length vs)%nat →
  room alloc m 1 →
  ∃ pos it m',
    (let* b := before_begin L in advance k b) m = inr (pos, m)
    ∧ InsertAfter alloc L pos x m = inr (it, m')
    ∧ reads_as m' L (take k vs ++ x :: drop k vs)
    ∧ iter_deref it m' = inr (x, m')
    ∧ iter_incr pos m' = inr (it, m')
    ∧ ∀ j v c, vs !! j = Some v →
        (let* b := before_begin L in advance (S j) b) m = inr (c, m) →
        iter_deref c m' = inr (v, m').
Proof.
  intros Hlaws [σ Hr] Hreads Hk Hroom. unfold room in Hroom.
  destruct (reads_as_inv _ _ _ _ Hr Hreads) as (cs & Hl & <-).
  rewrite length_fmap in Hk.
  destruct (InsertAfter_spec alloc Hlaws m σ L cs k x) as (a & m' & Hrun & _ & Hr');
    [done|done|done|lia|].
  set (cs' := take k cs ++ (a, x) :: drop k cs) in *.
  assert (Hl' : <[L := cs']> σ !! L = Some cs') by apply lookup_insert_eq.
  pose proof (rep_linked _ _ Hr' _ _ Hl') as Hlk'.
  assert (Hk' : cs' !! k = Some (a, x)).
  { unfold cs'. rewrite lookup_app_r; rewrite length_take; [|lia].
    by replace (k - k `min` length cs)%nat with 0%nat by lia. }
  exists (Iterator (node_before L cs k)), (Iterator (cell a)), m'. split_and!.
  - by apply (cursor_spec m σ).
  - done.
  - replace (take k cs.*2 ++ x :: drop k cs.*2) with cs'.*2.
    + by eapply reads_as_intro.
    + unfold cs'. by rewrite fmap_app, fmap_cons, fmap_take, fmap_drop.
  - unfold iter_deref, load_value. simpl.
    by rewrite (linked_lookup _ _ _ _ _ _ Hlk' Hk').
  - unfold iter_incr, bind. simpl.
    rewrite <- (node_before_take_drop L cs ((a, x) :: drop k cs) k Hk). fold cs'.
    rewrite (load_next_node_before m' _ L cs' k Hr' Hl').
    + unfold cs'. rewrite drop_app_length' by (rewrite length_take; lia). done.
    + unfold cs'. rewrite length_app, length_take. simpl. lia.
  - intros j v c Hj Hc.
    apply list_lookup_fmap_Some_1 in Hj as ([b v'] & -> & Hj). simpl.
    rewrite (cursor_spec m σ L cs (S j) Hr Hl) in Hc
      by (apply lookup_lt_Some in Hj; lia).
    simplify_eq. eapply cursor_deref_stable; [done| |done].
    unfold cs'. rewrite <- (take_drop k cs) in Hj.
    apply list_elem_of_lookup_2 in Hj.
    rewrite !elem_of_app, elem_of_cons in *. naive_solver.
Qed.

Lemma InsertAfter_at_cursor_witness :
  ∃ m, two_lists [10; 20; 30] [] empty_mem = inr (tt, m)
       ∧ ∃ pos it m',
           (let* b := before_begin 1%positive in advance 2 b) m = inr (pos, m)
           ∧ InsertAfter first_fit_allocator 1%positive pos 25 m = inr (it, m')
           ∧ reads_as m' 1%positive [10; 20; 25; 30]
           ∧ iter_deref it m' = inr (25, m').
Proof.
  destruct (two_lists_spec [10; 20; 30] []) as (m & Hrun & Hinv & HA & _ & Hsz).
  { vm_compute. discriminate. }
  exists m. split; [exact Hrun|].
  destruct (InsertAfter_at_cursor first_fit_allocator m 1%positive [10; 20; 30] 2 25
              first_fit_laws Hinv HA) as (pos & it & m' & H1 & H2 & H3 & H4 & _).
  - simpl. lia.
  - unfold room. simpl in *. change (capacity first_fit_allocator) with (SIZE_MOD - 1).
    assert (1 < SIZE_MOD - 1 - 3) by (vm_compute; reflexivity). lia.
  - exists pos, it, m'. by split_and!.
Defined.

(** X4: [EraseAfter] with the cursor [k] steps after [before_begin()] is
    undefined exactly when that cursor has no successor.  Otherwise it
    removes the element at index [k] and returns what [++pos] now gives:
    a cursor to the element that followed the removed one, or the end
    cursor if there was none.  Cursors to the other elements still read
    the same values. *)
Theorem EraseAfter_at_cursor {T}
    (m : Mem T) (L : loc) (vs : list T) (k : nat) :
  mem_invariant m →
  reads_as m L vs →
  (k ≤ length vs)%nat →
  ∃ pos,
    (let* b := before_begin L in advance k b) m = inr (pos, m)
    ∧ (EraseAfter L pos m = inl undefined_behavior ↔ k = length vs)
    ∧ ((k < length vs)%nat →
       ∃ it m',
         EraseAfter L pos m = inr (it, m')
         ∧ reads_as m' L (take k vs ++ drop (S k) vs)
         ∧ iter_incr pos m' = inr (it, m')
         ∧ match vs !! S k with
           | Some w => iter_deref it m' = inr (w, m')
           | None => it = BasicIterator_default
           end
         ∧ ∀ j v c, j ≠ k → vs !! j = Some v →
             (let* b := before_begin L in advance (S j) b) m = inr (c, m) →
             iter_deref c m' = inr (v, m')).
Proof.
  intros [σ Hr] Hreads Hk.
  destruct (reads_as_inv _ _ _ _ Hr Hreads) as (cs & Hl & <-).
  rewrite length_fmap in *.
  exists (Iterator (node_before L cs k)).
  split; [by apply (cursor_spec m σ)|].
  destruct (decide (k = length cs)) as [->|Hne].
  - split; [|lia]. split; [done|]. intros _.
    pose proof (load_next_node_before m σ L cs (length cs) Hr Hl (reflexivity _)) as Hnull.
    rewrite drop_all in Hnull. change (first_ptr nullptr []) with nullptr in Hnull.
    unfold EraseAfter, bind. cbn [node_]. rewrite Hnull. by rewrite Hnull.
  - assert (Hlt : (k < length cs)%nat) by lia.
    destruct (EraseAfter_spec m σ L cs k Hr Hl Hlt) as (m' & Hrun & _ & Hr').
    set (cs' := take k cs ++ drop (S k) cs) in *.
    assert (Hl' : <[L := cs']> σ !! L = Some cs') by apply lookup_insert_eq.
    pose proof (rep_linked _ _ Hr' _ _ Hl') as Hlk'.
    assert (Hdrop : drop k cs' = drop (S k) cs).
    { unfold cs'. by rewrite drop_app_length' by (rewrite length_take; lia). }
    split; [rewrite Hrun; split; [discriminate|lia]|].
    intros _. exists (Iterator (first_ptr nullptr (drop (S k) cs))), m'. split_and!.
    + done.
    + replace (take k cs.*2 ++ drop (S k) cs.*2) with cs'.*2.
      * by eapply reads_as_intro.
      * unfold cs'. by rewrite fmap_app, fmap_take, fmap_drop.
    + unfold iter_incr, bind. simpl.
      rewrite <- (node_before_take_drop L cs (drop (S k) cs) k Hk). fold cs'.
      rewrite (load_next_node_before m' _ L cs' k Hr' Hl').
      * by rewrite Hdrop.
      * unfold cs'. rewrite length_app, length_take. lia.
    + rewrite list_lookup_fmap.
      destruct (cs !! S k) as [[c w]|] eqn:HSk; simpl.
      * rewrite (drop_S _ _ _ HSk). simpl.
        assert (Hin : (c, w) ∈ cs').
        { unfold cs'. apply elem_of_app. right.
          rewrite (drop_S _ _ _ HSk). by left. }
        destruct (linked_elem_of _ _ _ _ _ Hlk' Hin) as [n Hn].
        unfold iter_deref, load_value. simpl. by rewrite Hn.
      * apply lookup_ge_None in HSk. by rewrite drop_ge.
    + intros j v c Hjk Hj Hc.
      apply list_lookup_fmap_Some_1 in Hj as ([b v'] & -> & Hj). simpl.
      rewrite (cursor_spec m σ L cs (S j) Hr Hl) in Hc
        by (apply lookup_lt_Some in Hj; lia).
      simplify_eq. eapply cursor_deref_stable; [done| |done].
      unfold cs'. apply elem_of_app.
      destruct (decide (j < k)%nat) as [Hlt'|Hge].
      * left. apply list_elem_of_lookup_2 with j. by rewrite lookup_take_lt.
      * right. apply list_elem_of_lookup_2 with (j - S k)%nat.
        rewrite lookup_drop. by replace (S k + (j - S k))%nat with j by lia.
Qed.

Lemma EraseAfter_at_cursor_witness :
  ∃ m, two_lists [10; 20; 25; 30] [] empty_mem = inr (tt, m)
       ∧ ∃ pos it m',
           (let* b := before_begin 1%positive in advance 2 b) m = inr (pos, m)
           ∧ EraseAfter 1%positive pos m = inr (it, m')
           ∧ reads_as m' 1%positive [10; 20; 30]
           ∧ iter_deref it m' = inr (30, m').
Proof.
  destruct (two_lists_spec [10; 20; 25; 30] []) as (m & Hrun & Hinv & HA & _ & Hsz).
  { vm_compute. discriminate. }
  exists m. split; [exact Hrun|].
  destruct (EraseAfter_at_cursor m 1%positive [10; 20; 25; 30] 2 Hinv HA)
    as (pos & Hpos & _ & Herase); [simpl; lia|].
  destruct Herase as (it & m' & H1 & H2 & _ & H4 & _); [simpl; lia|].
  exists pos, it, m'. by split_and!.
Defined.

(** X5: [swap] exchanges the sequences of the two lists and touches no
    node, so every cursor still reads the same value; every other list
    reads as before; the free [swap] does the same; and a second [swap]
    gives back the memory as it was. *)
Theorem swap_exchanges_contents {T}
    (m : Mem T) (A B : loc) (xs ys : list T) :
  mem_invariant m →
  reads_as m A xs →
  reads_as m B ys →
  ∃ m',
    swap A B m = inr (tt, m')
    ∧ swap_free A B m = inr (tt, m')
    ∧ nodes m' = nodes m
    ∧ reads_as m' A ys
    ∧ reads_as m' B xs
    ∧ (∀ C zs, C ≠ A → C ≠ B → reads_as m C zs → reads_as m' C zs)
    ∧ swap A B m' = inr (tt, m).
Proof.
  intros [σ Hr] HA HB.
  destruct (reads_as_inv _ _ _ _ Hr HA) as (cs1 & Hl1 & <-).
  destruct (reads_as_inv _ _ _ _ Hr HB) as (cs2 & Hl2 & <-).
  destruct (swap_spec m σ A B cs1 cs2 Hr Hl1 Hl2) as (m' & Hrun & Hn & Hr').
  set (σ' := <[B := cs1]> (<[A := cs2]> σ)) in *.
  assert (HB' : σ' !! B = Some cs1) by apply lookup_insert_eq.
  assert (HA' : σ' !! A = Some cs2).
  { unfold σ'. destruct (decide (A = B)) as [->|?].
    - rewrite lookup_insert_eq. congruence.
    - rewrite lookup_insert_ne by done. apply lookup_insert_eq. }
  exists m'. split_and!; [done|done|done| | | |].
  - by eapply reads_as_intro.
  - by eapply reads_as_intro.
  - intros C zs HCA HCB HC.
    destruct (reads_as_inv _ _ _ _ Hr HC) as (cs3 & Hl3 & <-).
    eapply reads_as_intro; [done|]. unfold σ'. by rewrite !lookup_insert_ne.
  - destruct (swap_spec m' σ' A B cs2 cs1 Hr' HA' HB') as (m'' & Hrun' & Hn' & Hr'').
    rewrite Hrun'. do 2 f_equal. apply mem_eq; [congruence|].
    eapply represents_lists_eq; [done|].
    replace (<[B := cs2]> (<[A := cs1]> σ')) with σ; [done|].
    unfold σ'. solve_map_eq.
Qed.

Lemma swap_exchanges_contents_witness :
  ∃ m, two_lists [1; 2; 3] [7] empty_mem = inr (tt, m)
       ∧ ∃ m', swap 1%positive 2%positive m = inr (tt, m')
               ∧ reads_as m' 1%positive [7]
               ∧ reads_as m' 2%positive [1; 2; 3]
               ∧ swap 1%positive 2%positive m' = inr (tt, m).
Proof.
  destruct (two_lists_spec [1; 2; 3] [7]) as (m & Hrun & Hinv & HA & HB & Hsz).
  { vm_compute. discriminate. }
  exists m. split; [exact Hrun|].
  destruct (swap_exchanges_contents m 1%positive 2%positive [1; 2; 3] [7] Hinv HA HB)
    as (m' & H1 & _ & _ & H4 & H5 & _ & H7).
  exists m'. by split_and!.
Defined.

(** X6: [IsEmpty()] returns [true] exactly when the list has no element,
    which is exactly when [begin()] equals [end()]. *)
Theorem IsEmpty_iff_no_elements {T} (m : Mem T) (L : loc) (vs : list T) :
  mem_invariant m →
  reads_as m L vs →
  ∃ e b it_end,
    IsEmpty L m = inr (e, m)
    ∧ list_begin L m = inr (b, m)
    ∧ list_end L m = inr (it_end, m)
    ∧ (e = true ↔ vs = [])
    ∧ (iter_eq b it_end = true ↔ vs = [])
    ∧ (iter_ne b it_end = true ↔ vs ≠ []).
Proof.
  intros [σ Hr] Hreads.
  destruct (reads_as_inv _ _ _ _ Hr Hreads) as (cs & Hl & <-).
  exists (Z.of_nat (length cs) =? 0), (Iterator (first_ptr nullptr cs)),
    BasicIterator_default.
  split_and!.
  - unfold IsEmpty, bind, load_size.
    by rewrite (represents_lookup _ _ _ _ Hr Hl).
  - by eapply list_begin_spec.
  - done.
  - rewrite Z.eqb_eq. destruct cs; simpl; [done|]. split; [lia|done].
  - by destruct cs as [|[a v] cs].
  - by destruct cs as [|[a v] cs].
Qed.

Lemma IsEmpty_iff_no_elements_witness :
  ∃ m, two_lists [] [7] empty_mem = inr (tt, m)
       ∧ IsEmpty 1%positive m = inr (true, m)
       ∧ IsEmpty 2%positive m = inr (false, m).
Proof.
  destruct (two_lists_spec [] [7]) as (m & Hrun & Hinv & HA & HB & Hsz).
  { vm_compute. discriminate. }
  exists m. split; [exact Hrun|]. split.
  - destruct (IsEmpty_iff_no_elements m 1%positive [] Hinv HA)
      as (e & b & it_end & He & _ & _ & Hiff & _).
    replace e with true in He; [exact He|]. symmetry. by apply Hiff.
  - destruct (IsEmpty_iff_no_elements m 2%positive [7] Hinv HB)
      as (e & b & it_end & He & _ & _ & Hiff & _).
    replace e with false in He; [exact He|].
    destruct e; [|reflexivity]. exfalso. discriminate (proj1 Hiff eq_refl).
Defined.

(** X7: walking from [begin()], the cursor reached after [k] increments
    dereferences to the element at index [k]; after as many increments
    as the list has elements the cursor is [end()], and dereferencing or
    incrementing it there is undefined. *)
Theorem traversal_visits_elements {T} (m : Mem T) (L : loc) (vs : list T) :
  mem_invariant m →
  reads_as m L vs →
  (∀ k v, vs !! k = Some v →
     (let* b := list_begin L in let* it := advance k b in iter_deref it) m = inr (v, m))
  ∧ (let* b := list_begin L in advance (length vs) b) m = list_end L m
  ∧ (let* b := list_begin L in let* it := advance (length vs) b in iter_deref it) m
    = inl undefined_behavior
  ∧ (let* b := list_begin L in let* it := advance (length vs) b in iter_incr it) m
    = inl undefined_behavior.
Proof.
  intros [σ Hr] Hreads.
  destruct (reads_as_inv _ _ _ _ Hr Hreads) as (cs & Hl & <-).
  rewrite length_fmap.
  assert (Hadv : ∀ k, (k ≤ length cs)%nat →
            (let* b := list_begin L in advance k b) m
            = inr (Iterator (first_ptr nullptr (drop k cs)), m)).
  { intros k Hk. unfold bind. rewrite (list_begin_spec _ _ _ _ Hr Hl).
    rewrite <- (drop_0 cs) at 1.
    by rewrite (advance_in_chain m σ L cs 0 k Hr Hl). }
  assert (Hbind : ∀ A (f : BasicIterator → M T A) k,
            (let* b := list_begin L in let* it := advance k b in f it) m
            = match (let* b := list_begin L in advance k b) m with
              | inl e => inl e
              | inr (it, m') => f it m'
              end).
  { intros A f k. unfold bind. by destruct (list_begin L m) as [e|[b m']]. }
  split_and!.
  - intros k v Hk.
    apply list_lookup_fmap_Some_1 in Hk as ([b v'] & -> & Hk). simpl.
    rewrite Hbind, Hadv by (apply lookup_lt_Some in Hk; lia).
    rewrite (drop_S _ _ _ Hk). simpl. unfold iter_deref, load_value. simpl.
    by rewrite (linked_lookup _ _ _ _ _ _ (rep_linked _ _ Hr _ _ Hl) Hk).
  - rewrite Hadv by done. by rewrite drop_all.
  - rewrite Hbind, Hadv by done. by rewrite drop_all.
  - rewrite Hbind, Hadv by done. by rewrite drop_all.
Qed.

Lemma traversal_visits_elements_witness :
  ∃ m, two_lists [10; 20; 30] [] empty_mem = inr (tt, m)
       ∧ (let* b := list_begin 1%positive in
          let* it := advance 1 b in
          iter_deref it) m = inr (20, m).
Proof.
  destruct (two_lists_spec [10; 20; 30] []) as (m & Hrun & Hinv & HA & _ & Hsz).
  { vm_compute. discriminate. }
  exists m. split; [exact Hrun|].
  apply (traversal_visits_elements m 1%positive [10; 20; 30] Hinv HA). reflexivity.
Defined.

Lemma cursor_spec_end {T} (m : Mem T) σ l cs k :
  represents m σ → σ !! l = Some cs → (k ≤ S (length cs))%nat →
  (let* b := before_begin l in advance k b) m
  = inr (Iterator (node_before l cs k), m).
Proof.
  intros Hr Hl Hk. unfold before_begin, bind, ret.
  destruct k as [|k]; [done|]. simpl.
  unfold iter_incr, bind, load_next. simpl.
  rewrite (represents_lookup _ _ _ _ Hr Hl). simpl. unfold ret.
  rewrite <- (drop_0 cs) at 1.
  by rewrite (advance_in_chain m σ l cs 0 k Hr Hl) by lia.
Qed.

Lemma node_before_inj {T} l (cs : chain T) j k :
  NoDup cs.*1 → (j ≤ S (length cs))%nat → (k ≤ S (length cs))%nat →
  node_before l cs j = node_before l cs k → j = k.
Proof.
  intros Hnd Hj Hk.
  assert (Hptr : ∀ i, (i ≤ length cs)%nat →
            first_ptr nullptr (drop i cs)
            = match cs.*1 !! i with Some a => cell a | None => nullptr end).
  { intros i Hi. rewrite list_lookup_fmap.
    destruct (cs !! i) as [[a v]|] eqn:Hlk; simpl.
    - by rewrite (drop_S _ _ _ Hlk).
    - apply lookup_ge_None in Hlk. by rewrite drop_ge. }
  destruct j as [|j], k as [|k]; simpl; try done.
  - rewrite Hptr by lia. by destruct (cs.*1 !! k).
  - rewrite Hptr by lia. by destruct (cs.*1 !! j).
  - rewrite !Hptr by lia.
    destruct (cs.*1 !! j) as [a|] eqn:Hja, (cs.*1 !! k) as [b|] eqn:Hkb; try done.
    + intros [= ->]. f_equal. by eapply NoDup_lookup.
    + intros _. apply lookup_ge_None in Hja, Hkb. rewrite length_fmap in *. lia.
Qed.

(** X8: the cursors of a list are told apart by [operator==] and
    [operator!=]: counting [before_begin()] as step 0, the elements as
    steps 1 to [n] and [end()] as step [n + 1], the cursors reached after
    [j] and after [k] steps compare equal exactly when [j = k]. *)
Theorem cursors_equal_iff_same_position {T}
    (m : Mem T) (L : loc) (vs : list T) (j k : nat) :
  mem_invariant m →
  reads_as m L vs →
  (j ≤ S (length vs))%nat →
  (k ≤ S (length vs))%nat →
  ∃ cj ck,
    (let* b := before_begin L in advance j b) m = inr (cj, m)
    ∧ (let* b := before_begin L in advance k b) m = inr (ck, m)
    ∧ (iter_eq cj ck = true ↔ j = k)
    ∧ (iter_ne cj ck = true ↔ j ≠ k).
Proof.
  intros [σ Hr] Hreads Hj Hk.
  destruct (reads_as_inv _ _ _ _ Hr Hreads) as (cs & Hl & <-).
  rewrite length_fmap in *.
  exists (Iterator (node_before L cs j)), (Iterator (node_before L cs k)).
  split_and!; [by apply (cursor_spec_end m σ)|by apply (cursor_spec_end m σ)| |].
  - unfold iter_eq. simpl. rewrite bool_decide_eq_true. split; [|by intros ->].
    apply node_before_inj; [by eapply rep_nodup|done|done].
  - unfold iter_ne. simpl. rewrite negb_true_iff, bool_decide_eq_false.
    split.
    + intros Hne ->. by apply Hne.
    + intros Hne Heq. apply Hne.
      eapply node_before_inj; [by eapply rep_nodup|done|done|done].
Qed.

Lemma cursors_equal_iff_same_position_witness :
  ∃ m, two_lists [10; 20; 30] [] empty_mem = inr (tt, m)
       ∧ ∃ cj ck,
           (let* b := before_begin 1%positive in advance 1 b) m = inr (cj, m)
           ∧ (let* b := before_begin 1%positive in advance 4 b) m = inr (ck, m)
           ∧ (iter_eq cj ck = true ↔ 1%nat = 4%nat)
           ∧ (iter_ne cj ck = true ↔ 1%nat ≠ 4%nat).
Proof.
  destruct (two_lists_spec [10; 20; 30] []) as (m & Hrun & Hinv & HA & _ & Hsz).
  { vm_compute. discriminate. }
  exists m. split; [exact Hrun|].
  apply (cursors_equal_iff_same_position m 1%positive [10; 20; 30] 1 4 Hinv HA).
  - simpl. lia.
  - simpl. lia.
Defined.

(** The free store after the nodes at the addresses [l] have been freed. *)
Lemma freed_subseteq {T} (h h' : gmap positive (Node T)) (l : list positive) :
  (∀ a, h' !! a = if decide (a ∈ l) then None else h !! a) → h' ⊆ h.
Proof.
  intros Hh'. apply map_subseteq_spec. intros a n. rewrite Hh'. by case_decide.
Qed.

Lemma freed_size {T} (h h' : gmap positive (Node T)) (l : list positive) :
  (∀ a, h' !! a = if decide (a ∈ l) then None else h !! a) →
  NoDup l → (∀ a, a ∈ l → is_Some (h !! a)) →
  size h = (size h' + length l)%nat.
Proof.
  intros Hh' Hnd Hlive.
  assert (Hdom : dom h' = dom h ∖ list_to_set l).
  { apply set_eq. intros a.
    rewrite elem_of_difference, elem_of_list_to_set, !elem_of_dom, Hh'.
    case_decide; [|tauto]. split; [|tauto].
    intros Hnone. by apply is_Some_None in Hnone. }
  assert (Hsub : list_to_set (C := gset positive) l ⊆ dom h).
  { intros a Ha%elem_of_list_to_set. by apply elem_of_dom, Hlive. }
  pose proof (subseteq_size _ _ Hsub) as Hle.
  rewrite <- (size_dom (D := gset positive) h), <- (size_dom (D := gset positive) h'), Hdom.
  rewrite size_difference by done.
  rewrite size_list_to_set in * by done. lia.
Qed.

Lemma Clear_spec_nodes {T} (m : Mem T) σ l cs fuel :
  represents m σ → σ !! l = Some cs → (length cs < fuel)%nat →
  ∃ m', Clear fuel l m = inr (tt, m')
        ∧ represents m' (<[l := []]> σ)
        ∧ ∀ a, nodes m' !! a = if decide (a ∈ cs.*1) then None else nodes m !! a.
Proof.
  intros Hr Hl Hfuel.
  destruct (Clear_spec m σ l cs fuel Hr Hl Hfuel) as (m' & Hrun & _ & Hr').
  exists m'. split_and!; [done|done|].
  pose proof (represents_lookup _ _ _ _ Hr Hl) as Hls.
  destruct m as [h ls]; simpl in *.
  destruct (Clear_loop_run l cs fuel h ls _ (rep_linked _ _ Hr _ _ Hl)
              (rep_nodup _ _ Hr _ _ Hl) Hfuel Hls eq_refl) as (h' & Hrun' & Hh').
  revert Hrun. unfold Clear, bind. rewrite Hrun'.
  unfold store_size. simpl. rewrite lookup_insert_eq. by intros [= <-].
Qed.

Lemma SingleLinkedList_destroy_spec_nodes {T} (m : Mem T) σ l cs fuel :
  represents m σ → σ !! l = Some cs → (length cs < fuel)%nat →
  ∃ m', SingleLinkedList_destroy fuel l m = inr (tt, m')
        ∧ represents m' (delete l σ)
        ∧ ∀ a, nodes m' !! a = if decide (a ∈ cs.*1) then None else nodes m !! a.
Proof.
  intros Hr Hl Hfuel.
  destruct (Clear_spec_nodes m σ l cs fuel Hr Hl Hfuel) as (m1 & Hrun1 & Hr1 & Hn1).
  destruct (release_spec m1 _ l [] Hr1) as (m2 & Hrun2 & Hn2 & Hr2);
    [apply lookup_insert_eq|].
  exists m2. split_and!.
  - unfold SingleLinkedList_destroy, bind. by rewrite Hrun1.
  - by rewrite delete_insert_eq in Hr2.
  - by rewrite Hn2.
Qed.

(** X9: [Clear()] returns on every list and leaves it empty; it frees
    exactly the nodes of the list, as many as it had elements, and
    changes no other node, so the other lists read as before; a second
    [Clear()] changes nothing. *)
Theorem Clear_frees_the_list {T}
    (m : Mem T) (L : loc) (vs : list T) (fuel : nat) :
  mem_invariant m →
  reads_as m L vs →
  (length vs < fuel)%nat →
  ∃ m',
    Clear fuel L m = inr (tt, m')
    ∧ reads_as m' L []
    ∧ IsEmpty L m' = inr (true, m')
    ∧ nodes m' ⊆ nodes m
    ∧ size (nodes m) = (size (nodes m') + length vs)%nat
    ∧ (∀ C zs, C ≠ L → reads_as m C zs → reads_as m' C zs)
    ∧ Clear fuel L m' = inr (tt, m').
Proof.
  intros [σ Hr] Hreads Hfuel.
  destruct (reads_as_inv _ _ _ _ Hr Hreads) as (cs & Hl & <-).
  rewrite length_fmap in *.
  destruct (Clear_spec_nodes m σ L cs fuel Hr Hl Hfuel) as (m' & Hrun & Hr' & Hn).
  assert (Hl' : <[L := []]> σ !! L = Some []) by apply lookup_insert_eq.
  exists m'. split_and!.
  - done.
  - by apply (reads_as_intro m' _ L [] Hr').
  - unfold IsEmpty, bind, load_size.
    by rewrite (represents_lookup _ _ _ _ Hr' Hl').
  - by eapply freed_subseteq.
  - rewrite <- (length_fmap fst cs).
    eapply freed_size; [exact Hn|exact (rep_nodup _ _ Hr _ _ Hl)|].
    intros a Ha. eapply linked_live; [exact (rep_linked _ _ Hr _ _ Hl)|done].
  - intros C zs HC HCreads.
    destruct (reads_as_inv _ _ _ _ Hr HCreads) as (cs3 & Hl3 & <-).
    eapply reads_as_intro; [done|]. by rewrite lookup_insert_ne.
  - destruct (Clear_spec_nodes m' _ L [] fuel Hr' Hl') as (m'' & Hrun' & Hr'' & Hn');
      [simpl; lia|].
    rewrite Hrun'. do 2 f_equal. apply mem_eq.
    + apply map_eq. intros a. rewrite Hn'.
      case_decide as Hin; [|done]. simpl in Hin. by apply elem_of_nil in Hin.
    + eapply represents_lists_eq; [done|]. by rewrite insert_insert_eq.
Qed.

Lemma Clear_frees_the_list_witness :
  ∃ m, two_lists [10; 20; 30] [7] empty_mem = inr (tt, m)
       ∧ ∃ m', Clear 4 1%positive m = inr (tt, m')
               ∧ reads_as m' 1%positive []
               ∧ size (nodes m) = (size (nodes m') + 3)%nat
               ∧ reads_as m' 2%positive [7].
Proof.
  destruct (two_lists_spec [10; 20; 30] [7]) as (m & Hrun & Hinv & HA & HB & Hsz).
  { vm_compute. discriminate. }
  exists m. split; [exact Hrun|].
  destruct (Clear_frees_the_list m 1%positive [10; 20; 30] 4 Hinv HA)
    as (m' & H1 & H2 & _ & _ & H5 & H6 & _); [simpl; lia|].
  exists m'. split_and!; [exact H1|exact H2|exact H5|].
  apply H6; [discriminate|exact HB].
Defined.

Lemma node_before_cell {T} l (cs : chain T) k b :
  node_before l cs k = cell b → b ∈ cs.*1.
Proof.
  destruct k as [|j]; simpl; [done|].
  destruct (drop j cs) as [|[c w] rest] eqn:Hdrop; simpl; [done|].
  intros [= ->]. rewrite <- (take_drop j cs), Hdrop, fmap_app, fmap_cons.
  apply elem_of_app. right. by left.
Qed.

(** One round of the loop of [FillLinkedList_] allocates a node that
    was not live and writes to no other node than the one that holds
    the tail link. *)
Lemma FillLinkedList_step_nodes {T} (alloc : Allocator) (m : Mem T) p l v a m1 :
  allocator_laws alloc →
  (let* n := new_Node alloc v nullptr in
   store_next p n ;;;
   let* node_ptr' := load_next p in
   incr_size l ;;;
   ret node_ptr') m = inr (cell a, m1) →
  nodes m !! a = None
  ∧ ∀ b, b ≠ a → cell b ≠ p → nodes m1 !! b = nodes m !! b.
Proof.
  intros Hlaws. destruct m as [h ls].
  unfold bind, new_Node. simpl.
  destruct (new_addr alloc (dom h)) as [a0|] eqn:Ha0; [|done].
  pose proof (new_addr_fresh alloc Hlaws _ _ Ha0) as Hfresh%not_elem_of_dom.
  destruct (store_next p (cell a0) _) as [e|[[] m2]] eqn:Hstore; [done|].
  rewrite (load_next_store_next _ _ _ _ Hstore).
  destruct (incr_size l m2) as [e|[[] m3]] eqn:Hincr; [done|].
  unfold ret. intros [= <- <-]. split; [done|].
  intros b Hba Hbp.
  assert (Hm3 : nodes m3 = nodes m2).
  { revert Hincr. unfold incr_size, bind, load_size, store_size.
    destruct (lists m2 !! l) as [o|] eqn:Ho; simpl; [|done].
    rewrite Ho. by intros [= <-]. }
  rewrite Hm3. revert Hstore. unfold store_next. simpl.
  destruct p as [|l'|c]; [done| |].
  - destruct (ls !! l'); [|done]. intros [= <-]. simpl. by rewrite lookup_insert_ne.
  - destruct (<[a0:=_]> h !! c) as [n|]; [|done]. intros [= <-]. simpl.
    rewrite !lookup_insert_ne; [done|done|]. intros ->. by apply Hbp.
Qed.

(** Filling from an initializer list, with the account of the nodes. *)
Lemma FillLinkedList_loop_initializer_list_nodes {T} (alloc : Allocator)
    (values : list T) l : ∀ vs i built σ (m : Mem T) fuel,
  allocator_laws alloc →
  represents m σ → σ !! l = Some built →
  drop i values = vs → (i ≤ length values)%nat →
  Z.of_nat (size (nodes m)) + Z.of_nat (length vs) ≤ capacity alloc →
  (length vs < fuel)%nat →
  ∃ m' new,
    FillLinkedList_loop alloc (CI := initializer_list_iterator values) fuel l
      (node_before l built (length built)) i (length values) m = inr (tt, m')
    ∧ new.*2 = vs
    ∧ represents m' (<[l := built ++ new]> σ)
    ∧ (∀ b, b ∈ new.*1 → nodes m !! b = None)
    ∧ (∀ b, b ∉ built.*1 → b ∉ new.*1 → nodes m' !! b = nodes m !! b).
Proof.
  induction vs as [|v vs IH]; intros i built σ m fuel Hlaws Hr Hl Hdrop Hi Hcap Hfuel;
    (destruct fuel as [|fuel]; [simpl in Hfuel; lia|]);
    rewrite FillLinkedList_loop_unfold; simpl in *.
  - apply (f_equal length) in Hdrop. rewrite length_drop in Hdrop. simpl in Hdrop.
    replace i with (length values) by lia. rewrite Nat.eqb_refl. simpl.
    exists m, []. split_and!; [done|done| |by intros b ?%elem_of_nil|done].
    by rewrite app_nil_r, insert_id.
  - assert (Hv : values !! i = Some v).
    { rewrite <- (Nat.add_0_r i), <- lookup_drop, Hdrop. done. }
    pose proof (lookup_lt_Some _ _ _ Hv) as Hlt.
    rewrite (drop_S _ _ _ Hv) in Hdrop. simplify_eq.
    destruct (FillLinkedList_step alloc Hlaws m σ l built v)
      as (a & m1 & Hsz & Hr1 & Hstep); [done|done|lia|].
    destruct (FillLinkedList_step_nodes alloc m _ l v a m1 Hlaws (Hstep _ ret))
      as [Hfresh Hframe].
    destruct (IH (S i) (built ++ [(a, v)]) (<[l := built ++ [(a, v)]]> σ) m1 fuel)
      as (m' & new & Hrun & Hnew & Hr' & Hfresh' & Hframe'); try done.
    { apply lookup_insert_eq. } { lia. } { lia. }
    assert (Hlive1 : is_Some (nodes m1 !! a)).
    { eapply linked_live; [exact (rep_linked _ _ Hr1 _ _ (lookup_insert_eq _ _ _))|].
      rewrite fmap_app. apply elem_of_app. right. by left. }
    assert (Hbuilt : ∀ b, b ∈ built.*1 → is_Some (nodes m !! b)).
    { intros b Hb. eapply linked_live; [exact (rep_linked _ _ Hr _ _ Hl)|done]. }
    exists m', ((a, v) :: new). split_and!.
    + rewrite (proj2 (Nat.eqb_neq i (length values))) by lia. simpl.
      unfold bind at 1. rewrite Hv. unfold ret at 1.
      rewrite Hstep. unfold bind at 1.
      rewrite (proj2 (Nat.ltb_lt i (length values))) by done. unfold ret at 1.
      by rewrite <- node_before_snoc with (l := l) (cs := built) (v := v).
    + rewrite fmap_cons. simpl. by f_equal.
    + by rewrite insert_insert_eq, <- app_assoc in Hr'.
    + intros b [->|Hb]%elem_of_cons; [done|].
      pose proof (Hfresh' b Hb) as Hb1.
      assert (b ≠ a) by (intros ->; destruct Hlive1; congruence).
      rewrite <- Hframe; [done|done|].
      intros Hp%eq_sym%node_before_cell.
      assert (Hlive : is_Some (nodes m1 !! b)); [|destruct Hlive; congruence].
      eapply linked_live; [exact (rep_linked _ _ Hr1 _ _ (lookup_insert_eq _ _ _))|].
      rewrite fmap_app. apply elem_of_app. by left.
    + intros b Hb1 Hb2. rewrite fmap_cons in Hb2. simpl in Hb2.
      apply not_elem_of_cons in Hb2 as [Hba Hb2].
      rewrite Hframe'; [|rewrite fmap_app; simpl|done].
      * apply Hframe; [done|]. intros Hp%eq_sym%node_before_cell. done.
      * intros [?|[?|?%elem_of_nil]%elem_of_cons]%elem_of_app; done.
Qed.

(** Filling from the chain of another list, with the account of the
    nodes. *)
Lemma FillLinkedList_loop_chain_nodes {T} (alloc : Allocator) l other :
  ∀ rest copied built σ (m : Mem T) fuel,
  allocator_laws alloc →
  represents m σ → σ !! l = Some built →
  σ !! other = Some (copied ++ rest) → l ≠ other →
  Z.of_nat (size (nodes m)) + Z.of_nat (length rest) ≤ capacity alloc →
  (length rest < fuel)%nat →
  ∃ m' new,
    FillLinkedList_loop alloc fuel l (node_before l built (length built))
      (Iterator (first_ptr nullptr rest)) (Iterator nullptr) m = inr (tt, m')
    ∧ new.*2 = rest.*2
    ∧ represents m' (<[l := built ++ new]> σ)
    ∧ (∀ b, b ∈ new.*1 → nodes m !! b = None)
    ∧ (∀ b, b ∉ built.*1 → b ∉ new.*1 → nodes m' !! b = nodes m !! b).
Proof.
  induction rest as [|[c w] rest IH];
    intros copied built σ m fuel Hlaws Hr Hl Ho Hne Hcap Hfuel;
    (destruct fuel as [|fuel]; [simpl in Hfuel; lia|]);
    rewrite FillLinkedList_loop_unfold; simpl in *.
  - exists m, []. split_and!; [done|done| |by intros b ?%elem_of_nil|done].
    by rewrite app_nil_r, insert_id.
  - pose proof (rep_linked _ _ Hr _ _ Ho) as (_ & Hc & _)%linked_middle.
    destruct (FillLinkedList_step alloc Hlaws m σ l built w)
      as (a & m1 & Hsz & Hr1 & Hstep); [done|done|lia|].
    destruct (FillLinkedList_step_nodes alloc m _ l w a m1 Hlaws (Hstep _ ret))
      as [Hfresh Hframe].
    assert (Ho1 : <[l := built ++ [(a, w)]]> σ !! other = Some (copied ++ (c, w) :: rest)).
    { by rewrite lookup_insert_ne. }
    pose proof (rep_linked _ _ Hr1 _ _ Ho1) as (_ & Hc1 & _)%linked_middle.
    destruct (IH (copied ++ [(c, w)]) (built ++ [(a, w)])
                (<[l := built ++ [(a, w)]]> σ) m1 fuel)
      as (m' & new & Hrun & Hnew & Hr' & Hfresh' & Hframe'); try done.
    { apply lookup_insert_eq. } { by rewrite <- app_assoc. } { lia. } { lia. }
    assert (Hlive1 : ∀ b, b ∈ (built ++ [(a, w)]).*1 → is_Some (nodes m1 !! b)).
    { intros b Hb.
      eapply linked_live; [exact (rep_linked _ _ Hr1 _ _ (lookup_insert_eq _ _ _))|done]. }
    exists m', ((a, w) :: new). split_and!.
    + unfold bind at 1, iter_deref, load_value. simpl. rewrite Hc. simpl.
      rewrite Hstep. unfold bind at 1, iter_incr, bind, load_next. simpl.
      rewrite Hc1. simpl.
      by rewrite <- node_before_snoc with (l := l) (cs := built) (v := w).
    + rewrite fmap_cons. simpl. by f_equal.
    + by rewrite insert_insert_eq, <- app_assoc in Hr'.
    + intros b [->|Hb]%elem_of_cons; [done|].
      pose proof (Hfresh' b Hb) as Hb1.
      assert (Hnot : b ∉ (built ++ [(a, w)]).*1).
      { intros Hin%Hlive1. destruct Hin. congruence. }
      rewrite fmap_app in Hnot. simpl in Hnot.
      rewrite <- Hframe; [done| |].
      * intros ->. apply Hnot, elem_of_app. right. by left.
      * intros Hp%eq_sym%node_before_cell. apply Hnot, elem_of_app. by left.
    + intros b Hb1 Hb2. rewrite fmap_cons in Hb2. simpl in Hb2.
      apply not_elem_of_cons in Hb2 as [Hba Hb2].
      rewrite Hframe'; [|rewrite fmap_app; simpl|done].
      * apply Hframe; [done|]. intros Hp%eq_sym%node_before_cell. done.
      * intros [?|[?|?%elem_of_nil]%elem_of_cons]%elem_of_app; done.
Qed.

(** The two constructors that fill a list, with the account of the
    nodes: the nodes of the new list were not live, and no other node
    is changed. *)
Lemma SingleLinkedList_init_spec_nodes {T} (alloc : Allocator)
    (m : Mem T) σ this values fuel :
  allocator_laws alloc →
  represents m σ → σ !! this = None →
  Z.of_nat (size (nodes m)) + Z.of_nat (length values) ≤ capacity alloc →
  (length values < fuel)%nat →
  ∃ m' cs, SingleLinkedList_init alloc fuel this values m = inr (tt, m')
           ∧ cs.*2 = values
           ∧ represents m' (<[this := cs]> σ)
           ∧ (∀ b, b ∈ cs.*1 → nodes m !! b = None)
           ∧ (∀ b, b ∉ cs.*1 → nodes m' !! b = nodes m !! b).
Proof.
  intros Hlaws Hr Hthis Hcap Hfuel.
  destruct (init_members_spec m σ this) as (m1 & Hrun1 & Hn1 & Hr1); try done.
  pose proof (local_storage_fresh _ _ Hr1) as Hfresh.
  set (l := fresh (dom (lists m1))) in *.
  destruct (init_members_spec m1 _ l Hr1 Hfresh) as (m2 & Hrun2 & Hn2 & Hr2).
  destruct (FillLinkedList_loop_initializer_list_nodes alloc values l values 0 [] _ m2
              fuel Hlaws Hr2) as (m3 & cs & Hrun3 & Hcs & Hr3 & Hnew3 & Hframe3);
    try done.
  { apply lookup_insert_eq. } { lia. } { rewrite Hn2, Hn1. lia. }
  rewrite insert_insert_eq in Hr3. simpl in Hr3, Hrun3.
  assert (Hne : l ≠ this).
  { intros Heq. rewrite Heq, lookup_insert_eq in Hfresh. done. }
  destruct (swap_spec m3 _ this l [] cs Hr3) as (m4 & Hrun4 & Hn4 & Hr4).
  { rewrite lookup_insert_ne by done. apply lookup_insert_eq. }
  { apply lookup_insert_eq. }
  destruct (SingleLinkedList_destroy_spec_nodes m4 _ l [] fuel Hr4)
    as (m5 & Hrun5 & Hr5 & Hn5).
  { apply lookup_insert_eq. } { simpl. lia. }
  assert (Hn54 : nodes m5 = nodes m4).
  { apply map_eq. intros a. rewrite Hn5. case_decide as Hin; [|done].
    simpl in Hin. by apply elem_of_nil in Hin. }
  exists m5, cs. split_and!.
  - unfold SingleLinkedList_init, SingleLinkedList_default, FillLinkedList_, bind.
    rewrite Hrun1. unfold local_storage. fold l. rewrite Hrun2, Hrun3, Hrun4. done.
  - done.
  - replace (<[this := cs]> σ) with
      (delete l (<[l := []]> (<[this := cs]> (<[l := cs]> (<[this := []]> σ))))); [done|].
    rewrite lookup_insert_ne in Hfresh by done. solve_map_eq.
  - intros b Hb. rewrite <- Hn1, <- Hn2. by apply Hnew3.
  - intros b Hb. rewrite Hn54, Hn4, <- Hn1, <- Hn2. apply Hframe3; [|done].
    simpl. apply not_elem_of_nil.
Qed.

Lemma SingleLinkedList_copy_spec_nodes {T} (alloc : Allocator)
    (m : Mem T) σ this other cs fuel :
  allocator_laws alloc →
  represents m σ → σ !! this = None → σ !! other = Some cs →
  Z.of_nat (size (nodes m)) + Z.of_nat (length cs) ≤ capacity alloc →
  (length cs < fuel)%nat →
  ∃ m' cs', SingleLinkedList_copy alloc fuel this other m = inr (tt, m')
            ∧ cs'.*2 = cs.*2
            ∧ represents m' (<[this := cs']> σ)
            ∧ (∀ b, b ∈ cs'.*1 → nodes m !! b = None)
            ∧ (∀ b, b ∉ cs'.*1 → nodes m' !! b = nodes m !! b).
Proof.
  intros Hlaws Hr Hthis Hother Hcap Hfuel.
  destruct (init_members_spec m σ this) as (m1 & Hrun1 & Hn1 & Hr1); try done.
  pose proof (local_storage_fresh _ _ Hr1) as Hfresh.
  set (l := fresh (dom (lists m1))) in *.
  destruct (init_members_spec m1 _ l Hr1 Hfresh) as (m2 & Hrun2 & Hn2 & Hr2).
  assert (Hne : l ≠ this).
  { intros Heq. rewrite Heq, lookup_insert_eq in Hfresh. done. }
  rewrite lookup_insert_ne in Hfresh by done.
  assert (Hne' : l ≠ other) by congruence.
  assert (Hne'' : this ≠ other) by congruence.
  assert (Ho2 : <[l := []]> (<[this := []]> σ) !! other = Some cs).
  { by rewrite !lookup_insert_ne. }
  destruct (FillLinkedList_loop_chain_nodes alloc l other cs [] [] _ m2 fuel Hlaws Hr2)
    as (m3 & cs' & Hrun3 & Hcs & Hr3 & Hnew3 & Hframe3); try done.
  { apply lookup_insert_eq. } { rewrite Hn2, Hn1. lia. }
  rewrite insert_insert_eq in Hr3. simpl in Hr3, Hrun3.
  destruct (swap_spec m3 _ this l [] cs' Hr3) as (m4 & Hrun4 & Hn4 & Hr4).
  { rewrite lookup_insert_ne by done. apply lookup_insert_eq. }
  { apply lookup_insert_eq. }
  destruct (SingleLinkedList_destroy_spec_nodes m4 _ l [] fuel Hr4)
    as (m5 & Hrun5 & Hr5 & Hn5).
  { apply lookup_insert_eq. } { simpl. lia. }
  assert (Hn54 : nodes m5 = nodes m4).
  { apply map_eq. intros a. rewrite Hn5. case_decide as Hin; [|done].
    simpl in Hin. by apply elem_of_nil in Hin. }
  exists m5, cs'. split_and!.
  - unfold SingleLinkedList_copy, SingleLinkedList_default, FillLinkedList_,
      list_begin, list_end, BasicIterator_default, bind.
    rewrite Hrun1. unfold local_storage. fold l. rewrite Hrun2.
    unfold load_next, ret. rewrite (represents_lookup _ _ _ _ Hr2 Ho2). simpl.
    rewrite Hrun3, Hrun4. done.
  - done.
  - replace (<[this := cs']> σ) with
      (delete l (<[l := []]> (<[this := cs']> (<[l := cs']> (<[this := []]> σ))))); [done|].
    solve_map_eq.
  - intros b Hb. rewrite <- Hn1, <- Hn2. by apply Hnew3.
  - intros b Hb. rewrite Hn54, Hn4, <- Hn1, <- Hn2. apply Hframe3; [|done].
    simpl. apply not_elem_of_nil.
Qed.

Lemma restored_nodes {T} (h h1 h2 : gmap positive (Node T)) (l : list positive) :
  (∀ b, b ∈ l → h !! b = None) →
  (∀ b, b ∉ l → h1 !! b = h !! b) →
  (∀ a, h2 !! a = if decide (a ∈ l) then None else h1 !! a) →
  h2 = h.
Proof.
  intros Hnew Hframe Hfreed. apply map_eq. intros a. rewrite Hfreed.
  case_decide; [by rewrite Hnew|by apply Hframe].
Qed.

(** X10: a list constructed from an initializer list and then destroyed
    leaves the memory exactly as it was: every node the constructor
    allocated is freed by the destructor, and no other node and no other
    list is touched. *)
Theorem construct_destroy_restores_memory {T} (alloc : Allocator)
    (m : Mem T) (this : loc) (vs : list T) (fuel : nat) :
  allocator_laws alloc →
  mem_invariant m →
  lists m !! this = None →
  room alloc m (length vs) →
  (length vs < fuel)%nat →
  (SingleLinkedList_init alloc fuel this vs ;;; SingleLinkedList_destroy fuel this) m
  = inr (tt, m).
Proof.
  intros Hlaws [σ Hr] Hnone Hroom Hfuel.
  pose proof (lists_None_inv _ _ _ Hr Hnone) as Hthis.
  destruct (SingleLinkedList_init_spec_nodes alloc m σ this vs fuel)
    as (m1 & cs & Hrun1 & Hcs & Hr1 & Hnew & Hframe); try done.
  destruct (SingleLinkedList_destroy_spec_nodes m1 _ this cs fuel Hr1)
    as (m2 & Hrun2 & Hr2 & Hfreed); [apply lookup_insert_eq| |].
  { rewrite <- Hcs, length_fmap in Hfuel. done. }
  unfold bind. rewrite Hrun1, Hrun2. do 2 f_equal. apply mem_eq.
  - by eapply restored_nodes.
  - rewrite delete_insert_id in Hr2 by done. by eapply represents_lists_eq.
Qed.

Lemma construct_destroy_restores_memory_witness :
  (SingleLinkedList_init first_fit_allocator 4 1%positive [10; 20; 30] ;;;
   SingleLinkedList_destroy 4 1%positive) empty_mem = inr (tt, empty_mem).
Proof.
  apply (construct_destroy_restores_memory first_fit_allocator empty_mem 1%positive
           [10; 20; 30] 4).
  - exact first_fit_laws.
  - apply mem_invariant_empty.
  - reflexivity.
  - unfold room. vm_compute. discriminate.
  - simpl. lia.
Defined.

Lemma allocated_size {T} (h h1 : gmap positive (Node T)) (cs : chain T) :
  (∀ b, b ∈ cs.*1 → h !! b = None) →
  (∀ b, b ∉ cs.*1 → h1 !! b = h !! b) →
  linked h1 nullptr cs → NoDup cs.*1 →
  size h1 = (size h + length cs)%nat.
Proof.
  intros Hnew Hframe Hlk Hnd. rewrite <- (length_fmap fst cs).
  apply freed_size; [|done|].
  - intros a. case_decide; [by apply Hnew|symmetry; by apply Hframe].
  - intros a Ha. by eapply linked_live.
Qed.

(** X11: the copy constructor builds the copy out of new nodes only, as
    many as the source has elements, and leaves every node that was live
    as it is; the copy reads as the source; destroying the copy gives
    back the memory as it was before the copy. *)
Theorem copy_construct_is_deep {T} (alloc : Allocator)
    (m : Mem T) (this other : loc) (vs : list T) (fuel : nat) :
  allocator_laws alloc →
  mem_invariant m →
  lists m !! this = None →
  reads_as m other vs →
  room alloc m (length vs) →
  (length vs < fuel)%nat →
  ∃ m1,
    SingleLinkedList_copy alloc fuel this other m = inr (tt, m1)
    ∧ reads_as m1 this vs
    ∧ nodes m ⊆ nodes m1
    ∧ size (nodes m1) = (size (nodes m) + length vs)%nat
    ∧ SingleLinkedList_destroy fuel this m1 = inr (tt, m).
Proof.
  intros Hlaws [σ Hr] Hnone Hreads Hroom Hfuel.
  pose proof (lists_None_inv _ _ _ Hr Hnone) as Hthis.
  destruct (reads_as_inv _ _ _ _ Hr Hreads) as (cs & Hother & <-).
  rewrite length_fmap in *.
  destruct (SingleLinkedList_copy_spec_nodes alloc m σ this other cs fuel)
    as (m1 & cs' & Hrun1 & Hcs & Hr1 & Hnew & Hframe); try done.
  assert (Hl1 : <[this := cs']> σ !! this = Some cs') by apply lookup_insert_eq.
  assert (Hlen : length cs' = length cs).
  { by rewrite <- (length_fmap snd cs'), Hcs, length_fmap. }
  destruct (SingleLinkedList_destroy_spec_nodes m1 _ this cs' fuel Hr1 Hl1)
    as (m2 & Hrun2 & Hr2 & Hfreed); [lia|].
  exists m1. split_and!.
  - done.
  - rewrite <- Hcs. by eapply reads_as_intro.
  - apply map_subseteq_spec. intros a n Ha. rewrite Hframe; [done|].
    intros Hin%Hnew. congruence.
  - rewrite <- Hlen. eapply allocated_size; [done|done| |].
    + exact (rep_linked _ _ Hr1 _ _ Hl1).
    + exact (rep_nodup _ _ Hr1 _ _ Hl1).
  - rewrite Hrun2. do 2 f_equal. apply mem_eq.
    + by eapply restored_nodes.
    + rewrite delete_insert_id in Hr2 by done. by eapply represents_lists_eq.
Qed.

(** The two lists of [two_lists] are the only ones in the memory. *)
Lemma two_lists_spec_storage xs ys :
  Z.of_nat (length xs) + Z.of_nat (length ys) ≤ capacity first_fit_allocator →
  ∃ m, two_lists xs ys empty_mem = inr (tt, m)
       ∧ mem_invariant m
       ∧ reads_as m 1%positive xs
       ∧ reads_as m 2%positive ys
       ∧ (size (nodes m) ≤ length xs + length ys)%nat
       ∧ ∀ l, l ≠ 1%positive → l ≠ 2%positive → lists m !! l = None.
Proof.
  intros Hcap.
  assert (Hempty : size (nodes (T := Z) empty_mem) = 0%nat) by apply map_size_empty.
  destruct (SingleLinkedList_init_spec first_fit_allocator first_fit_laws
              empty_mem ∅ 1%positive xs (S (length xs)))
    as (m1 & cs1 & Hrun1 & Hcs1 & Hsz1 & Hr1);
    [apply represents_empty|done|lia|lia|].
  destruct (SingleLinkedList_init_spec first_fit_allocator first_fit_laws
              m1 _ 2%positive ys (S (length ys)) Hr1)
    as (m2 & cs2 & Hrun2 & Hcs2 & Hsz2 & Hr2);
    [done|lia|lia|].
  exists m2. split_and!.
  - unfold two_lists, bind. by rewrite Hrun1.
  - by eexists.
  - rewrite <- Hcs1. eapply reads_as_intro; [done|].
    by rewrite lookup_insert_ne, lookup_insert_eq.
  - rewrite <- Hcs2. eapply reads_as_intro; [done|]. by rewrite lookup_insert_eq.
  - lia.
  - intros l Hl1 Hl2. eapply represents_lookup_None; [done|].
    by rewrite !lookup_insert_ne.
Qed.

Lemma copy_construct_is_deep_witness :
  ∃ m, two_lists [10; 20; 30] [] empty_mem = inr (tt, m)
       ∧ ∃ m1, SingleLinkedList_copy first_fit_allocator 4 3%positive 1%positive m
                 = inr (tt, m1)
               ∧ reads_as m1 3%positive [10; 20; 30]
               ∧ SingleLinkedList_destroy 4 3%positive m1 = inr (tt, m).
Proof.
  destruct (two_lists_spec_storage [10; 20; 30] [])
    as (m & Hrun & Hinv & HA & _ & Hsz & Hfree).
  { vm_compute. discriminate. }
  exists m. split; [exact Hrun|].
  destruct (copy_construct_is_deep first_fit_allocator m 3%positive 1%positive
              [10; 20; 30] 4 first_fit_laws Hinv) as (m1 & H1 & H2 & _ & _ & H5).
  - apply Hfree; discriminate.
  - exact HA.
  - unfold room. simpl in *. change (capacity first_fit_allocator) with (SIZE_MOD - 1).
    assert (3 < SIZE_MOD - 1 - 3) by (vm_compute; reflexivity). lia.
  - simpl. lia.
  - exists m1. by split_and!.
Defined.

(** X12: the copy assignment [B = A] of two different lists returns
    [*this]; afterwards [B] reads as [A], and [A] and every other list
    read as before; the former nodes of [B] have been freed, so the free
    store holds as many nodes more as [A] has elements and as many fewer
    as [B] had. *)
Theorem assign_replaces_and_frees {T} (alloc : Allocator)
    (m : Mem T) (A B : loc) (vs old : list T) (fuel : nat) :
  allocator_laws alloc →
  mem_invariant m →
  reads_as m A vs →
  reads_as m B old →
  A ≠ B →
  room alloc m (length vs) →
  (length vs < fuel)%nat →
  (length old < fuel)%nat →
  ∃ m',
    assign alloc fuel B A m = inr (B, m')
    ∧ reads_as m' B vs
    ∧ (∀ C zs, C ≠ B → reads_as m C zs → reads_as m' C zs)
    ∧ (size (nodes m') + length old = size (nodes m) + length vs)%nat.
Proof.
  intros Hlaws [σ Hr] HA HB Hne Hroom Hfuel1 Hfuel2. unfold room in Hroom.
  destruct (reads_as_inv _ _ _ _ Hr HA) as (csA & HlA & <-).
  destruct (reads_as_inv _ _ _ _ Hr HB) as (csB & HlB & <-).
  rewrite length_fmap in *.
  pose proof (local_storage_fresh _ _ Hr) as Hfresh.
  set (copy := fresh (dom (lists m))) in *.
  assert (Hne1 : copy ≠ B) by congruence.
  assert (Hne2 : copy ≠ A) by congruence.
  destruct (SingleLinkedList_copy_spec_nodes alloc m σ copy A csA fuel)
    as (m1 & cs' & Hrun1 & Hcs & Hr1 & Hnew & Hframe); try done.
  assert (Hl1 : <[copy := cs']> σ !! copy = Some cs') by apply lookup_insert_eq.
  assert (Hlen : length cs' = length csA).
  { by rewrite <- (length_fmap snd cs'), Hcs, length_fmap. }
  destruct (swap_spec m1 _ B copy csB cs' Hr1) as (m2 & Hrun2 & Hn2 & Hr2);
    [by rewrite lookup_insert_ne|done|].
  destruct (SingleLinkedList_destroy_spec_nodes m2 _ copy csB fuel Hr2)
    as (m3 & Hrun3 & Hr3 & Hfreed); [apply lookup_insert_eq|done|].
  assert (Hσ : delete copy (<[copy := csB]> (<[B := cs']> (<[copy := cs']> σ)))
               = <[B := cs']> σ) by solve_map_eq.
  rewrite Hσ in Hr3.
  exists m3. split_and!.
  - unfold assign. rewrite bool_decide_eq_false_2 by done.
    unfold bind, local_storage. fold copy. by rewrite Hrun1, Hrun2, Hrun3.
  - rewrite <- Hcs. eapply reads_as_intro; [done|]. apply lookup_insert_eq.
  - intros C zs HC HCreads.
    destruct (reads_as_inv _ _ _ _ Hr HCreads) as (cs3 & Hl3 & <-).
    eapply reads_as_intro; [done|]. by rewrite lookup_insert_ne.
  - assert (H1 : size (nodes m1) = (size (nodes m) + length cs')%nat).
    { eapply allocated_size; [done|done| |].
      - exact (rep_linked _ _ Hr1 _ _ Hl1).
      - exact (rep_nodup _ _ Hr1 _ _ Hl1). }
    assert (H2 : size (nodes m2) = (size (nodes m3) + length csB.*1)%nat).
    { eapply freed_size; [done| |].
      - exact (rep_nodup _ _ Hr _ _ HlB).
      - intros a Ha. rewrite Hn2.
        eapply linked_live; [|done].
        eapply (rep_linked _ _ Hr1 B). by rewrite lookup_insert_ne. }
    rewrite Hn2 in H2. rewrite ?length_fmap in *. lia.
Qed.

Lemma assign_replaces_and_frees_witness :
  ∃ m, two_lists [10; 20; 30] [7; 8] empty_mem = inr (tt, m)
       ∧ ∃ m', assign first_fit_allocator 4 2%positive 1%positive m = inr (2%positive, m')
               ∧ reads_as m' 2%positive [10; 20; 30]
               ∧ (size (nodes m') + 2 = size (nodes m) + 3)%nat.
Proof.
  destruct (two_lists_spec [10; 20; 30] [7; 8]) as (m & Hrun & Hinv & HA & HB & Hsz).
  { vm_compute. discriminate. }
  exists m. split; [exact Hrun|].
  destruct (assign_replaces_and_frees first_fit_allocator m 1%positive 2%positive
              [10; 20; 30] [7; 8] 4 first_fit_laws Hinv HA HB)
    as (m' & H1 & H2 & _ & H4).
  - discriminate.
  - unfold room. simpl in *. change (capacity first_fit_allocator) with (SIZE_MOD - 1).
    assert (3 < SIZE_MOD - 1 - 5) by (vm_compute; reflexivity). lia.
  - simpl. lia.
  - simpl. lia.
  - exists m'. by split_and!.
Defined.

(** X13: any sequence of mutations of one list, each within the contract
    of its mutator, returns, and the list then reads as the sequence
    obtained by applying the mutations one after the other to the
    elements; every other list reads as before. *)
Theorem mutations_compose {T} (alloc : Allocator)
    (m : Mem T) (L : loc) (vs : list T) (μs : list (mutation T)) :
  allocator_laws alloc →
  mem_invariant m →
  reads_as m L vs →
  mutations_allowed vs μs →
  room alloc m (length μs) →
  ∃ m',
    mutate_all alloc L μs m = inr (tt, m')
    ∧ reads_as m' L (mutated_all μs vs)
    ∧ mem_invariant m'
    ∧ ∀ C zs, C ≠ L → reads_as m C zs → reads_as m' C zs.
Proof.
  intros Hlaws [σ Hr] Hreads Hok Hroom.
  destruct (reads_as_inv _ _ _ _ Hr Hreads) as (cs & Hl & <-).
  destruct (mutate_all_spec alloc Hlaws L μs m σ cs) as (m' & cs' & Hrun & Hcs' & Hr');
    try done.
  exists m'. split_and!.
  - done.
  - rewrite <- Hcs'. eapply reads_as_intro; [done|]. apply lookup_insert_eq.
  - by eexists.
  - intros C zs HC HCreads.
    destruct (reads_as_inv _ _ _ _ Hr HCreads) as (cs3 & Hl3 & <-).
    eapply reads_as_intro; [done|]. by rewrite lookup_insert_ne.
Qed.

Lemma mutations_compose_witness :
  ∃ m, two_lists [10; 20; 30] [7] empty_mem = inr (tt, m)
       ∧ ∃ m',
           mutate_all first_fit_allocator 1%positive
             [DoInsertAfter 2 25; DoEraseAfter 2; DoPopFront; DoPushFront 5] m
             = inr (tt, m')
           ∧ reads_as m' 1%positive [5; 20; 30]
           ∧ reads_as m' 2%positive [7].
Proof.
  destruct (two_lists_spec [10; 20; 30] [7]) as (m & Hrun & Hinv & HA & HB & Hsz).
  { vm_compute. discriminate. }
  exists m. split; [exact Hrun|].
  destruct (mutations_compose first_fit_allocator m 1%positive [10; 20; 30]
              [DoInsertAfter 2 25; DoEraseAfter 2; DoPopFront; DoPushFront 5]
              first_fit_laws Hinv HA) as (m' & H1 & H2 & _ & H4).
  - simpl. lia.
  - unfold room. simpl in *. change (capacity first_fit_allocator) with (SIZE_MOD - 1).
    assert (4 < SIZE_MOD - 1 - 4) by (vm_compute; reflexivity). lia.
  - exists m'. split_and!; [exact H1|exact H2|].
    apply H4; [discriminate|exact HB].
Defined.

(** X14: [InsertAfter(pos, x)] followed by [EraseAfter(pos)] with the same
    cursor of the list gives back the memory as it was: the sequence,
    the count and the free store.  The cursor that [EraseAfter] returns
    is the one that followed [pos] before. *)
Theorem InsertAfter_EraseAfter_restores_memory {T} (alloc : Allocator)
    (m : Mem T) (L : loc) (vs : list T) (k : nat) (x : T) :
  allocator_laws alloc →
  mem_invariant m →
  reads_as m L vs →
  (k ≤ length vs)%nat →
  room alloc m 1 →
  ∃ pos it,
    (let* b := before_begin L in advance k b) m = inr (pos, m)
    ∧ (InsertAfter alloc L pos x ;;; EraseAfter L pos) m = inr (it, m)
    ∧ iter_incr pos m = inr (it, m).
Proof.
  intros Hlaws [σ Hr] Hreads Hk Hroom. unfold room in Hroom.
  destruct (reads_as_inv _ _ _ _ Hr Hreads) as (cs & Hl & <-).
  rewrite length_fmap in Hk.
  exists (Iterator (node_before L cs k)), (Iterator (first_ptr nullptr (drop k cs))).
  split; [by apply (cursor_spec m σ)|].
  split; [|unfold iter_incr, bind; simpl;
           by rewrite (load_next_node_before m σ L cs k Hr Hl Hk)].
  destruct k as [|j].
  - simpl. rewrite drop_0. unfold bind. rewrite InsertAfter_sentinel.
    destruct (PushFront_spec alloc Hlaws m σ L cs x)
      as (a & m1 & Ha & Hrun1 & Hn1 & Hr1); [done|done|lia|].
    destruct (PopFront_spec m1 _ L a x cs Hr1) as (m2 & Hrun2 & Hn2 & Hr2);
      [apply lookup_insert_eq|].
    rewrite insert_insert_eq, insert_id in Hr2 by done.
    assert (m2 = m) as ->.
    { apply mem_eq.
      - rewrite Hn2, Hn1. apply delete_insert_id.
        by eapply not_elem_of_dom, (new_addr_fresh alloc Hlaws).
      - by eapply represents_lists_eq. }
    unfold bind. rewrite Hrun1.
    rewrite (list_begin_spec m1 _ L _ Hr1 (lookup_insert_eq _ _ _)).
    rewrite EraseAfter_sentinel. unfold bind. rewrite Hrun2.
    by rewrite (list_begin_spec m σ L cs Hr Hl).
  - destruct (lookup_lt_is_Some_2 cs j) as [[b v] Hj]; [lia|].
    simpl. rewrite (drop_S _ _ _ Hj). simpl.
    pose proof (take_drop_middle _ _ _ Hj) as Hsplit.
    set (pre := take j cs) in *. set (post := drop (S j) cs) in *.
    rewrite <- Hsplit in Hl.
    pose proof (rep_linked _ _ Hr _ _ Hl) as (_ & Hb & _)%linked_middle.
    destruct (InsertAfter_cell_spec alloc Hlaws m σ L pre b v post x)
      as (a & m1 & Ha & Hrun1 & Hn1 & Hr1); [done|done|lia|].
    destruct (EraseAfter_cell_spec m1 _ L pre b v a x post Hr1)
      as (m2 & Hrun2 & Hn2 & Hr2); [apply lookup_insert_eq|].
    rewrite insert_insert_eq, insert_id in Hr2 by done.
    pose proof (new_addr_fresh alloc Hlaws _ _ Ha) as Hfresh%not_elem_of_dom.
    assert (m2 = m) as ->.
    { apply mem_eq.
      - rewrite Hn2, Hn1, insert_insert_eq.
        rewrite delete_insert_ne by congruence.
        rewrite delete_insert_id by done. by apply insert_id.
      - by eapply represents_lists_eq. }
    unfold bind. by rewrite Hrun1, Hrun2.
Qed.

Lemma InsertAfter_EraseAfter_restores_memory_witness :
  ∃ m, two_lists [10; 20; 30] [] empty_mem = inr (tt, m)
       ∧ ∃ pos it,
           (let* b := before_begin 1%positive in advance 2 b) m = inr (pos, m)
           ∧ (InsertAfter first_fit_allocator 1%positive pos 25 ;;;
              EraseAfter 1%positive pos) m = inr (it, m)
           ∧ iter_incr pos m = inr (it, m).
Proof.
  destruct (two_lists_spec [10; 20; 30] []) as (m & Hrun & Hinv & HA & _ & Hsz).
  { vm_compute. discriminate. }
  exists m. split; [exact Hrun|].
  apply (InsertAfter_EraseAfter_restores_memory first_fit_allocator m 1%positive
           [10; 20; 30] 2 25 first_fit_laws Hinv HA).
  - simpl. lia.
  - unfold room. simpl in *. change (capacity first_fit_allocator) with (SIZE_MOD - 1).
    assert (1 < SIZE_MOD - 1 - 3) by (vm_compute; reflexivity). lia.
Defined.

Lemma equal_outcome_same_length {T} {E : ElementOps T} (xs : list T) : ∀ ys,
  length xs = length ys →
  ∃ b, equal_outcome xs ys = inr b ∧ (b = true ↔ values_equal xs ys).
Proof.
  induction xs as [|x xs IH]; intros [|y ys] Hlen; simplify_eq/=.
  - exists true. split; [done|]. split; [constructor|done].
  - destruct (elem_eq x y) eqn:Hxy; simpl.
    + destruct (IH ys) as (b & Hb & Hiff); [done|].
      exists b. split; [done|]. rewrite Hiff. split.
      * by constructor.
      * by inversion 1.
    + exists false. split; [done|]. split; [done|].
      inversion 1; congruence.
Qed.

(** X15: on two lists of the same size [operator==] returns, and it
    returns [true] exactly when the elements are pairwise equal under the
    [operator==] of the element type; [operator!=] returns the opposite. *)
Theorem operator_eq_on_same_size {T} {E : ElementOps T}
    (m : Mem T) (A B : loc) (xs ys : list T) (fuel : nat) :
  mem_invariant m →
  reads_as m A xs →
  reads_as m B ys →
  length xs = length ys →
  (length xs < fuel)%nat →
  ∃ b,
    operator_eq fuel A B m = inr (b, m)
    ∧ operator_ne fuel A B m = inr (negb b, m)
    ∧ (b = true ↔ values_equal xs ys).
Proof.
  intros [σ Hr] HA HB Hlen Hfuel.
  destruct (reads_as_inv _ _ _ _ Hr HA) as (cs1 & Hl1 & <-).
  destruct (reads_as_inv _ _ _ _ Hr HB) as (cs2 & Hl2 & <-).
  destruct (equal_outcome_same_length cs1.*2 cs2.*2 Hlen) as (b & Hb & Hiff).
  rewrite length_fmap in Hfuel.
  pose proof (operator_eq_spec m σ A B cs1 cs2 fuel Hr Hl1 Hl2 Hfuel) as Heq.
  rewrite Hb in Heq.
  exists b. split_and!; [done| |done].
  unfold operator_ne, bind. by rewrite Heq.
Qed.

Lemma operator_eq_on_same_size_witness :
  ∃ m, two_lists [1; 2; 3] [1; 2; 4] empty_mem = inr (tt, m)
       ∧ operator_eq 4 1%positive 2%positive m = inr (false, m)
       ∧ operator_ne 4 1%positive 2%positive m = inr (true, m).
Proof.
  destruct (two_lists_spec [1; 2; 3] [1; 2; 4]) as (m & Hrun & Hinv & HA & HB & Hsz).
  { vm_compute. discriminate. }
  exists m. split; [exact Hrun|].
  destruct (operator_eq_on_same_size m 1%positive 2%positive [1; 2; 3] [1; 2; 4] 4
              Hinv HA HB) as (b & Heq & Hne & Hiff); [reflexivity|simpl; lia|].
  assert (b = false) as ->; [|by split].
  destruct b; [|reflexivity]. exfalso.
  pose proof (proj1 Hiff eq_refl) as Hall.
  inversion Hall as [|? ? ? ? _ Hall1]; subst.
  inversion Hall1 as [|? ? ? ? _ Hall2]; subst.
  inversion Hall2 as [|? ? ? ? H34 _]; subst. discriminate H34.
Defined.

Lemma lexicographical_outcome_asym {T} {E : ElementOps T} (xs : list T) : ∀ ys,
  (∀ x y, elem_lt x y = true → elem_lt y x = false) →
  lexicographical_outcome xs ys = true → lexicographical_outcome ys xs = false.
Proof.
  induction xs as [|x xs IH]; intros [|y ys] Hasym; simpl; try done.
  destruct (elem_lt x y) eqn:Hxy.
  - intros _. by rewrite (Hasym _ _ Hxy).
  - destruct (elem_lt y x) eqn:Hyx; [done|]. by apply IH.
Qed.

(** X16: when the [operator<] of the element type is asymmetric, the
    ordering operators of the lists are consistent: [A < B] and [B < A]
    are never both true; [A > B] is [B < A]; [A <= B] is the negation of
    [B < A] and [A >= B] the negation of [A < B]; so [A < B] implies
    [A <= B], and of [A <= B] and [A >= B] at least one holds. *)
Theorem ordering_operators_consistent {T} {E : ElementOps T}
    (m : Mem T) (A B : loc) (xs ys : list T) (fuel : nat) :
  mem_invariant m →
  reads_as m A xs →
  reads_as m B ys →
  (∀ x y, elem_lt x y = true → elem_lt y x = false) →
  (length xs < fuel)%nat →
  (length ys < fuel)%nat →
  ∃ lt gt,
    operator_lt fuel A B m = inr (lt, m)
    ∧ operator_gt fuel A B m = inr (gt, m)
    ∧ operator_le fuel A B m = inr (negb gt, m)
    ∧ operator_ge fuel A B m = inr (negb lt, m)
    ∧ (lt = true ↔ lex_less xs ys)
    ∧ (gt = true ↔ lex_less ys xs)
    ∧ lt && gt = false.
Proof.
  intros [σ Hr] HA HB Hasym Hfuel1 Hfuel2.
  destruct (reads_as_inv _ _ _ _ Hr HA) as (cs1 & Hl1 & <-).
  destruct (reads_as_inv _ _ _ _ Hr HB) as (cs2 & Hl2 & <-).
  rewrite length_fmap in *.
  pose proof (operator_lt_spec m σ A B cs1 cs2 fuel Hr Hl1 Hl2 Hfuel1) as Hlt.
  pose proof (operator_lt_spec m σ B A cs2 cs1 fuel Hr Hl2 Hl1 Hfuel2) as Hgt.
  exists (lexicographical_outcome cs1.*2 cs2.*2), (lexicographical_outcome cs2.*2 cs1.*2).
  split_and!.
  - done.
  - done.
  - unfold operator_le, operator_gt, bind. by rewrite Hgt.
  - unfold operator_ge, bind. by rewrite Hlt.
  - apply lexicographical_outcome_lex_less.
  - apply lexicographical_outcome_lex_less.
  - destruct (lexicographical_outcome cs1.*2 cs2.*2) eqn:H1; [|done].
    by rewrite (lexicographical_outcome_asym _ _ Hasym H1).
Qed.

Lemma ordering_operators_consistent_witness :
  ∃ m, two_lists [1; 2] [1; 3] empty_mem = inr (tt, m)
       ∧ ∃ lt gt,
           operator_lt 3 1%positive 2%positive m = inr (lt, m)
           ∧ operator_gt 3 1%positive 2%positive m = inr (gt, m)
           ∧ operator_le 3 1%positive 2%positive m = inr (negb gt, m)
           ∧ operator_ge 3 1%positive 2%positive m = inr (negb lt, m)
           ∧ lt && gt = false.
Proof.
  destruct (two_lists_spec [1; 2] [1; 3]) as (m & Hrun & Hinv & HA & HB & Hsz).
  { vm_compute. discriminate. }
  exists m. split; [exact Hrun|].
  destruct (ordering_operators_consistent m 1%positive 2%positive [1; 2] [1; 3] 3
              Hinv HA HB) as (lt & gt & H1 & H2 & H3 & H4 & _ & _ & H7).
  - intros x y Hxy. simpl in *. apply Z.ltb_lt in Hxy. apply Z.ltb_ge. lia.
  - simpl. lia.
  - simpl. lia.
  - exists lt, gt. by split_and!.
Defined.
